(** * SillyTavern-Roadway: the bullet extractor, the preset store, the
  generation flow and the edit handler of [src/index.ts], embedded in Rocq.

  JavaScript strings are sequences of UTF-16 code units; they are modelled
  as [list N].  Regular expressions are embedded as syntax trees run by a
  backtracking matcher in continuation-passing style, the way ECMAScript
  defines pattern semantics. *)

From Stdlib Require Import NArith ZArith List Bool String Ascii Lia.
From stdpp Require Import base option list gmap strings.
Import ListNotations.

(** ** JavaScript strings *)

Module JsString.

(** A UTF-16 code unit. *)
Definition char := N.
Definition jsstring := list char.

(** The code units of an ASCII literal. *)
Definition js (s : string) : jsstring :=
  map N_of_ascii (list_ascii_of_string s).

Definition LF : char := 10%N.
Definition CR : char := 13%N.

(** ECMAScript LineTerminator: LF, CR, LS, PS. *)
Definition isLineTerminator (c : char) : bool :=
  (c =? 10)%N || (c =? 13)%N || (c =? 8232)%N || (c =? 8233)%N.

(** ECMAScript WhiteSpace: TAB, VT, FF, SP, NBSP, ZWNBSP and category Zs. *)
Definition isWhiteSpace (c : char) : bool :=
  (c =? 9)%N || (c =? 11)%N || (c =? 12)%N || (c =? 32)%N || (c =? 160)%N
  || (c =? 5760)%N || ((8192 <=? c)%N && (c <=? 8202)%N)
  || (c =? 8239)%N || (c =? 8287)%N || (c =? 12288)%N || (c =? 65279)%N.

(** The class [\s], also what [String.prototype.trim] removes. *)
Definition isSpace (c : char) : bool := isWhiteSpace c || isLineTerminator c.

(** The class [\d]. *)
Definition isDigit (c : char) : bool := (48 <=? c)%N && (c <=? 57)%N.

Fixpoint dropWhile (p : char -> bool) (s : jsstring) : jsstring :=
  match s with
  | c :: s' => if p c then dropWhile p s' else s
  | [] => []
  end.

Fixpoint takeWhile (p : char -> bool) (s : jsstring) : jsstring :=
  match s with
  | c :: s' => if p c then c :: takeWhile p s' else []
  | [] => []
  end.

(** [String.prototype.trim]. *)
Definition trim (s : jsstring) : jsstring :=
  rev (dropWhile isSpace (rev (dropWhile isSpace s))).

(** [Array.prototype.join]. *)
Fixpoint join (sep : jsstring) (l : list jsstring) : jsstring :=
  match l with
  | [] => []
  | [x] => x
  | x :: l' => x ++ sep ++ join sep l'
  end.

(** The last code unit before a position: [prev] when nothing was
    consumed, else the last consumed code unit. *)
Definition lastOr (prev : option char) (consumed : jsstring) : option char :=
  match rev consumed with
  | c :: _ => Some c
  | [] => prev
  end.

End JsString.
Export JsString.

(** ** Regular expressions *)

Module RegExp.

(** Character classes and single-character atoms used by the patterns of
    [index.ts]. *)
Inductive cls : Type :=
| CChar (c : char)   (* a literal character *)
| CAny               (* [\s\S] *)
| CDot               (* .  (no s flag: anything but a line terminator) *)
| CDigit             (* \d *)
| CSpace             (* \s *)
| CNotSpace.         (* \S *)

(** Pattern syntax.  Groups only delimit here (no pattern of the program
    reads a capture), so they leave no node; quantifiers apply to
    single-character atoms, as in every pattern of the program. *)
Inductive regex : Type :=
| Eps
| Atom (c : cls)
| Seq (r1 r2 : regex)
| Alt (r1 r2 : regex)
| Star (greedy : bool) (c : cls)   (* c* and c*? *)
| Bol                              (* ^ *)
| Eol                              (* $ *)
| Look (r : regex).                (* (?=r) *)

(** c+ *)
Definition Plus (c : cls) : regex := Seq (Atom c) (Star true c).

(** A literal string. *)
Fixpoint Str (s : jsstring) : regex :=
  match s with
  | [] => Eps
  | c :: s' => Seq (Atom (CChar c)) (Str s')
  end.

Record flags : Type := { ignoreCase : bool; multiline : bool }.

(** Canonicalize of a pattern without the u flag, as far as a comparison
    with an ASCII pattern character can tell: ASCII letters fold to upper
    case, and a code unit from 128 on never folds to an ASCII one. *)
Definition canonicalize (fl : flags) (c : char) : char :=
  if ignoreCase fl && (97 <=? c)%N && (c <=? 122)%N then (c - 32)%N else c.

Definition cls_match (fl : flags) (k : cls) (c : char) : bool :=
  match k with
  | CChar x => (canonicalize fl x =? canonicalize fl c)%N
  | CAny => true
  | CDot => negb (isLineTerminator c)
  | CDigit => isDigit c
  | CSpace => isSpace c
  | CNotSpace => negb (isSpace c)
  end.

(** A position is the code unit before it (if any) and the input from it
    on; a continuation receives the position where a sub-pattern ended and
    answers with the input left after the whole match. *)
Definition cont := option char -> jsstring -> option jsstring.

Definition atLineStart (fl : flags) (prev : option char) : bool :=
  match prev with
  | None => true
  | Some c => multiline fl && isLineTerminator c
  end.

Definition atLineEnd (fl : flags) (s : jsstring) : bool :=
  match s with
  | [] => true
  | c :: _ => multiline fl && isLineTerminator c
  end.

(** Greedy iteration: take one more character first, fall back to the
    continuation. *)
Fixpoint starGreedy (p : char -> bool) (prev : option char) (s : jsstring)
    (k : cont) : option jsstring :=
  match s with
  | c :: s' =>
      if p c then
        match starGreedy p (Some c) s' k with
        | Some r => Some r
        | None => k prev s
        end
      else k prev s
  | [] => k prev s
  end.

(** Lazy iteration: try the continuation first, take one more character
    when it fails. *)
Fixpoint starLazy (p : char -> bool) (prev : option char) (s : jsstring)
    (k : cont) : option jsstring :=
  match k prev s with
  | Some r => Some r
  | None =>
      match s with
      | c :: s' => if p c then starLazy p (Some c) s' k else None
      | [] => None
      end
  end.

Fixpoint rmatch (fl : flags) (r : regex) (prev : option char) (s : jsstring)
    (k : cont) : option jsstring :=
  match r with
  | Eps => k prev s
  | Atom c =>
      match s with
      | x :: s' => if cls_match fl c x then k (Some x) s' else None
      | [] => None
      end
  | Seq r1 r2 => rmatch fl r1 prev s (fun prev' s' => rmatch fl r2 prev' s' k)
  | Alt r1 r2 =>
      match rmatch fl r1 prev s k with
      | Some x => Some x
      | None => rmatch fl r2 prev s k
      end
  | Star true c => starGreedy (cls_match fl c) prev s k
  | Star false c => starLazy (cls_match fl c) prev s k
  | Bol => if atLineStart fl prev then k prev s else None
  | Eol => if atLineEnd fl s then k prev s else None
  | Look r1 =>
      match rmatch fl r1 prev s (fun _ s' => Some s') with
      | Some _ => k prev s
      | None => None
      end
  end.

(** One match attempt at a position: the input left after the match. *)
Definition matchAt (fl : flags) (r : regex) (prev : option char)
    (s : jsstring) : option jsstring :=
  rmatch fl r prev s (fun _ s' => Some s').

(** The pieces a global scan cuts the input into. *)
Inductive segment : Type :=
| Lit (c : char)        (* a code unit outside every match *)
| Hit (m : jsstring).   (* a matched substring *)

(** The loop of a global pattern (RegExpBuiltinExec under [g], as driven by
    [String.prototype.match] and [String.prototype.replace]): from
    lastIndex, the leftmost position where the pattern matches; the next
    search starts where the match ended, one further after an empty match.
    [skip] counts the code units of the current match still to pass. *)
Fixpoint scan (fl : flags) (r : regex) (skip : nat) (prev : option char)
    (s : jsstring) : list segment :=
  match skip with
  | S n =>
      match s with
      | c :: s' => scan fl r n (Some c) s'
      | [] => []
      end
  | O =>
      match matchAt fl r prev s with
      | Some rest =>
          let len := (length s - length rest)%nat in
          Hit (firstn len s) ::
            match s with
            | c :: s' =>
                match len with
                | O => Lit c :: scan fl r 0 (Some c) s'
                | S n => scan fl r n (Some c) s'
                end
            | [] => []
            end
      | None =>
          match s with
          | c :: s' => Lit c :: scan fl r 0 (Some c) s'
          | [] => []
          end
      end
  end.

Definition hits (l : list segment) : list jsstring :=
  flat_map (fun g => match g with Hit m => [m] | Lit _ => [] end) l.

(** [String.prototype.match] with a global pattern: every match, or null. *)
Definition String_match_g (fl : flags) (r : regex) (s : jsstring)
    : option (list jsstring) :=
  match hits (scan fl r 0 None s) with
  | [] => None
  | l => Some l
  end.

(** [String.prototype.replace] with a global pattern and a constant
    replacement. *)
Definition String_replace_g (fl : flags) (r : regex) (by_ : jsstring)
    (s : jsstring) : jsstring :=
  flat_map (fun g => match g with Hit _ => by_ | Lit c => [c] end)
           (scan fl r 0 None s).

(** [String.prototype.replace] with a pattern that is not global: the
    leftmost match only. *)
Fixpoint replaceFrom (fl : flags) (r : regex) (by_ : jsstring)
    (prev : option char) (s : jsstring) : jsstring :=
  match matchAt fl r prev s with
  | Some rest => by_ ++ rest
  | None =>
      match s with
      | c :: s' => c :: replaceFrom fl r by_ (Some c) s'
      | [] => []
      end
  end.

Definition String_replace (fl : flags) (r : regex) (by_ : jsstring)
    (s : jsstring) : jsstring :=
  replaceFrom fl r by_ None s.

End RegExp.
Export RegExp.

(** ** The bullet extractor *)

(** The pattern [<think>[\s\S]*?</think>] with flags g and i. *)
Definition re_think : regex :=
  Seq (Str (js "<think>")) (Seq (Star false CAny) (Str (js "</think>"))).
Definition fl_think : flags := {| ignoreCase := true; multiline := false |}.

(** The marker [(?:\d+\.(?:\s+|(?=\S))|-\s+)]. *)
Definition re_marker : regex :=
  Alt (Seq (Plus CDigit)
           (Seq (Atom (CChar 46%N)) (Alt (Plus CSpace) (Look (Atom CNotSpace)))))
      (Seq (Atom (CChar 45%N)) (Plus CSpace)).

(** The bullet pattern: ^ marker ( . * ) $ with flags g and m; the group
    around the line body is the only capture and is never read. *)
Definition re_bullet : regex :=
  Seq Bol (Seq re_marker (Seq (Star true CDot) Eol)).
Definition fl_bullet : flags := {| ignoreCase := false; multiline := true |}.

(** The prefix pattern: ^ marker, without flags. *)
Definition re_prefix : regex := Seq Bol re_marker.
Definition fl_prefix : flags := {| ignoreCase := false; multiline := false |}.

Definition extractBulletPoints (text : jsstring) : list jsstring :=
  let cleanedText := String_replace_g fl_think re_think [] text in
  let matches := default [] (String_match_g fl_bullet re_bullet cleanedText) in
  map (fun line => trim (String_replace fl_prefix re_prefix [] line)) matches.

Definition nl : jsstring := [LF].

(** ** Settings *)

Definition DEFAULT_IMPERSONATE : jsstring := js
"Your task this time is to write your response as if you were {{user}}, impersonating their style. Use {{user}}'s dialogue and actions so far as a guideline for how they would likely act. Don't ever write as {{char}}. Only talk and act as {{user}}. This is what {{user}}'s focus:

{{roadwaySelected}}".

Definition DEFAULT_PROMPT : jsstring := js
"You are an AI brainstorming partner, helping to create immersive and surprising roleplaying experiences, **building upon the established context from our previous conversation.** Your task is to generate an *unpredictable* and *engaging* list of options for **{{user}}**, specifically tailored to their character, the world, and the current situation as established in our previous dialogue. These should be framed as possible actions that **{{user}}** *could* take.

Output ONLY a numbered list of possible actions. Each action should be a clear, actionable, concise, and *creative* sentence written in plain text suggesting an action **{{user}}** can perform in the game.

Prioritize *varied* actions that span multiple domains:

{Observation/Investigation; Dialogue/Persuasion; Stealth/Intrigue; Combat/Conflict; Crafting/Repair; Knowledge/Lore; Movement/Traversal; Deception/Manipulation; Performance/Entertainment; Technical/Mechanical}.

Avoid obvious or repetitive actions **that {{user}} has already explored or are contrary to the established character/world.** Push the boundaries of the situation. Challenge **{{user}}'s** expectations. Do not include greetings, farewells, polite thanks, or options that break character. Generate *exactly* 6 actions. The actions must be written in plain text.

Here are a few example actions to inspire creativity:

1. Attempt to communicate with the forest creatures to learn the location of hidden trails.
2. Bribe the corrupt city guard with a song and a dance.
3. Stage a fake ambush to draw out a hidden enemy.".

Definition VERSION : jsstring := js "0.4.0".
Definition FORMAT_VERSION : jsstring := js "F_1.0".

Inductive ExtractionStrategy : Type := bullet | none.

Record PromptPreset : Type := {
  content : jsstring;
  extractionStrategy : ExtractionStrategy;
  impersonate : option jsstring  (* optional field *)
}.

Inductive MaxContextType : Type := ctx_profile | ctx_sampler | ctx_custom.
Inductive ImpersonateApi : Type := api_main | api_profile.
Inductive MessageRole : Type := role_user | role_system | role_assistant.

(** [promptPresets] is a JavaScript object used as a map; only look-ups,
    assignments and [delete] reach it, so a key bound to undefined reads
    like an absent key.  The map holds the own keys of the object. *)
Record ExtensionSettings : Type := {
  version : jsstring;
  formatVersion : jsstring;
  profileId : jsstring;
  maxContextType : MaxContextType;
  maxContextValue : Z;
  maxResponseToken : Z;
  promptPreset : jsstring;
  autoTrigger : bool;
  autoOpen : bool;
  promptPresets : gmap jsstring PromptPreset;
  impersonateApi : ImpersonateApi;
  impersonateProfileId : jsstring;
  showUseActionIcon : bool;
  autoSubmitUseAction : bool;
  messageRole : MessageRole
}.

Definition DEFAULT_SETTINGS : ExtensionSettings := {|
  version := VERSION;
  formatVersion := FORMAT_VERSION;
  profileId := [];
  maxContextType := ctx_profile;
  maxContextValue := 16384;
  maxResponseToken := 500;
  promptPreset := js "default";
  autoTrigger := false;
  autoOpen := true;
  impersonateApi := api_main;
  impersonateProfileId := [];
  showUseActionIcon := true;
  autoSubmitUseAction := false;
  messageRole := role_system;
  promptPresets :=
    {[ js "default" := {| content := DEFAULT_PROMPT;
                          extractionStrategy := bullet;
                          impersonate := Some DEFAULT_IMPERSONATE |} ]}
|}.

(** The member names of [Object.prototype].  The preset mapping is a plain
    object, so the look-up [promptPresets[name]] of such a name that is no
    own key gives the inherited member, a function (the prototype itself for
    [__proto__]), where any other absent name gives undefined.  The member
    is truthy and, with nothing assigned to it, has no [content],
    [extractionStrategy] or [impersonate]: reading one of them gives
    undefined and does not throw. *)
Definition objectPrototypeNames : list jsstring :=
  [js "constructor"; js "toString"; js "toLocaleString"; js "valueOf";
   js "hasOwnProperty"; js "isPrototypeOf"; js "propertyIsEnumerable";
   js "__proto__"; js "__defineGetter__"; js "__defineSetter__";
   js "__lookupGetter__"; js "__lookupSetter__"].

Definition set_promptPreset (v : jsstring) (s : ExtensionSettings)
    : ExtensionSettings :=
  {| version := version s; formatVersion := formatVersion s;
     profileId := profileId s; maxContextType := maxContextType s;
     maxContextValue := maxContextValue s;
     maxResponseToken := maxResponseToken s; promptPreset := v;
     autoTrigger := autoTrigger s; autoOpen := autoOpen s;
     promptPresets := promptPresets s; impersonateApi := impersonateApi s;
     impersonateProfileId := impersonateProfileId s;
     showUseActionIcon := showUseActionIcon s;
     autoSubmitUseAction := autoSubmitUseAction s;
     messageRole := messageRole s |}.

Definition set_promptPresets (m : gmap jsstring PromptPreset)
    (s : ExtensionSettings) : ExtensionSettings :=
  {| version := version s; formatVersion := formatVersion s;
     profileId := profileId s; maxContextType := maxContextType s;
     maxContextValue := maxContextValue s;
     maxResponseToken := maxResponseToken s; promptPreset := promptPreset s;
     autoTrigger := autoTrigger s; autoOpen := autoOpen s;
     promptPresets := m; impersonateApi := impersonateApi s;
     impersonateProfileId := impersonateProfileId s;
     showUseActionIcon := showUseActionIcon s;
     autoSubmitUseAction := autoSubmitUseAction s;
     messageRole := messageRole s |}.

(** *** The callbacks handed to [buildPresetSelect] (lines 122-159)

    The widget itself, which decides when each callback fires, belongs to
    the host library.  Persisting the settings and refreshing the form fields
    leave the settings object as it is and are not modelled. *)

(** [onSelectChange]: [newValue ?? 'default'] becomes the selected preset. *)
Definition onSelectChange (_previousValue newValue : option jsstring)
    (settings : ExtensionSettings) : ExtensionSettings :=
  let newPresetValue := default (js "default") newValue in
  set_promptPreset newPresetValue settings.

(** [create.onAfterCreate]: the new key receives a copy of the selected
    preset, field by field, with the defaults where one is missing. *)
Definition onAfterCreate (value : jsstring) (settings : ExtensionSettings)
    : ExtensionSettings :=
  let currentPreset := promptPresets settings !! promptPreset settings in
  set_promptPresets
    (<[ value := {|
          content := default DEFAULT_PROMPT (content <$> currentPreset);
          extractionStrategy :=
            default bullet (extractionStrategy <$> currentPreset);
          impersonate :=
            Some (default DEFAULT_IMPERSONATE (currentPreset ≫= impersonate))
        |} ]> (promptPresets settings))
    settings.

(** [rename.onAfterRename]: assign the old value to the new key, then delete
    the old key. *)
Definition onAfterRename (previousValue newValue : jsstring)
    (settings : ExtensionSettings) : ExtensionSettings :=
  let assigned :=
    match promptPresets settings !! previousValue with
    | Some preset => <[ newValue := preset ]> (promptPresets settings)
    | None => delete newValue (promptPresets settings)
    end in
  set_promptPresets (delete previousValue assigned) settings.


(** *** The preset widget

    The callbacks above are fired by [buildPresetSelect], a widget of the
    host library whose code is not part of the source.  Lines 122-125 hand
    it the selected name, the list of names [Object.keys(promptPresets)] and
    the read-only name. *)





(** ** Chat messages and the rendered annotation *)

(** One row of the options list: the use button is displayed or hidden, the
    impersonate and edit buttons are always there. *)
Record OptionRow : Type := {
  use_display : bool;
  option_content : jsstring
}.

Inductive DetailsBody : Type :=
| OptionsDiv (rows : list OptionRow)   (* div.roadway_options *)
| PreBlock (text : jsstring).          (* pre.roadway_pre *)

(** The details element built by [formatResponse]. *)
Record Details : Type := {
  classPrefix : string;
  summary : string;
  body : DetailsBody
}.

Inductive MesText : Type :=
| PlainText (text : jsstring)
| Markup (html : Details).

(** The [extra] object of a chat message, with the three keys of
    [KEYS.EXTRA].  The stored options are a JavaScript array: an entry is a
    string, or undefined where an assignment past the end left a hole. *)
Record ChatExtra : Type := {
  isSmallSys : bool;
  roadway_target_chat : option Z;
  roadway_raw_content : option jsstring;
  roadway_options : option (list (option jsstring))
}.

Record ChatMessage : Type := {
  mes : MesText;
  name : jsstring;
  force_avatar : option jsstring;
  is_system : bool;
  is_user : bool;
  extra : option ChatExtra
}.

(** [formatResponse] (lines 468-527); [settings] is what
    [settingsManager.getSettings()] returns inside the loop. *)
Definition formatResponse (settings : ExtensionSettings) (response : jsstring)
    (options : option (list jsstring)) (prefix : string) : Details :=
  {| classPrefix := prefix;
     summary := "Roadway";
     body :=
       match options with
       | Some (o :: os) =>
           OptionsDiv
             (map (fun option =>
                     {| use_display := showUseActionIcon settings;
                        option_content := option |})
                  (o :: os))
       | _ => PreBlock response
       end |}.

(** ** The shared state and the host *)

(** What the host supplies: the constants of a system message and macro
    substitution, whose argument is a template or undefined. *)
Record Host : Type := {
  systemUserName : jsstring;
  system_avatar : jsstring;
  substituteParams : option jsstring -> jsstring
}.

(** The mutable state the functions of [index.ts] share: the settings object,
    [context.chat], the set [pendingRequests] and the [spinning] class of the
    two roadway buttons. *)
Record World : Type := {
  host : Host;
  settings : ExtensionSettings;
  chat : list ChatMessage;
  pendingRequests : gset Z;
  spinning : bool
}.

Definition set_chat (c : list ChatMessage) (w : World) : World :=
  {| host := host w; settings := settings w; chat := c;
     pendingRequests := pendingRequests w; spinning := spinning w |}.

Definition set_pendingRequests (p : gset Z) (w : World) : World :=
  {| host := host w; settings := settings w; chat := chat w;
     pendingRequests := p; spinning := spinning w |}.

Definition set_spinning (b : bool) (w : World) : World :=
  {| host := host w; settings := settings w; chat := chat w;
     pendingRequests := pendingRequests w; spinning := b |}.

Definition set_settings (s : ExtensionSettings) (w : World) : World :=
  {| host := host w; settings := s; chat := chat w;
     pendingRequests := pendingRequests w; spinning := spinning w |}.

Inductive EchoLevel : Type := echo_error | echo_warning | echo_info.

Inductive MaxContext : Type :=
| max_tokens (n : Z)
| max_preset
| max_active.

Record PromptMessage : Type := {
  pm_content : jsstring;
  pm_role : MessageRole
}.

(** The calls that leave the module: host services, the console and the
    DOM.  Of the arguments of [buildPrompt] only the message bound and the
    context policy are kept; the others are copied from the connection
    profile and the host and decide nothing here. *)
Inductive HostCall : Type :=
| st_echo (level : EchoLevel) (message : string)
| buildPrompt (messageIndexesBetween_end : Z) (maxContext : MaxContext)
| sendRequest (profile : jsstring) (messages : list PromptMessage)
              (maxTokens : Z)
| saveChat
| console_error (error : string)
| addOneMessage (message : ChatMessage) (insertAfter : Z)
| mesTextHtml (mesid : Z) (html : Details)
| detailsOpen (mesid : Z)
| attachRoadwayOptionHandlers (roadwayMessageId : Z)
| contentDivText (roadwayMessageId : Z) (index : Z) (text : jsstring).

(** What a host promise settles with. *)
Inductive HostValue : Type :=
| VUndefined
| VPrompt (result : list PromptMessage)
| VData (content : jsstring).

Inductive outcome : Type :=
| Fulfilled (v : HostValue)
| Rejected (error : string).

(** ** Asynchronous functions

    An async function is a tree of synchronous steps on the shared state,
    calls, and awaits; at an await the function is suspended until the host
    settles the promise, and other handlers may run in between. *)
Inductive async (A : Type) : Type :=
| Ret (a : A)
| Throw (error : string)
| Get (k : World -> async A)
| Put (w : World) (k : async A)
| Call (c : HostCall) (k : async A)
| Await (c : HostCall) (k : outcome -> async A).

Arguments Ret {A} a.
Arguments Throw {A} error.
Arguments Get {A} k.
Arguments Put {A} w k.
Arguments Call {A} c k.
Arguments Await {A} c k.

Fixpoint bind {A B : Type} (m : async A) (f : A -> async B) : async B :=
  match m with
  | Ret a => f a
  | Throw e => Throw e
  | Get k => Get (fun w => bind (k w) f)
  | Put w k => Put w (bind k f)
  | Call c k => Call c (bind k f)
  | Await c k => Await c (fun o => bind (k o) f)
  end.

Notation "x <- m ;; k" := (bind m (fun x => k))
  (at level 100, m at next level, right associativity).
Notation "m ;;; k" := (bind m (fun _ => k))
  (at level 100, right associativity).

Definition get : async World := Get (fun w => Ret w).
Definition modify (f : World -> World) : async unit :=
  Get (fun w => Put (f w) (Ret tt)).
Definition call (c : HostCall) : async unit := Call c (Ret tt).

(** [await c]: a rejection is thrown where the function resumes. *)
Definition await (c : HostCall) : async HostValue :=
  Await c (fun o =>
    match o with
    | Fulfilled v => Ret v
    | Rejected e => Throw e
    end).

(** [try { m } catch (error) { h error }]. *)
Fixpoint try_catch {A : Type} (m : async A) (h : string -> async A)
    : async A :=
  match m with
  | Ret a => Ret a
  | Throw e => h e
  | Get k => Get (fun w => try_catch (k w) h)
  | Put w k => Put w (try_catch k h)
  | Call c k => Call c (try_catch k h)
  | Await c k => Await c (fun o => try_catch (k o) h)
  end.

(** [try { m } finally { fin }]: the block runs on every way out of [m], a
    return and a throw alike, and the way out is then resumed. *)
Fixpoint try_finally {A : Type} (m : async A) (fin : async unit) : async A :=
  match m with
  | Ret a => fin ;;; Ret a
  | Throw e => fin ;;; Throw e
  | Get k => Get (fun w => try_finally (k w) fin)
  | Put w k => Put w (try_finally k fin)
  | Call c k => Call c (try_finally k fin)
  | Await c k => Await c (fun o => try_finally (k o) fin)
  end.

(** How a synchronous run of an async function stops. *)
Inductive status (A : Type) : Type :=
| Returned (a : A)
| Thrown (error : string)
| Suspended (c : HostCall) (k : outcome -> async A).

Arguments Returned {A} a.
Arguments Thrown {A} error.
Arguments Suspended {A} c k.

(** Run up to the next await (or to the end): the state reached, the calls
    made on the way, the awaited call last, and how the run stopped. *)
Fixpoint run {A : Type} (m : async A) (w : World)
    : World * list HostCall * status A :=
  match m with
  | Ret a => (w, [], Returned a)
  | Throw e => (w, [], Thrown e)
  | Get k => run (k w) w
  | Put w' k => run k w'
  | Call c k => let '(w', cs, st) := run k w in (w', c :: cs, st)
  | Await c k => (w, [c], Suspended c k)
  end.

(** ** The generation flow: [generateRoadway] (lines 331-446) *)

Definition msgNoProfile : string :=
  "Please select a connection profile first in the settings.".
Definition msgNoPreset : string :=
  "Please enter a prompt first in the settings.".
Definition msgInProgress : string :=
  "A request for this message is already in progress. Please wait.".
Definition msgNoBullets : string :=
  "Could not extract any bullet points from the response. Using original response.".

(** The error raised by reading a property of undefined. *)
Definition TypeError : string := "TypeError".

(** The decimal digits of a number, for the template [index + 1]. *)
Fixpoint digits (fuel : nat) (n : N) : jsstring :=
  match fuel with
  | O => []
  | S fuel' =>
      (if (n <? 10)%N then [] else digits fuel' (n / 10)%N)
        ++ [(48 + n mod 10)%N]
  end.

Definition decimal (n : N) : jsstring := digits (S (N.size_nat n)) n.

(** [chat.find((_mes, index) => index === i)]. *)
Definition chatAt (c : list ChatMessage) (i : Z) : option ChatMessage :=
  if (i <? 0)%Z then None else c !! Z.to_nat i.

(** [mes.extra?.[KEYS.EXTRA.TARGET] === targetMessageId]. *)
Definition isRoadwayFor (targetMessageId : Z) (m : ChatMessage) : bool :=
  match extra m ≫= roadway_target_chat with
  | Some t => (t =? targetMessageId)%Z
  | None => false
  end.

(** The index [chat.find] stops at. *)
Fixpoint findIndex {A : Type} (p : A -> bool) (l : list A) : option nat :=
  match l with
  | [] => None
  | x :: l' => if p x then Some O else S <$> findIndex p l'
  end.

Definition maxContextOf (s : ExtensionSettings) : MaxContext :=
  match maxContextType s with
  | ctx_custom => max_tokens (maxContextValue s)
  | ctx_profile => max_preset
  | ctx_sampler => max_active
  end.

(** The numbered display text of line 402. *)
Definition numbered (actions : list jsstring) : jsstring :=
  join nl (imap (fun index action =>
                   decimal (N.of_nat index + 1) ++ js ". " ++ action)
                actions).

(** The message literal of lines 406-418. *)
Definition freshMessage (w : World) (targetMessageId : Z) (html : Details)
    (innerText : jsstring) (actions : list jsstring) : ChatMessage :=
  {| mes := Markup html;
     name := systemUserName (host w);
     force_avatar := Some (system_avatar (host w));
     is_system := true;
     is_user := false;
     extra := Some {| isSmallSys := true;
                      roadway_target_chat := Some targetMessageId;
                      roadway_raw_content := Some innerText;
                      roadway_options := Some (map Some actions) |} |}.

(** The three assignments of lines 421-423 on the message found. *)
Definition updateMessage (html : Details) (rest_content : jsstring)
    (actions : list jsstring) (m : ChatMessage) : ChatMessage :=
  {| mes := Markup html;
     name := name m;
     force_avatar := force_avatar m;
     is_system := is_system m;
     is_user := is_user m;
     extra :=
       (fun e => {| isSmallSys := isSmallSys e;
                    roadway_target_chat := roadway_target_chat e;
                    roadway_raw_content := Some rest_content;
                    roadway_options := Some (map Some actions) |})
         <$> extra m |}.

Definition settle (o : outcome) : async HostValue :=
  match o with
  | Fulfilled v => Ret v
  | Rejected e => Throw e
  end.

(** Lines 401-438: the display text, the upsert of the annotation, the DOM
    and the save. *)
Definition gr_upsert (targetMessageId : Z) (rest_content : jsstring)
    (strategy : option ExtractionStrategy) (actions : list jsstring)
    : async unit :=
  w <- get ;;
  let innerText :=
    match actions with
    | [] => rest_content
    | _ => numbered actions
    end in
  let options :=
    match strategy with
    | Some bullet => Some actions
    | _ => None
    end in
  match findIndex (isRoadwayFor targetMessageId) (chat w) with
  | Some i =>
      (* existMessage is the object chat[i]; it is changed in place *)
      modify (set_chat
                (alter (updateMessage
                          (formatResponse (settings w) innerText options "")
                          rest_content actions)
                       i (chat w))) ;;;
      call (mesTextHtml (targetMessageId + 1)
              (formatResponse (settings w) innerText options "custom-"))
  | None =>
      let newMessage :=
        freshMessage w targetMessageId
          (formatResponse (settings w) innerText options "")
          innerText actions in
      modify (set_chat (chat w ++ [newMessage])) ;;;
      call (addOneMessage newMessage targetMessageId)
  end ;;;
  (if autoOpen (settings w)
   then call (detailsOpen (targetMessageId + 1))
   else Ret tt) ;;;
  call (attachRoadwayOptionHandlers (targetMessageId + 1)) ;;;
  _ <- await saveChat ;;
  Ret tt.

(** Lines 392-399, then the upsert. *)
Definition gr_afterSendRequest (targetMessageId : Z) (rest : HostValue)
    : async unit :=
  w <- get ;;
  rest_content <- match rest with
                  | VData c => Ret c
                  | _ => Throw TypeError
                  end ;;
  let strategy :=
    extractionStrategy
      <$> (promptPresets (settings w) !! promptPreset (settings w)) in
  actions <- match strategy with
             | Some bullet =>
                 let actions := extractBulletPoints rest_content in
                 match actions with
                 | [] =>
                     _ <- await (st_echo echo_warning msgNoBullets) ;;
                     Ret actions
                 | _ => Ret actions
                 end
             | _ => Ret []
             end ;;
  gr_upsert targetMessageId rest_content strategy actions.

(** Lines 381-390, then the rest. *)
Definition gr_afterBuildPrompt (targetMessageId : Z) (promptResult : HostValue)
    : async unit :=
  w <- get ;;
  messages <- match promptResult with
              | VPrompt result => Ret result
              | _ => Throw TypeError
              end ;;
  template <- match promptPresets (settings w) !! promptPreset (settings w) with
              | Some preset => Ret (Some (content preset))
              | None =>
                  if bool_decide (promptPreset (settings w)
                                  ∈ objectPrototypeNames)
                  then Ret None          (* the content of an inherited member *)
                  else Throw TypeError   (* a property of undefined *)
              end ;;
  let messages' :=
    messages ++ [{| pm_content := substituteParams (host w) template;
                    pm_role := messageRole (settings w) |}] in
  rest <- await (sendRequest (profileId (settings w)) messages'
                             (maxResponseToken (settings w))) ;;
  gr_afterSendRequest targetMessageId rest.

(** Lines 356-438: the body of the try block. *)
Definition gr_try (targetMessageId : Z) : async unit :=
  w <- get ;;
  if bool_decide (targetMessageId ∈ pendingRequests w) then
    _ <- await (st_echo echo_warning msgInProgress) ;;
    Ret tt
  else
    modify (fun w =>
              set_pendingRequests ({[targetMessageId]} ∪ pendingRequests w) w) ;;;
    modify (set_spinning true) ;;;
    promptResult <- await (buildPrompt targetMessageId
                                       (maxContextOf (settings w))) ;;
    gr_afterBuildPrompt targetMessageId promptResult.

(** Lines 439-441: the catch block. *)
Definition gr_catch (error : string) : async unit :=
  call (console_error error) ;;;
  _ <- await (st_echo echo_error (String.append "Error: " error)) ;;
  Ret tt.

(** Lines 442-445: the finally block. *)
Definition gr_finally (targetMessageId : Z) : async unit :=
  modify (fun w =>
            set_pendingRequests (pendingRequests w ∖ {[targetMessageId]}) w) ;;;
  modify (set_spinning false).

(** The try statement of lines 355-445 around a piece of its body. *)
Definition gr_guarded (targetMessageId : Z) (body : async unit) : async unit :=
  try_finally (try_catch body gr_catch) (gr_finally targetMessageId).

Definition generateRoadway (targetMessageId : Z) : async unit :=
  w <- get ;;
  match profileId (settings w) with
  | [] =>
      _ <- await (st_echo echo_error msgNoProfile) ;;
      Ret tt
  | _ =>
      match promptPreset (settings w) with
      | [] =>
          _ <- await (st_echo echo_error msgNoPreset) ;;
          Ret tt
      | _ =>
          match chatAt (chat w) targetMessageId with
          | None => Ret tt
          | Some targetMessage =>
              gr_guarded targetMessageId (gr_try targetMessageId)
          end
      end
  end.

(** ** The event loop *)

(** The page: the shared state, every call made so far, and the async
    functions started so far, each suspended at an await or finished. *)
Record Page : Type := {
  world : World;
  calls : list HostCall;
  flows : list (option (outcome -> async unit))
}.

Definition suspension {A : Type} (st : status A)
    : option (outcome -> async A) :=
  match st with
  | Suspended _ k => Some k
  | _ => None
  end.

(** A handler starts an async function. *)
Definition start (m : async unit) (p : Page) : Page :=
  let '(w, cs, st) := run m (world p) in
  {| world := w; calls := calls p ++ cs; flows := flows p ++ [suspension st] |}.

(** The host settles the promise that flow [i] awaits. *)
Definition settled (i : nat) (o : outcome) (p : Page) : Page :=
  match flows p !! i with
  | Some (Some k) =>
      let '(w, cs, st) := run (k o) (world p) in
      {| world := w; calls := calls p ++ cs;
         flows := <[ i := suspension st ]> (flows p) |}
  | _ => p
  end.

(** A click on a roadway button (lines 448-452). *)
Definition click (targetMessageId : Z) : Page -> Page :=
  start (generateRoadway targetMessageId).

(** ** The edit handler (lines 710-751) *)

(** [array[index] = v]: an index inside the array replaces the entry, an
    index past the end extends the array and leaves holes, a negative index
    names a property and changes no entry. *)
Definition arraySet {A : Type} (l : list (option A)) (index : Z) (v : A)
    : list (option A) :=
  if (index <? 0)%Z then l
  else
    let i := Z.to_nat index in
    if (i <? length l)%nat then <[ i := Some v ]> l
    else l ++ replicate (i - length l) None ++ [Some v].

Definition set_options (o : list (option jsstring)) (m : ChatMessage)
    : ChatMessage :=
  {| mes := mes m;
     name := name m;
     force_avatar := force_avatar m;
     is_system := is_system m;
     is_user := is_user m;
     extra :=
       (fun e => {| isSmallSys := isSmallSys e;
                    roadway_target_chat := roadway_target_chat e;
                    roadway_raw_content := roadway_raw_content e;
                    roadway_options := Some o |})
         <$> extra m |}.

(** The blur handler (lines 731-742).  [index] is the position of the edited
    row among the rows of the container, -1 when it is no longer among them;
    [newText] is the value of the textarea. *)
Definition onBlur (roadwayMessageId index : Z) (newText : jsstring)
    : async unit :=
  call (contentDivText roadwayMessageId index newText) ;;;
  w <- get ;;
  match chatAt (chat w) roadwayMessageId with
  | Some message =>
      match extra message ≫= roadway_options with
      | Some options =>
          modify (set_chat
                    (<[ Z.to_nat roadwayMessageId :=
                          set_options (arraySet options index newText) message ]>
                       (chat w))) ;;;
          call saveChat
      | None => Ret tt
      end
  | None => Ret tt
  end.

Record KeyboardEvent : Type := {
  key : string;
  shiftKey : bool
}.

(** The keydown handler (lines 745-750): whether it called
    [preventDefault]. *)
Definition onKeydown (blur : async unit) (e : KeyboardEvent) : async bool :=
  if String.eqb (key e) "Enter" && negb (shiftKey e)
  then blur ;;; Ret true
  else Ret false.

(** A textarea: its value around the caret. *)
Record Textarea : Type := {
  beforeCaret : jsstring;
  afterCaret : jsstring
}.

(** [input.val()]. *)
Definition val (t : Textarea) : jsstring := beforeCaret t ++ afterCaret t.

(** A key press in the textarea of row [index].  The handler of lines
    745-750 inserts nothing itself: a key whose default action it did not
    prevent is left to the browser, whose default action is the parameter
    [defaultAction]. *)
Definition keydown (defaultAction : KeyboardEvent -> Textarea -> Textarea)
    (roadwayMessageId index : Z) (e : KeyboardEvent) (t : Textarea)
    : async Textarea :=
  prevented <- onKeydown (onBlur roadwayMessageId index (val t)) e ;;
  Ret (if prevented : bool then t else defaultAction e t).

(** ** The extractor in the words of the specification

    A second description of what [extractBulletPoints] computes, written
    from the specification and compared with the patterns further down. *)

(** Two code units that are the same ASCII letter in either case, or the
    same code unit. *)
Definition sameLetter (a b : char) : bool :=
  let upper c := if (97 <=? c)%N && (c <=? 122)%N then (c - 32)%N else c in
  (upper a =? upper b)%N.

(** The text after delimiter [d] when [s] begins with it, in any letter
    case. *)
Fixpoint afterDelimiter (d s : jsstring) : option jsstring :=
  match d, s with
  | [], _ => Some s
  | x :: d', y :: s' => if sameLetter x y then afterDelimiter d' s' else None
  | _ :: _, [] => None
  end.

Definition openingDelimiter : jsstring := js "<think>".
Definition closingDelimiter : jsstring := js "</think>".

(** The text after the nearest closing delimiter. *)
Fixpoint afterClosing (s : jsstring) : option jsstring :=
  match afterDelimiter closingDelimiter s with
  | Some rest => Some rest
  | None =>
      match s with
      | _ :: s' => afterClosing s'
      | [] => None
      end
  end.

(** The text after a reasoning block that begins right here. *)
Definition afterBlock (s : jsstring) : option jsstring :=
  afterDelimiter openingDelimiter s ≫= afterClosing.

(** Every reasoning block removed: from each opening delimiter that has a
    closing one after it, up to the nearest such closing delimiter.  The
    fuel bounds the number of code units looked at. *)
Fixpoint removeReasoning (fuel : nat) (s : jsstring) : jsstring :=
  match fuel with
  | O => s
  | S fuel' =>
      match s with
      | [] => []
      | c :: s' =>
          match afterBlock s with
          | Some rest => removeReasoning fuel' rest
          | None => c :: removeReasoning fuel' s'
          end
      end
  end.

Definition withoutReasoning (s : jsstring) : jsstring :=
  removeReasoning (length s) s.

(** The text after a leading marker and the white space behind it: (a) an
    integer, a period, and then white space or directly more text; (b) a
    hyphen and white space. *)
Definition afterMarker (s : jsstring) : option jsstring :=
  match s with
  | c :: s1 =>
      if isDigit c then
        match dropWhile isDigit s1 with
        | d :: s2 =>
            if (d =? 46)%N then
              match s2 with
              | [] => None
              | _ => Some (dropWhile isSpace s2)
              end
            else None
        | [] => None
        end
      else if (c =? 45)%N then
        match s1 with
        | x :: _ => if isSpace x then Some (dropWhile isSpace s1) else None
        | [] => None
        end
      else None
  | [] => None
  end.

(** The text from each line start after the first code unit on. *)
Fixpoint laterLines (s : jsstring) : list jsstring :=
  match s with
  | c :: s' => (if isLineTerminator c then [s'] else []) ++ laterLines s'
  | [] => []
  end.

(** The text from each line start on, the start of the text included. *)
Definition lineStarts (s : jsstring) : list jsstring := s :: laterLines s.

(** The second stage of the extractor on a text already cleaned. *)
Definition markedLines (cleanedText : jsstring) : list jsstring :=
  let matches := default [] (String_match_g fl_bullet re_bullet cleanedText) in
  map (fun line => trim (String_replace fl_prefix re_prefix [] line)) matches.

(** The class of the dot. *)
Definition notLineTerminator (c : char) : bool := negb (isLineTerminator c).

(** Whether delimiter [d] occurs somewhere in [s], in any letter case. *)
Fixpoint hasDelimiter (d s : jsstring) : bool :=
  match afterDelimiter d s with
  | Some _ => true
  | None =>
      match s with
      | _ :: s' => hasDelimiter d s'
      | [] => false
      end
  end.

(** An action text that the numbered display can carry: not empty, on a
    single line, without white space at either end, and without a
    reasoning-block delimiter. *)
Definition plainAction (a : jsstring) : Prop :=
  a <> [] /\ forallb notLineTerminator a = true /\ trim a = a
  /\ hasDelimiter openingDelimiter a = false
  /\ hasDelimiter closingDelimiter a = false.

(** The line starts the scan still has to visit from a position. *)
Definition startsFrom (prev : option char) (s : jsstring) : list jsstring :=
  (if atLineStart fl_bullet prev then [s] else []) ++ laterLines s.

(** A rendered line: digits, a period, a space and the action. *)
Definition rendered (line a : jsstring) : Prop :=
  exists ds, line = ds ++ js ". " ++ a
             /\ ds <> [] /\ forallb isDigit ds = true.

(** A code unit that is no letter of the delimiter. *)
Definition foreignTo (d : jsstring) (t : jsstring) : Prop :=
  match t with
  | [] => True
  | h :: _ => forallb (fun e => negb (sameLetter e h)) d = true
  end.

(** The lines of a text, cut at every line terminator. *)
Fixpoint linesOf (s : jsstring) : list jsstring :=
  match s with
  | [] => [[]]
  | c :: s' =>
      if isLineTerminator c then [] :: linesOf s'
      else
        match linesOf s' with
        | l :: ls => (c :: l) :: ls
        | [] => [[c]]
        end
  end.

(** The extractor read line by line: of the lines of the cleaned text, those
    that begin with a marker, each without its marker and trimmed. *)
Definition extractByLine (text : jsstring) : list jsstring :=
  omap (fun line => trim <$> afterMarker line) (linesOf (withoutReasoning text)).

(** A line that is a marker and nothing but white space after it. *)
Definition blankMarker (l : jsstring) : bool :=
  match l with
  | c :: s1 =>
      if isDigit c then
        match dropWhile isDigit s1 with
        | d :: s2 => (d =? 46)%N && forallb isSpace s2
        | [] => false
        end
      else (c =? 45)%N && forallb isSpace s1
  | [] => false
  end.

(** No line but the last is a marker with an empty body. *)
Definition bodiesOnTheirLines (s : jsstring) : Prop :=
  Forall (fun l => blankMarker l = false) (removelast (linesOf s)).

(** What the extractor does with a matched line. *)
Definition stripMarker (line : jsstring) : jsstring :=
  trim (String_replace fl_prefix re_prefix [] line).

(** The example of the specification. *)
Definition specExample : jsstring :=
  js "1. Do X" ++ nl ++ js "2. Do Y" ++ nl ++ js "- Do Z" ++ nl ++ js "Plain line".

(** A hyphen alone on its line, then a line without a marker. *)
Definition bareMarkerText : jsstring := js "-" ++ nl ++ js "Plain line".

(** ** Whole runs of an async function *)

(** What can be seen of a run from outside: the calls it makes and what the
    host settles its awaits with. *)
Inductive event : Type :=
| Called (c : HostCall)
| Settled (o : outcome).

(** [exec m w tr w' st]: started in state [w], the function can run to its
    end with trace [tr], leaving state [w'] and finishing as [st].  While it
    is suspended at an await anything may happen to the shared state: it
    resumes in a state [w2] that need not be the one it left. *)
Inductive exec {A : Type}
    : async A -> World -> list event -> World -> status A -> Prop :=
| exec_Ret a w : exec (Ret a) w [] w (Returned a)
| exec_Throw e w : exec (Throw e) w [] w (Thrown e)
| exec_Get k w tr w' st :
    exec (k w) w tr w' st -> exec (Get k) w tr w' st
| exec_Put w0 m w tr w' st :
    exec m w0 tr w' st -> exec (Put w0 m) w tr w' st
| exec_Call c m w tr w' st :
    exec m w tr w' st -> exec (Call c m) w (Called c :: tr) w' st
| exec_Await c k o w w2 tr w' st :
    exec (k o) w2 tr w' st ->
    exec (Await c k) w (Called c :: Settled o :: tr) w' st.

(** Every await of the function throws the rejection it resumes with, as
    [await] does. *)
Inductive rethrows {A : Type} : async A -> Prop :=
| rethrows_Ret a : rethrows (Ret a)
| rethrows_Throw e : rethrows (Throw e)
| rethrows_Get k : (forall w, rethrows (k w)) -> rethrows (Get k)
| rethrows_Put w m : rethrows m -> rethrows (Put w m)
| rethrows_Call c m : rethrows m -> rethrows (Call c m)
| rethrows_Await c k :
    (forall e, k (Rejected e) = Throw e) ->
    (forall v, rethrows (k (Fulfilled v))) ->
    rethrows (Await c k).

(** [within n m]: no run of [m] passes more than [n] awaits. *)
Inductive within {A : Type} : nat -> async A -> Prop :=
| within_Ret n a : within n (Ret a)
| within_Throw n e : within n (Throw e)
| within_Get n k : (forall w, within n (k w)) -> within n (Get k)
| within_Put n w m : within n m -> within n (Put w m)
| within_Call n c m : within n m -> within n (Call c m)
| within_Await n c k : (forall o, within n (k o)) -> within (S n) (Await c k).

(** A run with nothing else going on and a host that answers each awaited
    call by [reply], for at most [fuel] awaits. *)
Fixpoint complete {A : Type} (fuel : nat) (reply : HostCall -> outcome)
    (m : async A) (w : World) : World * list HostCall * status A :=
  match run m w with
  | (w', cs, Suspended c k) =>
      match fuel with
      | O => (w', cs, Suspended c k)
      | S fuel' =>
          let '(w'', cs', st) := complete fuel' reply (k (reply c)) w' in
          (w'', cs ++ cs', st)
      end
  | r => r
  end.

(** A host that serves a generation: it builds a prompt, answers the request
    with [content], shows every notice and saves the chat. *)
Definition serves (reply : HostCall -> outcome) (content : jsstring) : Prop :=
  (forall e mc, exists result, reply (buildPrompt e mc) = Fulfilled (VPrompt result))
  /\ (forall p ms t, reply (sendRequest p ms t) = Fulfilled (VData content))
  /\ (forall l m, exists v, reply (st_echo l m) = Fulfilled v)
  /\ (exists v, reply saveChat = Fulfilled v).

(** The cleanup of the finally block. *)
Definition cleanup (targetMessageId : Z) (w : World) : World :=
  set_spinning false
    (set_pendingRequests (pendingRequests w ∖ {[targetMessageId]}) w).

(** ** A sample page *)

Definition sampleHost : Host :=
  {| systemUserName := js "System";
     system_avatar := js "system.png";
     substituteParams := default [] |}.

(** The default settings with a connection profile selected. *)
Definition sampleSettings : ExtensionSettings :=
  {| version := VERSION; formatVersion := FORMAT_VERSION;
     profileId := js "profile-1"; maxContextType := ctx_profile;
     maxContextValue := 16384; maxResponseToken := 500;
     promptPreset := js "default"; autoTrigger := false; autoOpen := true;
     promptPresets := promptPresets DEFAULT_SETTINGS;
     impersonateApi := api_main; impersonateProfileId := [];
     showUseActionIcon := true; autoSubmitUseAction := false;
     messageRole := role_system |}.

Definition userMessage (text : jsstring) : ChatMessage :=
  {| mes := PlainText text; name := js "User"; force_avatar := None;
     is_system := false; is_user := true; extra := None |}.

(** A chat of one message, nothing in flight. *)
Definition sampleWorld : World :=
  {| host := sampleHost; settings := sampleSettings;
     chat := [userMessage (js "Hello")];
     pendingRequests := ∅; spinning := false |}.

Definition samplePage : Page :=
  {| world := sampleWorld; calls := []; flows := [] |}.

(** ** One generation, summed up *)

(** The state once a request for the message is in flight. *)
Definition started (targetMessageId : Z) (w : World) : World :=
  set_spinning true
    (set_pendingRequests ({[targetMessageId]} ∪ pendingRequests w) w).

(** The strategy of the selected preset, undefined when the preset is
    missing. *)
Definition selectedStrategy (w : World) : option ExtractionStrategy :=
  extractionStrategy
    <$> (promptPresets (settings w) !! promptPreset (settings w)).

(** The list [actions] of lines 392-399. *)
Definition actionsOf (strategy : option ExtractionStrategy)
    (rest_content : jsstring) : list jsstring :=
  match strategy with
  | Some bullet => extractBulletPoints rest_content
  | _ => []
  end.

(** The text [innerText] of lines 401-403. *)
Definition innerTextOf (rest_content : jsstring) (actions : list jsstring)
    : jsstring :=
  match actions with
  | [] => rest_content
  | _ => numbered actions
  end.

(** The second argument of the calls of [formatResponse]. *)
Definition shownOptions (strategy : option ExtractionStrategy)
    (actions : list jsstring) : option (list jsstring) :=
  match strategy with
  | Some bullet => Some actions
  | _ => None
  end.

(** The chat after lines 405-431. *)
Definition upsertedChat (w : World) (targetMessageId : Z)
    (rest_content : jsstring) (strategy : option ExtractionStrategy)
    (actions : list jsstring) : list ChatMessage :=
  let html :=
    formatResponse (settings w) (innerTextOf rest_content actions)
                   (shownOptions strategy actions) "" in
  match findIndex (isRoadwayFor targetMessageId) (chat w) with
  | Some i => alter (updateMessage html rest_content actions) i (chat w)
  | None =>
      chat w ++ [freshMessage w targetMessageId html
                              (innerTextOf rest_content actions) actions]
  end.

(** The calls of lines 405-438. *)
Definition upsertCalls (w : World) (targetMessageId : Z)
    (rest_content : jsstring) (strategy : option ExtractionStrategy)
    (actions : list jsstring) : list HostCall :=
  let innerText := innerTextOf rest_content actions in
  let options := shownOptions strategy actions in
  match findIndex (isRoadwayFor targetMessageId) (chat w) with
  | Some _ =>
      [mesTextHtml (targetMessageId + 1)
         (formatResponse (settings w) innerText options "custom-")]
  | None =>
      [addOneMessage
         (freshMessage w targetMessageId
            (formatResponse (settings w) innerText options "")
            innerText actions)
         targetMessageId]
  end
  ++ (if autoOpen (settings w) then [detailsOpen (targetMessageId + 1)] else [])
  ++ [attachRoadwayOptionHandlers (targetMessageId + 1); saveChat].

(** The warning of line 397, when it is shown. *)
Definition warningCalls (strategy : option ExtractionStrategy)
    (actions : list jsstring) : list HostCall :=
  match strategy, actions with
  | Some bullet, [] => [st_echo echo_warning msgNoBullets]
  | _, _ => []
  end.

Definition isNotice (c : HostCall) : bool :=
  match c with
  | st_echo _ _ => true
  | _ => false
  end.

Definition isSendRequest (c : HostCall) : bool :=
  match c with
  | sendRequest _ _ _ => true
  | _ => false
  end.

(** Whether flow [i] of the page is still suspended at an await. *)
Definition unresolved (i : nat) (p : Page) : bool :=
  match flows p !! i with
  | Some (Some _) => true
  | _ => false
  end.

(** A host that builds an empty prompt, answers the request with [text] and
    lets every other call succeed. *)
Definition sampleReply (text : jsstring) (c : HostCall) : outcome :=
  match c with
  | buildPrompt _ _ => Fulfilled (VPrompt [])
  | sendRequest _ _ _ => Fulfilled (VData text)
  | _ => Fulfilled VUndefined
  end.

(** The stored raw content of message [i]. *)
Definition rawContentAt (i : nat) (w : World) : option jsstring :=
  match chat w !! i with
  | Some m => extra m ≫= roadway_raw_content
  | None => None
  end.

(** The stored options of message [i]. *)
Definition optionsAt (i : nat) (w : World) : option (list (option jsstring)) :=
  match chat w !! i with
  | Some m => extra m ≫= roadway_options
  | None => None
  end.

(** What the annotation stored as message [i] shows under its summary. *)
Definition shownAt (i : nat) (w : World) : option DetailsBody :=
  match chat w !! i with
  | Some m =>
      match mes m with
      | Markup html => Some (body html)
      | PlainText _ => None
      end
  | None => None
  end.

(** A reply of the model with a preamble and one numbered action. *)
Definition sampleText : jsstring := js "Sure!" ++ nl ++ js "1. Do X".

(** The sample state after one generation served with [sampleText]: the
    chat now ends with the annotation of message 0. *)
Definition annotatedWorld : World :=
  (complete 4 (sampleReply sampleText) (generateRoadway 0) sampleWorld).1.1.

(** A text in which the removal of one block joins the two halves of an
    opening delimiter. *)
Definition joinedDelimiter : jsstring :=
  js "<th<think>a</think>ink>" ++ nl ++ js "1. hidden" ++ nl
  ++ js "</think>" ++ nl ++ js "2. shown".

(** A reply with three numbered actions, and the sample state after one
    generation served with it: the annotation of message 0 stores the three
    actions. *)
Definition threeActions : jsstring :=
  js "1. Look" ++ nl ++ js "2. Wait" ++ nl ++ js "3. Leave".

Definition threeOptionsWorld : World :=
  (complete 4 (sampleReply threeActions) (generateRoadway 0) sampleWorld).1.1.

(** The selected preset name is a key of the preset mapping. *)
Definition resolves (s : ExtensionSettings) : Prop :=
  is_Some (promptPresets s !! promptPreset s).

(** Settings with a second preset, which is the selected one. *)
Definition twoPresets : ExtensionSettings :=
  set_promptPreset (js "mine") (onAfterCreate (js "mine") sampleSettings).

(** ** The input-area button (lines 454-466) and the reload of a chat
    (lines 756-767) *)

(** The message a click on the input-area button generates for: the last
    message, or the target of the last message when that is an annotation;
    none on an empty chat. *)
Definition inputAreaTarget (c : list ChatMessage) : option Z :=
  match c with
  | [] => None
  | _ =>
      let targetMessageId := (Z.of_nat (length c) - 1)%Z in
      match chatAt c targetMessageId with
      | Some lastMessage =>
          match extra lastMessage ≫= roadway_target_chat with
          | Some target => Some target
          | None => Some targetMessageId
          end
      | None => None
      end
  end.

Definition inputAreaClick : async unit :=
  w <- get ;;
  match inputAreaTarget (chat w) with
  | Some targetMessageId => generateRoadway targetMessageId
  | None => Ret tt
  end.

(** What the handler of CHAT_CHANGED does: it shows or hides the use
    buttons on the page, and attaches the option handlers for the last
    message when that is an annotation. *)
Record ChatChanged : Type := {
  use_actions_shown : bool;
  handlers_attached_for : option Z
}.

Definition onChatChanged (s : ExtensionSettings) (c : list ChatMessage)
    : option ChatChanged :=
  match c with
  | [] => None
  | _ =>
      let last := (Z.of_nat (length c) - 1)%Z in
      Some {| use_actions_shown := showUseActionIcon s;
              handlers_attached_for :=
                match chatAt c last with
                | Some lastMessage =>
                    match extra lastMessage ≫= roadway_target_chat with
                    | Some _ => Some last
                    | None => None
                    end
                | None => None
                end |}
  end.

(** ** Automatic generation (lines 769-798)

    [initializeEvents] keeps the id of the last rendered character message
    and, on two host events, clicks the roadway button of a message; where
    that message is on the page, the click starts [generateRoadway] for
    it. *)

Definition allowed_group_types : list string := ["normal"; "continue"; "swipe"].

Inductive HostEvent : Type :=
| CHARACTER_MESSAGE_RENDERED (messageId : Z) (type : option string)
| GROUP_WRAPPER_FINISHED (type : option string).

(** What a handler reads when its event fires: the settings, and whether a
    group is selected in the host. *)
Record Surroundings : Type := {
  current_settings : ExtensionSettings;
  selected_group : bool
}.

(** [Array.prototype.includes] on the allowed types; an undefined type is
    not among them. *)
Definition includes (l : list string) (type : option string) : bool :=
  match type with
  | Some t => existsb (String.eqb t) l
  | None => false
  end.

(** One event: the new value of [lastRenderedMessageId], and the message
    whose roadway button is clicked, if any. *)
Definition onHostEvent (env : Surroundings) (e : HostEvent)
    (lastRenderedMessageId : Z) : Z * option Z :=
  match e with
  | CHARACTER_MESSAGE_RENDERED messageId type =>
      (messageId,
       if negb (autoTrigger (current_settings env))
          || match type with
             | Some t => String.eqb t "group_chat"
             | None => false
             end
          || selected_group env
       then None
       else Some messageId)
  | GROUP_WRAPPER_FINISHED type =>
      (lastRenderedMessageId,
       if negb (autoTrigger (current_settings env))
          || (lastRenderedMessageId =? -1)%Z
          || negb (includes allowed_group_types type)
       then None
       else Some lastRenderedMessageId)
  end.

(** The buttons clicked over a sequence of events, in order. *)
Fixpoint autoTriggered (lastRenderedMessageId : Z)
    (events : list (Surroundings * HostEvent)) : list Z :=
  match events with
  | [] => []
  | (env, e) :: events' =>
      let '(last, clicked) := onHostEvent env e lastRenderedMessageId in
      match clicked with
      | Some messageId => [messageId]
      | None => []
      end ++ autoTriggered last events'
  end.

(** Whether an event renders message [t]. *)
Definition renders (t : Z) (ev : Surroundings * HostEvent) : bool :=
  match ev.2 with
  | CHARACTER_MESSAGE_RENDERED messageId _ => (messageId =? t)%Z
  | GROUP_WRAPPER_FINISHED _ => false
  end.

(** ** Editing the selected preset (lines 162-188)

    The three form fields write into what the look-up of the selected name
    gives, [settings.promptPresets[settings.promptPreset]].  Where the name
    is a key, the field of that preset is replaced.  Where it is no key but
    a member name of [Object.prototype], the assignment lands on the
    inherited member, which is no part of the settings: the settings object
    stays as it is and is saved.  For any other name the look-up gives
    undefined, the assignment throws a TypeError and nothing is saved: the
    result is [None].  Persisting the settings and showing or hiding the
    impersonate section leave the settings object as it is and are not
    modelled. *)

Definition onPromptChange (template : jsstring) (s : ExtensionSettings)
    : option ExtensionSettings :=
  match promptPresets s !! promptPreset s with
  | Some preset =>
      Some (set_promptPresets
              (<[ promptPreset s :=
                    {| content := template;
                       extractionStrategy := extractionStrategy preset;
                       impersonate := impersonate preset |} ]>
                 (promptPresets s)) s)
  | None =>
      if bool_decide (promptPreset s ∈ objectPrototypeNames)
      then Some s
      else None
  end.

Definition onExtractionStrategyChange (value : ExtractionStrategy)
    (s : ExtensionSettings) : option ExtensionSettings :=
  match promptPresets s !! promptPreset s with
  | Some preset =>
      Some (set_promptPresets
              (<[ promptPreset s :=
                    {| content := content preset;
                       extractionStrategy := value;
                       impersonate := impersonate preset |} ]>
                 (promptPresets s)) s)
  | None =>
      if bool_decide (promptPreset s ∈ objectPrototypeNames)
      then Some s
      else None
  end.

Definition onImpersonateChange (value : jsstring) (s : ExtensionSettings)
    : option ExtensionSettings :=
  match promptPresets s !! promptPreset s with
  | Some preset =>
      Some (set_promptPresets
              (<[ promptPreset s :=
                    {| content := content preset;
                       extractionStrategy := extractionStrategy preset;
                       impersonate := Some value |} ]>
                 (promptPresets s)) s)
  | None =>
      if bool_decide (promptPreset s ∈ objectPrototypeNames)
      then Some s
      else None
  end.

(** ** The impersonate action (lines 548-685)

    The click handler up to the point where it hands over: to the
    impersonate command of the host, or to a request through the
    impersonation profile (the request itself, its streaming and its
    callbacks are the work of the host library). *)

Inductive ImpersonateStep : Type :=
| imp_nothing                                    (* no such message: return *)
| imp_error (message : string)                   (* st_echo('error', message) *)
| imp_command (text : jsstring)                  (* st_runCommandCallback *)
| imp_profile_request (api : string) (text : jsstring).

Definition msgPresetNotFound : string :=
  "Preset not found. Please check the extension settings.".
Definition msgNoImpersonateProfile : string :=
  "Please select an impersonation connection profile in the settings.".
Definition msgNoApi : string :=
  "Please select an API in the connection profile.".

(** [array[index]]: the entry, undefined at a hole and past the end; a
    negative index names a property, of which the list holds none. *)
Definition arrayGet {A : Type} (l : list (option A)) (index : Z) : option A :=
  if (index <? 0)%Z then None
  else
    match l !! Z.to_nat index with
    | Some entry => entry
    | None => None
    end.

(** [substitute template roadwaySelected] stands for the host's
    [substituteParams] with the dynamic macro [roadwaySelected];
    [selectedApi id] for the API selected in connection profile [id], if
    the profile exists and names one.  The preset name is read from
    [context.extensionSettings.roadway], the object the settings manager
    hands out. *)
Definition impersonateClick
    (substitute : jsstring -> option jsstring -> jsstring)
    (selectedApi : jsstring -> option string)
    (roadwayMessageId index : Z) (w : World) : ImpersonateStep :=
  match chatAt (chat w) roadwayMessageId with
  | None => imp_nothing
  | Some message =>
      let preset := promptPresets (settings w) !! promptPreset (settings w) in
      match preset ≫= impersonate with
      | None | Some [] => imp_error msgPresetNotFound
      | Some template =>
          let roadwaySelected :=
            match extra message ≫= roadway_options with
            | Some options => arrayGet options index
            | None => None
            end in
          let impersonate := substitute template roadwaySelected in
          match impersonateApi (settings w) with
          | api_profile =>
              match impersonateProfileId (settings w) with
              | [] => imp_error msgNoImpersonateProfile
              | _ =>
                  match selectedApi (impersonateProfileId (settings w)) with
                  | None => imp_error msgNoApi
                  | Some api => imp_profile_request api impersonate
                  end
              end
          | api_main => imp_command impersonate
          end
      end
  end.

(** ** Counting the calls of a run *)

(** [sparing p n m]: on no path through [m] more than [n] calls satisfy
    [p], whatever state the function resumes in and whatever the host
    settles its awaits with. *)
Inductive sparing {A : Type} (p : HostCall -> bool) : nat -> async A -> Prop :=
| sparing_Ret n a : sparing p n (Ret a)
| sparing_Throw n e : sparing p n (Throw e)
| sparing_Get n k : (forall w, sparing p n (k w)) -> sparing p n (Get k)
| sparing_Put n w m : sparing p n m -> sparing p n (Put w m)
| sparing_Call n c m : p c = false -> sparing p n m -> sparing p n (Call c m)
| sparing_Call_counted n c m : sparing p n m -> sparing p (S n) (Call c m)
| sparing_Await n c k :
    p c = false -> (forall o, sparing p n (k o)) -> sparing p n (Await c k)
| sparing_Await_counted n c k :
    (forall o, sparing p n (k o)) -> sparing p (S n) (Await c k).

(** The calls of a trace that satisfy [p]. *)
Definition callsWith (p : HostCall -> bool) (tr : list event) : list event :=
  List.filter (fun ev => match ev with
                         | Called c => p c
                         | Settled _ => false
                         end) tr.

Definition isBuildPrompt (c : HostCall) : bool :=
  match c with
  | buildPrompt _ _ => true
  | _ => false
  end.

Definition isSaveChat (c : HostCall) : bool :=
  match c with
  | saveChat => true
  | _ => false
  end.

Definition isAddOneMessage (c : HostCall) : bool :=
  match c with
  | addOneMessage _ _ => true
  | _ => false
  end.

(** ** More sample data *)

(** A host that builds an empty prompt and whose connection rejects the
    request with [e]. *)
Definition rejectingReply (e : string) (c : HostCall) : outcome :=
  match c with
  | buildPrompt _ _ => Fulfilled (VPrompt [])
  | sendRequest _ _ _ => Rejected e
  | _ => Fulfilled VUndefined
  end.

(** The sample state with a selected name that is no key: the preset it
    named was moved to another key. *)
Definition danglingWorld : World :=
  set_settings (onAfterRename (js "mine") (js "yours") twoPresets) sampleWorld.

(** The sample state with the none strategy in the selected preset. *)
Definition noneWorld : World :=
  set_settings
    (set_promptPresets
       {[ js "default" := {| content := DEFAULT_PROMPT;
                             extractionStrategy := none;
                             impersonate := None |} ]}
       sampleSettings)
    sampleWorld.

(** Automatic generation switched on, in a chat with one character. *)
Definition alone : Surroundings :=
  {| current_settings :=
       {| version := VERSION; formatVersion := FORMAT_VERSION;
          profileId := js "profile-1"; maxContextType := ctx_profile;
          maxContextValue := 16384; maxResponseToken := 500;
          promptPreset := js "default"; autoTrigger := true; autoOpen := true;
          promptPresets := promptPresets DEFAULT_SETTINGS;
          impersonateApi := api_main; impersonateProfileId := [];
          showUseActionIcon := true; autoSubmitUseAction := false;
          messageRole := role_system |};
     selected_group := false |}.

(** Automatic generation switched off. *)
Definition switchedOff : Surroundings :=
  {| current_settings := sampleSettings; selected_group := false |}.

(** A macro substitution that puts the selected option behind the
    template. *)
Definition sampleSubstitute (template : jsstring)
    (roadwaySelected : option jsstring) : jsstring :=
  template ++ default [] roadwaySelected.

(** * Properties *)

(** ** The matcher *)

Section Matcher.

Lemma lastOr_nil prev : lastOr prev [] = prev.
Proof. reflexivity. Qed.

Lemma lastOr_cons prev c l : lastOr prev (c :: l) = lastOr (Some c) l.
Proof.
  unfold lastOr. simpl. destruct (rev l) as [|x r] eqn:E; reflexivity.
Qed.

Lemma lastOr_app prev l1 l2 : lastOr prev (l1 ++ l2) = lastOr (lastOr prev l1) l2.
Proof.
  revert prev. induction l1 as [|c l1 IH]; intros prev; simpl.
  - reflexivity.
  - rewrite !lastOr_cons. apply IH.
Qed.

Lemma take_drop_while p s : takeWhile p s ++ dropWhile p s = s.
Proof.
  induction s as [|c s IH]; simpl; [reflexivity|].
  destruct (p c); simpl; [now rewrite IH | reflexivity].
Qed.

Lemma dropWhile_head p s c s' : dropWhile p s = c :: s' -> p c = false.
Proof.
  induction s as [|x s IH]; simpl; [discriminate|].
  destruct (p x) eqn:E; [exact IH|]. intros H. now inversion H; subst.
Qed.

Lemma dropWhile_false p c s : p c = false -> dropWhile p (c :: s) = c :: s.
Proof. intros H. simpl. now rewrite H. Qed.

Lemma dropWhile_app_all p l s :
  forallb p l = true -> dropWhile p (l ++ s) = dropWhile p s.
Proof.
  induction l as [|c l IH]; simpl; [reflexivity|].
  intros H. apply andb_prop in H as [H1 H2]. rewrite H1. now apply IH.
Qed.

Lemma dropWhile_app_stop p l c s :
  forallb p l = true -> p c = false -> dropWhile p (l ++ c :: s) = c :: s.
Proof.
  intros Hl Hc. rewrite dropWhile_app_all by exact Hl. now apply dropWhile_false.
Qed.

(** A greedy iteration whose continuation cannot start on a character of
    the class hands over at the longest run. *)
Lemma starGreedy_commit p k :
  (forall prev c s, p c = true -> k prev (c :: s) = None) ->
  forall prev s,
    starGreedy p prev s k = k (lastOr prev (takeWhile p s)) (dropWhile p s).
Proof.
  intros Hk prev s. revert prev.
  induction s as [|c s IH]; intros prev; simpl; [reflexivity|].
  destruct (p c) eqn:E; [|reflexivity].
  rewrite lastOr_cons, IH.
  destruct (k _ (dropWhile p s)) eqn:Ek; [reflexivity|].
  now apply Hk.
Qed.

(** A greedy iteration whose continuation always succeeds hands over at
    the longest run. *)
Lemma starGreedy_total p k (g : jsstring -> jsstring) :
  (forall prev s, k prev s = Some (g s)) ->
  forall prev s, starGreedy p prev s k = Some (g (dropWhile p s)).
Proof.
  intros Hk prev s. revert prev.
  induction s as [|c s IH]; intros prev; simpl; [apply Hk|].
  destruct (p c); [now rewrite IH | apply Hk].
Qed.

(** A literal string matches a prefix that spells it. *)
Lemma rmatch_Str fl d :
  ignoreCase fl = true ->
  forall prev s k,
    rmatch fl (Str d) prev s k =
    match afterDelimiter d s with
    | Some rest => k (lastOr prev (firstn (length d) s)) rest
    | None => None
    end.
Proof.
  intros Hfl. induction d as [|x d IH]; intros prev s k; simpl.
  - reflexivity.
  - destruct s as [|y s]; [reflexivity|].
    unfold canonicalize, sameLetter. rewrite Hfl. simpl.
    destruct (_ =? _)%N; [|reflexivity].
    rewrite IH. simpl firstn. rewrite lastOr_cons. reflexivity.
Qed.

End Matcher.

(** ** The reasoning-block pattern *)

Section Think.

Lemma starLazy_closing prev s :
  starLazy (cls_match fl_think CAny) prev s
    (fun prev' s' =>
       rmatch fl_think (Str closingDelimiter) prev' s' (fun _ r => Some r))
  = afterClosing s.
Proof.
  revert prev. induction s as [|c s IH]; intros prev.
  - cbn [starLazy afterClosing]. rewrite rmatch_Str by reflexivity.
    destruct (afterDelimiter closingDelimiter []); reflexivity.
  - cbn [starLazy afterClosing]. rewrite rmatch_Str by reflexivity.
    destruct (afterDelimiter closingDelimiter (c :: s)); [reflexivity|].
    cbn [cls_match]. apply IH.
Qed.

(** One attempt of the pattern at a position: an opening delimiter here,
    and the nearest closing delimiter after it. *)
Lemma matchAt_think prev s : matchAt fl_think re_think prev s = afterBlock s.
Proof.
  unfold matchAt, re_think, afterBlock. cbn [rmatch].
  change (js "<think>") with openingDelimiter.
  change (js "</think>") with closingDelimiter.
  rewrite rmatch_Str by reflexivity.
  destruct (afterDelimiter openingDelimiter s) as [body|]; [|reflexivity].
  cbn [mbind option_bind]. apply starLazy_closing.
Qed.

End Think.

(** ** The global scan *)

Section Scan.

Context (fl : flags) (r : regex).

Lemma scan_skip l1 l2 prev :
  scan fl r (length l1) prev (l1 ++ l2) = scan fl r 0 (lastOr prev l1) l2.
Proof.
  revert prev. induction l1 as [|c l1 IH]; intros prev.
  - reflexivity.
  - rewrite lastOr_cons. cbn [length app scan]. apply IH.
Qed.

(** A match at the current position: one hit, and the scan goes on where
    the match ended. *)
Lemma scan_hit prev c m rest :
  matchAt fl r prev (c :: m ++ rest) = Some rest ->
  scan fl r 0 prev (c :: m ++ rest)
  = Hit (c :: m) :: scan fl r 0 (lastOr (Some c) m) rest.
Proof.
  intros H. cbn [scan]. rewrite H.
  replace (length (c :: m ++ rest) - length rest)%nat with (S (length m))
    by (cbn [length]; rewrite length_app; lia).
  cbn [firstn]. rewrite firstn_app, Nat.sub_diag, firstn_all. cbn [firstn].
  rewrite app_nil_r. f_equal. apply scan_skip.
Qed.

Lemma scan_miss prev c s :
  matchAt fl r prev (c :: s) = None ->
  scan fl r 0 prev (c :: s) = Lit c :: scan fl r 0 (Some c) s.
Proof. intros H. cbn [scan]. now rewrite H. Qed.

Lemma scan_end prev :
  matchAt fl r prev [] = None -> scan fl r 0 prev [] = [].
Proof. intros H. cbn [scan]. now rewrite H. Qed.

End Scan.

Section ThinkScan.

Lemma afterDelimiter_split d s rest :
  afterDelimiter d s = Some rest ->
  exists m, s = m ++ rest /\ length m = length d.
Proof.
  revert s. induction d as [|x d IH]; intros s H; simpl in H.
  - exists []. now inversion H.
  - destruct s as [|y s]; [discriminate|].
    destruct (sameLetter x y); [|discriminate].
    destruct (IH _ H) as (m & -> & Hm). exists (y :: m). simpl. now rewrite Hm.
Qed.

Lemma afterClosing_split s rest :
  afterClosing s = Some rest -> exists m, s = m ++ rest.
Proof.
  induction s as [|c s IH]; cbn [afterClosing].
  - destruct (afterDelimiter closingDelimiter []) eqn:E; [|discriminate].
    intros H. inversion H; subst.
    destruct (afterDelimiter_split _ _ _ E) as (m & Hm & _). now exists m.
  - destruct (afterDelimiter closingDelimiter (c :: s)) eqn:E.
    + intros H. inversion H; subst.
      destruct (afterDelimiter_split _ _ _ E) as (m & Hm & _). now exists m.
    + intros H. destruct (IH H) as (m & ->). now exists (c :: m).
Qed.

(** A reasoning block is never empty: what is left after it is a proper
    suffix. *)
Lemma afterBlock_split s rest :
  afterBlock s = Some rest -> exists c m, s = c :: m ++ rest.
Proof.
  unfold afterBlock. intros H.
  destruct (afterDelimiter openingDelimiter s) as [body|] eqn:E;
    [|discriminate].
  cbn [mbind option_bind] in H.
  destruct (afterDelimiter_split _ _ _ E) as (m1 & -> & Hlen).
  destruct (afterClosing_split _ _ H) as (m2 & ->).
  destruct m1 as [|c m1]; [discriminate Hlen|].
  exists c, (m1 ++ m2). now rewrite <- app_assoc.
Qed.

Lemma afterBlock_nil : afterBlock [] = None.
Proof. reflexivity. Qed.

Lemma replace_think_fuel fuel :
  forall prev s,
    (length s <= fuel)%nat ->
    flat_map (fun g => match g with Hit _ => [] | Lit c => [c] end)
             (scan fl_think re_think 0 prev s)
    = removeReasoning fuel s.
Proof.
  induction fuel as [|fuel IH]; intros prev s Hlen.
  - destruct s; [|cbn [length] in Hlen; lia].
    rewrite scan_end by (rewrite matchAt_think; reflexivity). reflexivity.
  - destruct s as [|c s].
    + rewrite scan_end by (rewrite matchAt_think; reflexivity). reflexivity.
    + cbn [removeReasoning].
      destruct (afterBlock (c :: s)) as [rest|] eqn:E.
      * destruct (afterBlock_split _ _ E) as (c' & m & Hs).
        rewrite Hs in *. rewrite scan_hit by (now rewrite matchAt_think).
        cbn [flat_map app]. apply IH.
        cbn [length] in Hlen. rewrite length_app in Hlen. lia.
      * rewrite scan_miss by (now rewrite matchAt_think).
        cbn [flat_map app]. f_equal. apply IH. cbn [length] in Hlen. lia.
Qed.

(** The global replacement removes every reasoning block. *)
Lemma replace_think s :
  String_replace_g fl_think re_think [] s = withoutReasoning s.
Proof. unfold String_replace_g, withoutReasoning. now apply replace_think_fuel. Qed.

End ThinkScan.

(** ** The bullet pattern *)

Section Bullet.

Lemma starGreedy_first p k prev s rest :
  k (lastOr prev (takeWhile p s)) (dropWhile p s) = Some rest ->
  starGreedy p prev s k = Some rest.
Proof.
  revert prev. induction s as [|c s IH]; intros prev; simpl; [trivial|].
  destruct (p c); [|trivial].
  rewrite lastOr_cons. intros H. now rewrite (IH _ H).
Qed.

Lemma dropWhile_atLineEnd fl s :
  multiline fl = true ->
  atLineEnd fl (dropWhile notLineTerminator s) = true.
Proof.
  intros Hfl. destruct (dropWhile notLineTerminator s) as [|c s'] eqn:E.
  - reflexivity.
  - apply dropWhile_head in E. unfold notLineTerminator in E.
    simpl. rewrite Hfl. simpl. now destruct (isLineTerminator c).
Qed.

(** The line body and the end of the line: the rest of the line is taken,
    whatever it is. *)
Lemma rmatch_body fl prev s :
  multiline fl = true ->
  rmatch fl (Seq (Star true CDot) Eol) prev s (fun _ rest => Some rest)
  = Some (dropWhile notLineTerminator s).
Proof.
  intros Hfl. cbn [rmatch]. apply starGreedy_first.
  change (cls_match fl CDot) with notLineTerminator.
  now rewrite dropWhile_atLineEnd.
Qed.

Lemma canonicalize_plain fl c : ignoreCase fl = false -> canonicalize fl c = c.
Proof. intros H. unfold canonicalize. now rewrite H. Qed.

Lemma digit_not_period c : isDigit c = true -> (46 =? c)%N = false.
Proof.
  unfold isDigit. intros H. apply andb_prop in H as [H1 H2].
  apply N.leb_le in H1, H2. apply N.eqb_neq. lia.
Qed.

Lemma digit_not_hyphen c : isDigit c = true -> (45 =? c)%N = false.
Proof.
  unfold isDigit. intros H. apply andb_prop in H as [H1 H2].
  apply N.leb_le in H1, H2. apply N.eqb_neq. lia.
Qed.

(** The marker, before a continuation that takes whatever follows. *)
Lemma rmatch_marker fl k (g : jsstring -> jsstring) :
  ignoreCase fl = false ->
  (forall prev s, k prev s = Some (g s)) ->
  forall prev s, rmatch fl re_marker prev s k = g <$> afterMarker s.
Proof.
  intros Hfl Hk prev s. unfold re_marker, Plus. cbn [rmatch cls_match].
  rewrite !canonicalize_plain by exact Hfl.
  destruct s as [|c s1]; [reflexivity|].
  rewrite canonicalize_plain by exact Hfl.
  cbn [afterMarker]. destruct (isDigit c) eqn:Ed.
  - rewrite (digit_not_hyphen _ Ed).
    change (cls_match fl CDigit) with isDigit.
    change (cls_match fl CSpace) with isSpace.
    rewrite starGreedy_commit.
    2:{ intros p' c' s' Hc'. rewrite canonicalize_plain by exact Hfl.
        now rewrite (digit_not_period _ Hc'). }
    destruct (dropWhile isDigit s1) as [|d s2]; [reflexivity|].
    rewrite canonicalize_plain by exact Hfl.
    rewrite (N.eqb_sym 46 d). destruct (d =? 46)%N; [|reflexivity].
    destruct s2 as [|x s3]; [reflexivity|].
    cbn [dropWhile]. destruct (isSpace x) eqn:Ex.
    + rewrite (starGreedy_total _ _ g Hk). reflexivity.
    + cbn [negb]. rewrite Hk. reflexivity.
  - rewrite (N.eqb_sym 45 c). destruct (c =? 45)%N; [|reflexivity].
    change (cls_match fl CSpace) with isSpace.
    destruct s1 as [|x s3]; [reflexivity|].
    cbn [dropWhile]. destruct (isSpace x) eqn:Ex; [|reflexivity].
    rewrite (starGreedy_total _ _ g Hk). reflexivity.
Qed.

(** One attempt of the bullet pattern: at a line start, a marker, and the
    rest of the line after the white space behind the marker. *)
Lemma matchAt_bullet prev s :
  matchAt fl_bullet re_bullet prev s
  = if atLineStart fl_bullet prev
    then dropWhile notLineTerminator <$> afterMarker s
    else None.
Proof.
  unfold matchAt, re_bullet. cbn [rmatch].
  destruct (atLineStart fl_bullet prev); [|reflexivity].
  apply rmatch_marker; [reflexivity|].
  intros p' s'. now apply rmatch_body.
Qed.

(** One attempt of the prefix pattern: at the start of the string, a
    marker. *)
Lemma matchAt_prefix prev s :
  matchAt fl_prefix re_prefix prev s
  = if atLineStart fl_prefix prev then afterMarker s else None.
Proof.
  unfold matchAt, re_prefix. cbn [rmatch].
  destruct (atLineStart fl_prefix prev); [|reflexivity].
  rewrite (rmatch_marker fl_prefix _ (fun x => x)); [|reflexivity|reflexivity].
  now destruct (afterMarker s).
Qed.

End Bullet.

(** ** Texts without a marked line *)

Section Unmarked.

Lemma hits_of_match fl r s :
  default [] (String_match_g fl r s) = hits (scan fl r 0 None s).
Proof. unfold String_match_g. now destruct (hits _). Qed.

Lemma startsFrom_cons c s : startsFrom (Some c) s = laterLines (c :: s).
Proof. reflexivity. Qed.

Lemma unmarked_no_hit s :
  forall prev,
    Forall (fun t => afterMarker t = None) (startsFrom prev s) ->
    hits (scan fl_bullet re_bullet 0 prev s) = [].
Proof.
  induction s as [|c s IH]; intros prev H.
  - rewrite scan_end; [reflexivity|]. rewrite matchAt_bullet.
    unfold startsFrom in H. destruct (atLineStart fl_bullet prev); reflexivity.
  - assert (Hm : matchAt fl_bullet re_bullet prev (c :: s) = None).
    { rewrite matchAt_bullet. unfold startsFrom in H.
      destruct (atLineStart fl_bullet prev); [|reflexivity].
      inversion H as [|? ? H1 _]; subst. now rewrite H1. }
    rewrite scan_miss by exact Hm. cbn [hits flat_map app].
    apply IH. rewrite startsFrom_cons. unfold startsFrom in H.
    destruct (atLineStart fl_bullet prev); [now inversion H | exact H].
Qed.

Lemma no_hit_unmarked s :
  forall prev,
    hits (scan fl_bullet re_bullet 0 prev s) = [] ->
    Forall (fun t => afterMarker t = None) (startsFrom prev s).
Proof.
  induction s as [|c s IH]; intros prev H.
  - unfold startsFrom. destruct (atLineStart fl_bullet prev); repeat constructor.
  - destruct (matchAt fl_bullet re_bullet prev (c :: s)) as [rest|] eqn:Hm.
    + cbn [scan] in H. rewrite Hm in H. discriminate H.
    + rewrite scan_miss in H by exact Hm. cbn [hits flat_map app] in H.
      apply IH in H. rewrite startsFrom_cons in H.
      unfold startsFrom. rewrite matchAt_bullet in Hm.
      destruct (atLineStart fl_bullet prev); [|exact H].
      constructor; [|exact H].
      now destruct (afterMarker (c :: s)).
Qed.

(** The extractor yields nothing exactly when no line of the cleaned text
    starts with a marker. *)
Lemma extract_nil_iff text :
  extractBulletPoints text = []
  <-> Forall (fun t => afterMarker t = None) (lineStarts (withoutReasoning text)).
Proof.
  unfold extractBulletPoints. rewrite replace_think, hits_of_match.
  change (lineStarts (withoutReasoning text))
    with (startsFrom None (withoutReasoning text)).
  split.
  - intros H. apply no_hit_unmarked.
    destruct (hits _); [reflexivity | discriminate H].
  - intros H. now rewrite unmarked_no_hit.
Qed.

End Unmarked.

(** ** Re-reading the numbered display text *)

Section RoundTrip.

Lemma digits_all fuel n : forallb isDigit (digits fuel n) = true.
Proof.
  revert n. induction fuel as [|fuel IH]; intros n; cbn [digits]; [reflexivity|].
  rewrite forallb_app. apply andb_true_intro. split.
  - destruct (n <? 10)%N; [reflexivity | apply IH].
  - cbn [forallb]. rewrite andb_true_r. unfold isDigit.
    pose proof (N.mod_upper_bound n 10 ltac:(discriminate)) as Hm.
    revert Hm. generalize (n mod 10)%N. intros m Hm.
    apply andb_true_intro. split; apply N.leb_le; lia.
Qed.

Lemma decimal_not_nil n : decimal n <> [].
Proof.
  unfold decimal. cbn [digits].
  destruct (if (n <? 10)%N then _ else _); discriminate.
Qed.

Lemma decimal_all n : forallb isDigit (decimal n) = true.
Proof. apply digits_all. Qed.

Lemma length_dropWhile p s : (length (dropWhile p s) <= length s)%nat.
Proof.
  induction s as [|c s IH]; simpl; [lia|]. destruct (p c); simpl; lia.
Qed.

Lemma dropWhile_same_length p s :
  length (dropWhile p s) = length s -> dropWhile p s = s.
Proof.
  destruct s as [|c s]; simpl; [reflexivity|].
  destruct (p c); [|reflexivity].
  pose proof (length_dropWhile p s). lia.
Qed.

Lemma dropWhile_fixed_head p c s : dropWhile p (c :: s) = c :: s -> p c = false.
Proof. intros H. exact (dropWhile_head _ _ _ _ H). Qed.

(** A trimmed text has no white space at either end. *)
Lemma trimmed_ends a :
  trim a = a -> dropWhile isSpace a = a /\ dropWhile isSpace (rev a) = rev a.
Proof.
  unfold trim. intros H.
  assert (Hl : length (dropWhile isSpace (rev (dropWhile isSpace a))) = length a)
    by (rewrite <- H at 2; now rewrite length_rev).
  pose proof (length_dropWhile isSpace a) as H1.
  pose proof (length_dropWhile isSpace (rev (dropWhile isSpace a))) as H2.
  rewrite length_rev in H2.
  assert (Ha : dropWhile isSpace a = a)
    by (apply dropWhile_same_length; lia).
  split; [exact Ha|].
  rewrite Ha in Hl. apply dropWhile_same_length. now rewrite length_rev.
Qed.

Lemma trim_fixed a :
  dropWhile isSpace a = a -> dropWhile isSpace (rev a) = rev a -> trim a = a.
Proof. intros H1 H2. unfold trim. now rewrite H1, H2, rev_involutive. Qed.

Lemma lastOr_snoc prev l z : lastOr prev (l ++ [z]) = Some z.
Proof. unfold lastOr. now rewrite rev_unit. Qed.

(** The code unit before the end of a line that ends with a plain action
    is not a line terminator. *)
Lemma lastOr_plain prev l a :
  a <> [] -> forallb notLineTerminator a = true ->
  exists z, lastOr prev (l ++ a) = Some z /\ isLineTerminator z = false.
Proof.
  intros Hne Hsl.
  destruct (exists_last Hne) as (a0 & z & ->).
  exists z. rewrite app_assoc, lastOr_snoc. split; [reflexivity|].
  rewrite forallb_app in Hsl. apply andb_prop in Hsl as [_ Hz].
  cbn [forallb] in Hz. unfold notLineTerminator in Hz.
  now destruct (isLineTerminator z).
Qed.

Lemma afterMarker_rendered line a t :
  rendered line a -> a <> [] -> dropWhile isSpace a = a ->
  afterMarker (line ++ t) = Some (a ++ t).
Proof.
  intros (ds & -> & Hne & Hds) Ha Hsp.
  destruct ds as [|c ds]; [contradiction|].
  cbn [forallb] in Hds. apply andb_prop in Hds as [Hc Hds].
  destruct a as [|h a]; [contradiction|].
  apply dropWhile_fixed_head in Hsp.
  change (js ". ") with [46%N; 32%N].
  cbn [app afterMarker]. rewrite Hc.
  rewrite <- !app_assoc. cbn [app].
  rewrite dropWhile_app_stop by (trivial; reflexivity).
  cbn [N.eqb Pos.eqb dropWhile].
  change (isSpace 32%N) with true. cbn iota. now rewrite Hsp.
Qed.

Lemma matchAt_rendered prev line a t :
  atLineStart fl_bullet prev = true ->
  rendered line a -> a <> [] -> dropWhile isSpace a = a ->
  forallb notLineTerminator a = true ->
  atLineEnd fl_bullet t = true ->
  matchAt fl_bullet re_bullet prev (line ++ t) = Some t.
Proof.
  intros Hp Hr Ha Hsp Hsl Ht.
  rewrite matchAt_bullet, Hp, (afterMarker_rendered _ _ _ Hr Ha Hsp).
  cbn [fmap option_fmap option_map]. f_equal.
  rewrite dropWhile_app_all by exact Hsl.
  destruct t as [|x t]; [reflexivity|].
  apply dropWhile_false. unfold notLineTerminator.
  cbn [atLineEnd] in Ht. cbn in Ht. now rewrite Ht.
Qed.

Lemma join_cons sep x l :
  join sep (x :: l)
  = x ++ match l with [] => [] | _ => sep ++ join sep l end.
Proof. destruct l; cbn [join]; [now rewrite app_nil_r | reflexivity]. Qed.

(** The scan of a numbered display finds its lines, one hit each. *)
Lemma hits_rendered ls actions :
  Forall2 rendered ls actions ->
  Forall plainAction actions ->
  forall prev,
    atLineStart fl_bullet prev = true ->
    hits (scan fl_bullet re_bullet 0 prev (join nl ls)) = ls.
Proof.
  induction 1 as [|line a ls actions Hr HF IH]; intros Hpl prev Hp.
  - rewrite scan_end; [reflexivity|]. rewrite matchAt_bullet, Hp. reflexivity.
  - inversion Hpl as [|? ? (Hne & Hsl & Htr & _) Hpl']; subst.
    destruct (trimmed_ends _ Htr) as [Hsp _].
    rewrite join_cons.
    set (t := match ls with [] => [] | _ => nl ++ join nl ls end).
    assert (Ht : atLineEnd fl_bullet t = true) by (subst t; now destruct ls).
    pose proof (matchAt_rendered prev line a t Hp Hr Hne Hsp Hsl Ht) as Hm.
    destruct Hr as (ds & Hline & Hds & Hall).
    destruct ds as [|c ds]; [contradiction|].
    assert (Hcm : line = c :: (ds ++ js ". ") ++ a)
      by (rewrite Hline; cbn [app]; now rewrite <- app_assoc).
    rewrite Hcm in Hm |- *. cbn [app] in Hm |- *.
    rewrite scan_hit by exact Hm. cbn [hits flat_map app]. f_equal.
    destruct (lastOr_plain (Some c) (ds ++ js ". ") a Hne Hsl)
      as (z & -> & Hz).
    assert (Hnot : atLineStart fl_bullet (Some z) = false)
      by (cbn [atLineStart]; now rewrite Hz).
    subst t. destruct ls as [|l2 ls].
    + inversion HF; subst. rewrite scan_end; [reflexivity|].
      rewrite matchAt_bullet, Hnot. reflexivity.
    + change (nl ++ join nl (l2 :: ls)) with (LF :: join nl (l2 :: ls)).
      rewrite scan_miss by (rewrite matchAt_bullet, Hnot; reflexivity).
      cbn [hits flat_map app]. apply (IH Hpl'). reflexivity.
Qed.

Lemma replaceFrom_hit fl r by_ prev s rest :
  matchAt fl r prev s = Some rest -> replaceFrom fl r by_ prev s = by_ ++ rest.
Proof. intros H. destruct s; cbn [replaceFrom]; now rewrite H. Qed.

(** Stripping the marker of a rendered line and trimming gives the action
    back. *)
Lemma strip_rendered line a :
  rendered line a -> plainAction a ->
  trim (String_replace fl_prefix re_prefix [] line) = a.
Proof.
  intros Hr (Hne & _ & Htr & _).
  destruct (trimmed_ends _ Htr) as [Hsp _].
  pose proof (afterMarker_rendered line a [] Hr Hne Hsp) as H.
  rewrite !app_nil_r in H.
  unfold String_replace.
  rewrite (replaceFrom_hit _ _ _ _ _ a); [exact Htr|].
  rewrite matchAt_prefix. exact H.
Qed.

Lemma map_strip_rendered ls actions :
  Forall2 rendered ls actions ->
  Forall plainAction actions ->
  map (fun line => trim (String_replace fl_prefix re_prefix [] line)) ls
  = actions.
Proof.
  induction 1 as [|line a ls actions Hr HF IH]; intros Hpl; [reflexivity|].
  inversion Hpl; subst. cbn [map]. f_equal; [now apply strip_rendered | auto].
Qed.

Lemma imap_rendered (f : nat -> jsstring -> jsstring) actions :
  (forall i a, rendered (f i a) a) -> Forall2 rendered (imap f actions) actions.
Proof.
  revert f. induction actions as [|a actions IH]; intros f Hf; cbn [imap].
  - constructor.
  - constructor; [apply Hf|]. apply IH. intros i b. apply Hf.
Qed.

Lemma numbered_rendered actions :
  Forall2 rendered
    (imap (fun index action =>
             decimal (N.of_nat index + 1) ++ js ". " ++ action) actions)
    actions.
Proof.
  apply imap_rendered. intros i a. eexists. split; [reflexivity|].
  split; [apply decimal_not_nil | apply decimal_all].
Qed.

End RoundTrip.

(** ** Texts without a reasoning block *)

Section NoDelimiter.

Lemma hasDelimiter_cons d c s :
  hasDelimiter d (c :: s) = false ->
  afterDelimiter d (c :: s) = None /\ hasDelimiter d s = false.
Proof.
  cbn [hasDelimiter]. destruct (afterDelimiter d (c :: s)); [discriminate|].
  now split.
Qed.

Lemma removeReasoning_plain s :
  hasDelimiter openingDelimiter s = false ->
  forall fuel, removeReasoning fuel s = s.
Proof.
  induction s as [|c s IH]; intros H fuel.
  - now destruct fuel.
  - apply hasDelimiter_cons in H as [H1 H2].
    destruct fuel as [|fuel]; [reflexivity|].
    cbn [removeReasoning]. unfold afterBlock. rewrite H1.
    cbn [mbind option_bind]. f_equal. now apply IH.
Qed.

Lemma afterDelimiter_app_none d :
  forall x y,
    afterDelimiter d x = None -> foreignTo d y ->
    afterDelimiter d (x ++ y) = None.
Proof.
  induction d as [|e d IH]; intros x y Hx Hy; [discriminate Hx|].
  assert (Hy' : foreignTo d y).
  { destruct y as [|h y]; [exact I|]. cbn [foreignTo forallb] in Hy |- *.
    now apply andb_prop in Hy as [_ Hy]. }
  destruct x as [|c x].
  - destruct y as [|h y]; [reflexivity|].
    cbn [foreignTo forallb] in Hy. apply andb_prop in Hy as [Hy _].
    cbn [app afterDelimiter]. now destruct (sameLetter e h).
  - cbn [app afterDelimiter] in Hx |- *.
    destruct (sameLetter e c); [now apply IH | reflexivity].
Qed.

Lemma hasDelimiter_app d x y :
  hasDelimiter d x = false -> hasDelimiter d y = false -> foreignTo d y ->
  hasDelimiter d (x ++ y) = false.
Proof.
  intros Hx Hy Hf. induction x as [|c x IH]; [exact Hy|].
  apply hasDelimiter_cons in Hx as [H1 H2].
  cbn [app hasDelimiter].
  change (c :: x ++ y) with ((c :: x) ++ y).
  rewrite (afterDelimiter_app_none d (c :: x) y H1 Hf). now apply IH.
Qed.

Lemma hasOpening_cons_other c s :
  sameLetter 60%N c = false ->
  hasDelimiter openingDelimiter (c :: s) = hasDelimiter openingDelimiter s.
Proof.
  intros H. cbn [hasDelimiter]. unfold openingDelimiter at 1.
  change (js "<think>") with (60%N :: js "think>").
  cbn [afterDelimiter]. now rewrite H.
Qed.

Lemma digit_not_bracket c : isDigit c = true -> sameLetter 60%N c = false.
Proof.
  unfold isDigit, sameLetter. intros H. apply andb_prop in H as [H1 H2].
  apply N.leb_le in H2.
  replace (97 <=? c)%N with false by (symmetry; apply N.leb_gt; lia).
  change (97 <=? 60)%N with false. cbn [andb]. apply N.eqb_neq. lia.
Qed.

Lemma hasOpening_digits ds s :
  forallb isDigit ds = true ->
  hasDelimiter openingDelimiter (ds ++ s) = hasDelimiter openingDelimiter s.
Proof.
  induction ds as [|c ds IH]; intros H; [reflexivity|].
  cbn [forallb] in H. apply andb_prop in H as [Hc H].
  cbn [app]. rewrite hasOpening_cons_other by now apply digit_not_bracket.
  now apply IH.
Qed.

(** The numbered display of plain actions contains no opening delimiter. *)
Lemma hasOpening_rendered ls actions :
  Forall2 rendered ls actions ->
  Forall plainAction actions ->
  hasDelimiter openingDelimiter (join nl ls) = false.
Proof.
  induction 1 as [|line a ls actions Hr HF IH]; intros Hpl; [reflexivity|].
  inversion Hpl as [|? ? (_ & _ & _ & Hop & _) Hpl']; subst.
  rewrite join_cons. destruct Hr as (ds & -> & _ & Hds).
  rewrite <- !app_assoc. rewrite hasOpening_digits by exact Hds.
  change (js ". ") with [46%N; 32%N]. cbn [app].
  rewrite !hasOpening_cons_other by reflexivity.
  apply hasDelimiter_app; [exact Hop | |].
  - destruct ls as [|l2 ls]; [reflexivity|].
    change (nl ++ join nl (l2 :: ls)) with (LF :: join nl (l2 :: ls)).
    rewrite hasOpening_cons_other by reflexivity. now apply IH.
  - destruct ls; [exact I | reflexivity].
Qed.

End NoDelimiter.

(** ** What lies inside a reasoning block *)

Section Block.

Lemma afterDelimiter_app_some d :
  forall o rest, afterDelimiter d o = Some [] -> afterDelimiter d (o ++ rest) = Some rest.
Proof.
  induction d as [|e d IH]; intros o rest H.
  - cbn [afterDelimiter] in H. now inversion H.
  - destruct o as [|y o]; [discriminate H|].
    cbn [afterDelimiter app] in H |- *.
    destruct (sameLetter e y); [now apply IH | discriminate H].
Qed.

(** A text that does not begin with the delimiter does not begin with it
    when more text follows, if what follows starts on no later letter of
    the delimiter. *)
Lemma afterDelimiter_app_none_tail e d x y :
  x <> [] -> afterDelimiter (e :: d) x = None -> foreignTo d y ->
  afterDelimiter (e :: d) (x ++ y) = None.
Proof.
  intros Hx H Hy. destruct x as [|c x]; [contradiction|].
  cbn [afterDelimiter app] in H |- *.
  destruct (sameLetter e c); [|reflexivity].
  now apply afterDelimiter_app_none.
Qed.

Lemma delimiter_head e d c :
  afterDelimiter (e :: d) c = Some [] -> exists h t, c = h :: t /\ sameLetter e h = true.
Proof.
  destruct c as [|h t]; [discriminate|]. cbn [afterDelimiter].
  destruct (sameLetter e h) eqn:E; [|discriminate]. eauto.
Qed.

Lemma sameLetter_bracket h : sameLetter 60%N h = true -> h = 60%N.
Proof.
  unfold sameLetter. change (97 <=? 60)%N with false. cbn [andb].
  destruct ((97 <=? h)%N && (h <=? 122)%N) eqn:E; intros H;
    apply N.eqb_eq in H; [|congruence].
  apply andb_prop in E as [E1 E2]. apply N.leb_le in E1, E2. lia.
Qed.

(** After a body without a closing delimiter, the nearest closing delimiter
    is the one that follows the body. *)
Lemma afterClosing_body body c post :
  hasDelimiter closingDelimiter body = false ->
  afterDelimiter closingDelimiter c = Some [] ->
  afterClosing (body ++ c ++ post) = Some post.
Proof.
  intros Hb Hc. induction body as [|x body IH].
  - cbn [app]. destruct c as [|h c']; [discriminate Hc|].
    cbn [app afterClosing]. change (h :: c' ++ post) with ((h :: c') ++ post).
    now rewrite (afterDelimiter_app_some _ _ post Hc).
  - apply hasDelimiter_cons in Hb as [H1 H2].
    cbn [app afterClosing].
    change (x :: body ++ c ++ post) with ((x :: body) ++ c ++ post).
    unfold closingDelimiter at 1. change (js "</think>") with (60%N :: js "/think>").
    rewrite afterDelimiter_app_none_tail; [now apply IH | discriminate | exact H1 |].
    destruct (delimiter_head _ _ _ Hc) as (h & t & -> & Hh).
    apply sameLetter_bracket in Hh. subst h. reflexivity.
Qed.

Lemma removeReasoning_enough fuel s :
  (length s <= fuel)%nat -> removeReasoning fuel s = withoutReasoning s.
Proof.
  intros H. unfold withoutReasoning.
  rewrite <- (replace_think_fuel fuel None s H).
  now rewrite <- (replace_think_fuel (length s) None s).
Qed.

Lemma withoutReasoning_cons_keep c s :
  afterBlock (c :: s) = None ->
  withoutReasoning (c :: s) = c :: withoutReasoning s.
Proof.
  intros H. unfold withoutReasoning at 1. cbn [length removeReasoning].
  now rewrite H.
Qed.

Lemma withoutReasoning_block c s rest :
  afterBlock (c :: s) = Some rest ->
  withoutReasoning (c :: s) = withoutReasoning rest.
Proof.
  intros H. unfold withoutReasoning at 1. cbn [length removeReasoning].
  rewrite H. apply removeReasoning_enough.
  destruct (afterBlock_split _ _ H) as (c' & m & Hs).
  apply (f_equal (@length _)) in Hs. cbn [length] in Hs.
  rewrite length_app in Hs. lia.
Qed.

(** The content of a reasoning block does not matter: with no opening
    delimiter before the block and no closing delimiter inside it, the text
    is cleaned to what precedes the block and the cleaned rest. *)
Lemma withoutReasoning_block_at pre o body c post :
  hasDelimiter openingDelimiter pre = false ->
  afterDelimiter openingDelimiter o = Some [] ->
  hasDelimiter closingDelimiter body = false ->
  afterDelimiter closingDelimiter c = Some [] ->
  withoutReasoning (pre ++ o ++ body ++ c ++ post)
  = pre ++ withoutReasoning post.
Proof.
  intros Hpre Ho Hb Hc.
  destruct (delimiter_head _ _ _ Ho) as (h & t & -> & Hh).
  apply sameLetter_bracket in Hh. subst h.
  assert (Hblock : afterBlock ((60%N :: t) ++ body ++ c ++ post) = Some post).
  { unfold afterBlock. rewrite (afterDelimiter_app_some _ _ _ Ho).
    cbn [mbind option_bind]. now apply afterClosing_body. }
  induction pre as [|x pre IH].
  - cbn [app] in *. now apply withoutReasoning_block.
  - apply hasDelimiter_cons in Hpre as [H1 H2].
    change ((x :: pre) ++ (60%N :: t) ++ body ++ c ++ post)
      with (x :: pre ++ (60%N :: t) ++ body ++ c ++ post).
    rewrite withoutReasoning_cons_keep;
      [cbn [app]; f_equal; exact (IH H2)|].
    unfold afterBlock.
    change (x :: pre ++ (60%N :: t) ++ body ++ c ++ post)
      with ((x :: pre) ++ (60%N :: t) ++ body ++ c ++ post).
    unfold openingDelimiter at 1.
    change (js "<think>") with (60%N :: js "think>").
    rewrite afterDelimiter_app_none_tail;
      [reflexivity | discriminate | exact H1 | reflexivity].
Qed.

End Block.

(** ** The scan, line by line *)

Section ByLine.

Lemma dropWhile_app_found p s r :
  forallb p s = false -> dropWhile p (s ++ r) = dropWhile p s ++ r.
Proof.
  induction s as [|c s IH]; cbn [forallb dropWhile app]; [discriminate|].
  destruct (p c); [exact IH | reflexivity].
Qed.

Lemma dropWhile_cons_found p s d s2 r :
  dropWhile p s = d :: s2 -> dropWhile p (s ++ r) = d :: s2 ++ r.
Proof.
  induction s as [|c s IH]; cbn [dropWhile app]; [discriminate|].
  destruct (p c); [exact IH|]. now intros [= <- <-].
Qed.

Lemma dropWhile_nil_all p s : dropWhile p s = [] -> forallb p s = true.
Proof.
  induction s as [|c s IH]; cbn [dropWhile forallb]; [reflexivity|].
  destruct (p c); [exact IH | discriminate].
Qed.

Lemma dropWhile_suffix p s : exists m, s = m ++ dropWhile p s.
Proof.
  induction s as [|c s [m IH]]; [now exists []|]. cbn [dropWhile].
  destruct (p c); [|now exists []]. exists (c :: m). cbn [app]. now f_equal.
Qed.

Lemma afterMarker_suffix s r : afterMarker s = Some r -> exists m, s = m ++ r.
Proof.
  destruct s as [|c s1]; [discriminate|]. cbn [afterMarker].
  destruct (isDigit c).
  - destruct (dropWhile_suffix isDigit s1) as [m1 H1].
    destruct (dropWhile isDigit s1) as [|d s2]; [discriminate|].
    destruct (d =? 46)%N; [|discriminate].
    destruct s2 as [|x s3]; [discriminate|]. intros [= <-].
    destruct (dropWhile_suffix isSpace (x :: s3)) as [m2 H2].
    exists (c :: m1 ++ d :: m2). rewrite H1, H2 at 1.
    cbn [app]. now rewrite <- app_assoc.
  - destruct (c =? 45)%N; [|discriminate].
    destruct s1 as [|x s3]; [discriminate|].
    destruct (isSpace x); [|discriminate]. intros [= <-].
    destruct (dropWhile_suffix isSpace (x :: s3)) as [m2 H2].
    exists (c :: m2). rewrite H2 at 1. reflexivity.
Qed.

Lemma lineTerminator_no_marker t s :
  isLineTerminator t = true -> afterMarker (t :: s) = None.
Proof.
  intros H. cbn [afterMarker].
  assert (Hd : isDigit t = false).
  { unfold isLineTerminator in H. unfold isDigit.
    repeat (apply orb_prop in H as [H|H]); apply N.eqb_eq in H; subst;
      reflexivity. }
  assert (Hh : (t =? 45)%N = false).
  { unfold isLineTerminator in H.
    repeat (apply orb_prop in H as [H|H]); apply N.eqb_eq in H; subst;
      reflexivity. }
  now rewrite Hd, Hh.
Qed.

Lemma lineTerminator_not_digit t :
  isLineTerminator t = true -> isDigit t = false.
Proof.
  unfold isLineTerminator, isDigit. intros H.
  repeat (apply orb_prop in H as [H|H]); apply N.eqb_eq in H; subst; reflexivity.
Qed.

Lemma lineTerminator_not_period t :
  isLineTerminator t = true -> (t =? 46)%N = false.
Proof.
  unfold isLineTerminator. intros H.
  repeat (apply orb_prop in H as [H|H]); apply N.eqb_eq in H; subst; reflexivity.
Qed.

(** On a line whose marker has a body, the marker is read the same whether
    or not more lines follow. *)
Lemma afterMarker_line l t s :
  isLineTerminator t = true ->
  blankMarker l = false ->
  afterMarker (l ++ t :: s) = (fun r => r ++ t :: s) <$> afterMarker l.
Proof.
  intros Ht Hb. destruct l as [|c s1].
  - cbn [app]. now rewrite lineTerminator_no_marker.
  - cbn [app afterMarker blankMarker] in *. destruct (isDigit c).
    + destruct (dropWhile isDigit s1) as [|d s2] eqn:E.
      * rewrite dropWhile_app_all by now apply dropWhile_nil_all.
        rewrite dropWhile_false by now apply lineTerminator_not_digit.
        now rewrite lineTerminator_not_period.
      * rewrite (dropWhile_cons_found _ _ _ _ (t :: s) E).
        destruct (d =? 46)%N; [|reflexivity]. cbn [andb] in Hb.
        destruct s2 as [|x s3]; [discriminate Hb|].
        cbn [app fmap option_fmap option_map]. f_equal.
        change (x :: s3 ++ t :: s) with ((x :: s3) ++ t :: s).
        now apply dropWhile_app_found.
    + destruct (c =? 45)%N; [|reflexivity]. cbn [andb] in Hb.
      destruct s1 as [|x s3]; [discriminate Hb|]. cbn [app].
      destruct (isSpace x) eqn:Ex; [|reflexivity].
      cbn [fmap option_fmap option_map]. f_equal.
      change (x :: s3 ++ t :: s) with ((x :: s3) ++ t :: s).
      now apply dropWhile_app_found.
Qed.

Lemma linesOf_not_nil s : linesOf s <> [].
Proof.
  destruct s as [|c s]; cbn [linesOf]; [discriminate|].
  destruct (isLineTerminator c); [discriminate|]. now destruct (linesOf s).
Qed.

Lemma linesOf_last l :
  forallb notLineTerminator l = true -> linesOf l = [l].
Proof.
  induction l as [|c l IH]; [reflexivity|]. cbn [forallb linesOf].
  intros H. apply andb_prop in H as [Hc Hl]. unfold notLineTerminator in Hc.
  destruct (isLineTerminator c); [discriminate|]. now rewrite IH.
Qed.

Lemma linesOf_line l t s :
  forallb notLineTerminator l = true -> isLineTerminator t = true ->
  linesOf (l ++ t :: s) = l :: linesOf s.
Proof.
  intros Hl Ht. induction l as [|c l IH]; cbn [app linesOf].
  - now rewrite Ht.
  - cbn [forallb] in Hl. apply andb_prop in Hl as [Hc Hl].
    unfold notLineTerminator in Hc.
    destruct (isLineTerminator c); [discriminate|]. now rewrite IH.
Qed.

(** Inside a line the scan finds nothing: no position there is a line
    start. *)
Lemma scan_inside_line l rest prev :
  forallb notLineTerminator l = true ->
  atLineStart fl_bullet prev = false ->
  scan fl_bullet re_bullet 0 prev (l ++ rest)
  = map Lit l ++ scan fl_bullet re_bullet 0 (lastOr prev l) rest.
Proof.
  revert prev. induction l as [|c l IH]; intros prev Hl Hp; [reflexivity|].
  cbn [forallb] in Hl. apply andb_prop in Hl as [Hc Hl].
  cbn [app]. rewrite scan_miss by (rewrite matchAt_bullet, Hp; reflexivity).
  rewrite lastOr_cons. cbn [map app]. f_equal. apply IH; [exact Hl|].
  unfold notLineTerminator in Hc. cbn [atLineStart].
  now destruct (isLineTerminator c).
Qed.

Lemma hits_app l1 l2 : hits (l1 ++ l2) = hits l1 ++ hits l2.
Proof. unfold hits. apply flat_map_app. Qed.

Lemma hits_Lit l : hits (map Lit l) = [].
Proof. induction l; [reflexivity | exact IHl]. Qed.

Lemma suffix_singleLine m r :
  forallb notLineTerminator (m ++ r) = true ->
  forallb notLineTerminator r = true.
Proof. rewrite forallb_app. intros H. now apply andb_prop in H as [_ H]. Qed.

(** The scan of the first line of a text, and what is left to scan. *)
Lemma scan_first_line l rest prev :
  forallb notLineTerminator l = true ->
  atLineStart fl_bullet prev = true ->
  atLineEnd fl_bullet rest = true ->
  (rest <> [] -> blankMarker l = false) ->
  exists prev',
    (rest <> [] -> l <> [] -> atLineStart fl_bullet prev' = false)
    /\ (l = [] -> prev' = prev)
    /\ map stripMarker (hits (scan fl_bullet re_bullet 0 prev (l ++ rest)))
       = match afterMarker l with
         | Some r => [trim r]
         | None => []
         end
         ++ map stripMarker (hits (scan fl_bullet re_bullet 0 prev' rest)).
Proof.
  intros Hl Hp Hend Hblank.
  assert (Hmark : afterMarker (l ++ rest)
                  = (fun r => r ++ rest) <$> afterMarker l).
  { destruct rest as [|t s].
    - rewrite app_nil_r. destruct (afterMarker l); cbn; now rewrite ?app_nil_r.
    - apply afterMarker_line; [|apply Hblank; discriminate].
      cbn [atLineEnd] in Hend. exact Hend. }
  destruct (afterMarker l) as [r|] eqn:Er.
  - destruct (afterMarker_suffix _ _ Er) as [m Hm].
    assert (Hr : forallb notLineTerminator r = true)
      by (rewrite Hm in Hl; eapply suffix_singleLine; eauto).
    assert (Hmatch : matchAt fl_bullet re_bullet prev (l ++ rest) = Some rest).
    { rewrite matchAt_bullet, Hp, Hmark. cbn [fmap option_fmap option_map].
      f_equal. rewrite dropWhile_app_all by exact Hr.
      destruct rest as [|t s]; [reflexivity|]. apply dropWhile_false.
      unfold notLineTerminator. cbn [atLineEnd] in Hend. cbn in Hend.
      now rewrite Hend. }
    destruct l as [|c l']; [discriminate Er|].
    cbn [app] in Hmatch |- *. rewrite scan_hit by exact Hmatch.
    exists (lastOr (Some c) l'). split; [|split].
    + intros _ _.
      destruct (lastOr_plain None [] (c :: l') ltac:(discriminate) Hl)
        as (z & Hz & Hlt).
      cbn [app] in Hz. rewrite lastOr_cons in Hz. rewrite Hz.
      cbn [atLineStart]. now rewrite Hlt.
    + discriminate.
    + cbn [hits flat_map app map]. f_equal.
      unfold stripMarker, String_replace.
      rewrite (replaceFrom_hit _ _ _ _ _ r); [reflexivity|].
      rewrite matchAt_prefix. exact Er.
  - assert (Hmiss : matchAt fl_bullet re_bullet prev (l ++ rest) = None)
      by (rewrite matchAt_bullet, Hp, Hmark; reflexivity).
    destruct l as [|c l'].
    + exists prev. split; [|split]; [contradiction | reflexivity | reflexivity].
    + cbn [app] in Hmiss |- *. rewrite scan_miss by exact Hmiss.
      pose proof Hl as Hl0. cbn [forallb] in Hl.
      apply andb_prop in Hl as [Hc Hl'].
      assert (Hnot : atLineStart fl_bullet (Some c) = false).
      { unfold notLineTerminator in Hc. cbn [atLineStart].
        now destruct (isLineTerminator c). }
      rewrite (scan_inside_line l' rest (Some c) Hl' Hnot).
      exists (lastOr (Some c) l'). split; [|split].
      * intros _ _.
        destruct (lastOr_plain None [] (c :: l') ltac:(discriminate) Hl0)
          as (z & Hz & Hlt).
        cbn [app] in Hz. rewrite lastOr_cons in Hz. rewrite Hz.
        cbn [atLineStart]. now rewrite Hlt.
      * discriminate.
      * cbn [hits flat_map app]. fold (hits (map Lit l' ++
          scan fl_bullet re_bullet 0 (lastOr (Some c) l') rest)).
        now rewrite hits_app, hits_Lit.
Qed.

End ByLine.

Section ByLineAll.

Lemma takeWhile_all p s : forallb p (takeWhile p s) = true.
Proof.
  induction s as [|c s IH]; cbn [takeWhile]; [reflexivity|].
  destruct (p c) eqn:E; [|reflexivity]. cbn [forallb]. now rewrite E.
Qed.

Lemma length_takeWhile_dropWhile p s :
  length s = (length (takeWhile p s) + length (dropWhile p s))%nat.
Proof. rewrite <- length_app. now rewrite take_drop_while. Qed.

Lemma scan_bullet_end prev : scan fl_bullet re_bullet 0 prev [] = [].
Proof.
  apply scan_end. rewrite matchAt_bullet.
  now destruct (atLineStart fl_bullet prev).
Qed.

Lemma bodiesOnTheirLines_line l t s :
  forallb notLineTerminator l = true -> isLineTerminator t = true ->
  bodiesOnTheirLines (l ++ t :: s) ->
  blankMarker l = false /\ bodiesOnTheirLines s.
Proof.
  unfold bodiesOnTheirLines. intros Hl Ht. rewrite linesOf_line by assumption.
  pose proof (linesOf_not_nil s) as Hne.
  destruct (linesOf s) as [|x xs]; [contradiction|].
  cbn [removelast]. intros H. now inversion H.
Qed.

Lemma scan_by_line n :
  forall s prev,
    (length s <= n)%nat ->
    atLineStart fl_bullet prev = true ->
    bodiesOnTheirLines s ->
    map stripMarker (hits (scan fl_bullet re_bullet 0 prev s))
    = omap (fun line => trim <$> afterMarker line) (linesOf s).
Proof.
  induction n as [|n IH]; intros s prev Hlen Hp Hb.
  - destruct s; [|cbn [length] in Hlen; lia].
    rewrite scan_bullet_end. reflexivity.
  - pose proof (take_drop_while notLineTerminator s) as Hs.
    pose proof (takeWhile_all notLineTerminator s) as Hl.
    pose proof (length_takeWhile_dropWhile notLineTerminator s) as Hlens.
    destruct (dropWhile notLineTerminator s) as [|t s'] eqn:Erest.
    + rewrite app_nil_r in Hs. rewrite <- Hs at 2. rewrite (linesOf_last _ Hl).
      rewrite <- (app_nil_r s).
      destruct (scan_first_line (takeWhile notLineTerminator s) [] prev Hl Hp
                  eq_refl ltac:(contradiction)) as (prev' & _ & _ & Hscan).
      rewrite Hs, app_nil_r in Hscan. rewrite app_nil_r, Hscan.
      rewrite scan_bullet_end. cbn [hits flat_map map omap list_omap].
      rewrite app_nil_r, Hs.
      now destruct (afterMarker s).
    + assert (Ht : isLineTerminator t = true).
      { apply dropWhile_head in Erest. unfold notLineTerminator in Erest.
        now destruct (isLineTerminator t). }
      set (l := takeWhile notLineTerminator s) in *.
      rewrite <- Hs in Hb |- *.
      destruct (bodiesOnTheirLines_line l t s' Hl Ht Hb) as [Hblank Hb'].
      rewrite (linesOf_line l t s' Hl Ht).
      destruct (scan_first_line l (t :: s') prev Hl Hp
                  ltac:(cbn [atLineEnd]; cbn; now rewrite Ht)
                  ltac:(intros _; exact Hblank))
        as (prev' & Hnot & Hsame & Hscan).
      rewrite Hscan.
      assert (Hmiss : matchAt fl_bullet re_bullet prev' (t :: s') = None).
      { rewrite matchAt_bullet, (lineTerminator_no_marker t s' Ht).
        now destruct (atLineStart fl_bullet prev'). }
      rewrite scan_miss by exact Hmiss. cbn [hits flat_map app].
      fold (hits (scan fl_bullet re_bullet 0 (Some t) s')).
      rewrite (IH s' (Some t)); [| |cbn; now rewrite Ht|exact Hb'].
      * cbn [omap list_omap]. now destruct (afterMarker l).
      * cbn [length] in Hlens. lia.
Qed.

(** Where no marker is left without a body before a line break, the
    extractor is the line-by-line reading. *)
Lemma extract_by_line text :
  bodiesOnTheirLines (withoutReasoning text) ->
  extractBulletPoints text = extractByLine text.
Proof.
  intros H. unfold extractBulletPoints, extractByLine.
  rewrite replace_think, hits_of_match.
  now apply (scan_by_line (length (withoutReasoning text))).
Qed.

(** So a text none of whose lines begins with a marker yields nothing, if
    none of its lines but the last is a bare marker. *)
Lemma unmarked_lines_extract_nil text :
  bodiesOnTheirLines (withoutReasoning text) ->
  Forall (fun l => afterMarker l = None) (linesOf (withoutReasoning text)) ->
  extractBulletPoints text = [].
Proof.
  intros Hb Hl. rewrite extract_by_line by exact Hb. unfold extractByLine.
  induction Hl as [|l ls Hnone _ IH]; [reflexivity|].
  cbn [omap list_omap]. rewrite Hnone. exact IH.
Qed.

End ByLineAll.

(** ** What the extractor returns *)

Section Extractor.

(** C1. On the example of the specification the extractor returns the three
    marked bodies in order, as the line-by-line reading does.  On a hyphen
    marker with an empty body followed by an unmarked line, the white space
    after the marker runs over the line break: the extractor returns the
    unmarked line, where the line-by-line reading keeps the marked line with
    its empty body and drops the other. *)
Theorem C1_extract_runs_over_line_break :
  extractBulletPoints specExample = [js "Do X"; js "Do Y"; js "Do Z"]
  /\ extractByLine specExample = [js "Do X"; js "Do Y"; js "Do Z"]
  /\ extractBulletPoints (js "- " ++ nl ++ js "Plain line") = [js "Plain line"]
  /\ extractByLine (js "- " ++ nl ++ js "Plain line") = [[]].
Proof. repeat split; vm_compute; reflexivity. Qed.

(** On a text in which the removal leaves no block, extracting from the
    cleaned text gives the same as extracting from the text. *)
Lemma extract_cleaned text :
  withoutReasoning (withoutReasoning text) = withoutReasoning text ->
  extractBulletPoints text = extractBulletPoints (withoutReasoning text).
Proof.
  intros H. unfold extractBulletPoints. rewrite !replace_think. now rewrite H.
Qed.

(** C3, as stated, fails where the removal of one block joins the two
    halves of a delimiter: the block that shows up in the cleaned text is
    not removed, the removal being a single pass, so the action inside it is
    extracted from the text and not from the cleaned text. *)
Lemma C3_joined_delimiter_is_kept :
  withoutReasoning joinedDelimiter
  = js "<think>" ++ nl ++ js "1. hidden" ++ nl ++ js "</think>" ++ nl
    ++ js "2. shown"
  /\ extractBulletPoints joinedDelimiter = [js "hidden"; js "shown"]
  /\ extractBulletPoints (withoutReasoning joinedDelimiter) = [js "shown"]
  /\ extractBulletPoints joinedDelimiter
     <> extractBulletPoints (withoutReasoning joinedDelimiter).
Proof.
  assert (H1 : extractBulletPoints joinedDelimiter = [js "hidden"; js "shown"])
    by (vm_compute; reflexivity).
  assert (H2 : extractBulletPoints (withoutReasoning joinedDelimiter)
               = [js "shown"]) by (vm_compute; reflexivity).
  split; [vm_compute; reflexivity|].
  split; [exact H1|]. split; [exact H2|].
  rewrite H1, H2. discriminate.
Qed.

(** C3, amended.  Extraction ignores the reasoning blocks: its result is
    that of the marker scan on the text from which every block, from an
    opening delimiter to the nearest closing one, in any letter case and
    across lines, has been removed in one pass from left to right.  It is
    the extraction of that cleaned text whenever the cleaned text has no
    block left, that is, whenever removing the blocks from it again changes
    nothing. *)
Theorem C3_reasoning_blocks_ignored text :
  extractBulletPoints text = markedLines (withoutReasoning text)
  /\ (withoutReasoning (withoutReasoning text) = withoutReasoning text ->
      extractBulletPoints text = extractBulletPoints (withoutReasoning text)).
Proof.
  split; [|apply extract_cleaned].
  unfold extractBulletPoints, markedLines. now rewrite replace_think.
Qed.

Lemma C3_reasoning_blocks_ignored_witness :
  let text := js "<THINK>" ++ nl ++ js "1. hidden" ++ nl ++ js "</think>"
              ++ js "1. Look" ++ nl ++ js "<think>- no</think>- Wait" in
  withoutReasoning text = js "1. Look" ++ nl ++ js "- Wait"
  /\ withoutReasoning (withoutReasoning text) = withoutReasoning text
  /\ extractBulletPoints text = [js "Look"; js "Wait"]
  /\ extractBulletPoints text = extractBulletPoints (withoutReasoning text).
Proof.
  intros text.
  assert (H : withoutReasoning (withoutReasoning text) = withoutReasoning text)
    by (vm_compute; reflexivity).
  split; [vm_compute; reflexivity|]. split; [exact H|].
  split; [vm_compute; reflexivity|].
  exact (proj2 (C3_reasoning_blocks_ignored text) H).
Defined.

(** C10. Re-extracting the numbered display of plain actions gives the
    actions back. *)
Theorem C10_numbered_roundtrip actions :
  Forall plainAction actions ->
  extractBulletPoints (numbered actions) = actions.
Proof.
  intros Hpl. pose proof (numbered_rendered actions) as Hr.
  unfold extractBulletPoints, numbered.
  rewrite replace_think. unfold withoutReasoning.
  rewrite removeReasoning_plain by (eapply hasOpening_rendered; eauto).
  rewrite hits_of_match.
  rewrite (hits_rendered _ actions Hr Hpl) by reflexivity.
  now apply map_strip_rendered.
Qed.

Lemma C10_numbered_roundtrip_witness :
  Forall plainAction [js "Do X"; js "Ask 2. why - now"]
  /\ extractBulletPoints (numbered [js "Do X"; js "Ask 2. why - now"])
     = [js "Do X"; js "Ask 2. why - now"].
Proof.
  assert (H : Forall plainAction [js "Do X"; js "Ask 2. why - now"]).
  { repeat constructor; try discriminate; vm_compute; reflexivity. }
  split; [exact H | exact (C10_numbered_roundtrip _ H)].
Defined.

End Extractor.

(** ** Runs of async functions *)

Section Runs.

Lemma exec_final {A} (m : async A) w tr w' st :
  exec m w tr w' st -> suspension st = None.
Proof. induction 1; auto. Qed.

Lemma exec_Ret_inv {A} (a : A) w tr w' st :
  exec (Ret a) w tr w' st -> tr = [] /\ w' = w /\ st = Returned a.
Proof. intros H. now inversion H. Qed.

Lemma exec_Throw_inv {A} e w tr w' (st : status A) :
  exec (Throw e) w tr w' st -> tr = [] /\ w' = w /\ st = Thrown e.
Proof. intros H. now inversion H. Qed.

Lemma exec_Get_inv {A} (k : World -> async A) w tr w' st :
  exec (Get k) w tr w' st -> exec (k w) w tr w' st.
Proof. intros H. now inversion H. Qed.

Lemma exec_Put_inv {A} w0 (m : async A) w tr w' st :
  exec (Put w0 m) w tr w' st -> exec m w0 tr w' st.
Proof. intros H. now inversion H. Qed.

Lemma exec_Call_inv {A} c (m : async A) w tr w' st :
  exec (Call c m) w tr w' st ->
  exists tr', tr = Called c :: tr' /\ exec m w tr' w' st.
Proof. intros H. inversion H; subst. eauto. Qed.

Lemma exec_Await_inv {A} c (k : outcome -> async A) w tr w' st :
  exec (Await c k) w tr w' st ->
  exists o w2 tr', tr = Called c :: Settled o :: tr' /\ exec (k o) w2 tr' w' st.
Proof. intros H. inversion H; subst. eauto. Qed.

(** A run, read off the synchronous steps of [run]. *)
Lemma exec_run {A} (m : async A) w tr wf st :
  exec m w tr wf st ->
  match run m w with
  | (w1, cs, Returned a) => tr = map Called cs /\ wf = w1 /\ st = Returned a
  | (w1, cs, Thrown e) => tr = map Called cs /\ wf = w1 /\ st = Thrown e
  | (w1, cs, Suspended c k) =>
      exists o w2 tr',
        tr = map Called cs ++ Settled o :: tr' /\ exec (k o) w2 tr' wf st
  end.
Proof.
  induction 1 as [a w|e w|k w tr w' st H IH|w0 m w tr w' st H IH
                 |c m w tr w' st H IH|c k o w w2 tr w' st H IH];
    cbn [run]; auto.
  - destruct (run m w) as [[w1 cs] [a|e|c' k]].
    + destruct IH as (-> & -> & ->). auto.
    + destruct IH as (-> & -> & ->). auto.
    + destruct IH as (o & w2 & tr' & -> & IH). exists o, w2, tr'. auto.
  - exists o, w2, tr. auto.
Qed.

Lemma exec_bind_inv {A B} (m : async A) (f : A -> async B) :
  forall w tr w' st,
    exec (bind m f) w tr w' st ->
    (exists e, exec m w tr w' (Thrown e) /\ st = Thrown e)
    \/ (exists a w1 tr1 tr2,
          exec m w tr1 w1 (Returned a) /\ exec (f a) w1 tr2 w' st
          /\ tr = tr1 ++ tr2).
Proof.
  induction m as [a|e|k IH|w0 m IH|c m IH|c k IH]; intros w tr w' st H;
    cbn [bind] in H.
  - right. exists a, w, [], tr. split; [constructor|]. auto.
  - apply exec_Throw_inv in H as (-> & -> & ->).
    left. exists e. split; [constructor | reflexivity].
  - apply exec_Get_inv, IH in H
      as [(e & He & ->)|(a & w1 & t1 & t2 & H1 & H2 & ->)].
    + left. exists e. split; [econstructor; eassumption | reflexivity].
    + right. exists a, w1, t1, t2. split; [econstructor; eassumption|]. auto.
  - apply exec_Put_inv, IH in H
      as [(e & He & ->)|(a & w1 & t1 & t2 & H1 & H2 & ->)].
    + left. exists e. split; [econstructor; eassumption | reflexivity].
    + right. exists a, w1, t1, t2. split; [econstructor; eassumption|]. auto.
  - apply exec_Call_inv in H as (tr' & -> & H). apply IH in H
      as [(e & He & ->)|(a & w1 & t1 & t2 & H1 & H2 & ->)].
    + left. exists e. split; [econstructor; eassumption | reflexivity].
    + right. exists a, w1, (Called c :: t1), t2. split; [econstructor; eassumption|]. auto.
  - apply exec_Await_inv in H as (o & w2 & tr' & -> & H). apply IH in H
      as [(e & He & ->)|(a & w1 & t1 & t2 & H1 & H2 & ->)].
    + left. exists e. split; [econstructor; eassumption | reflexivity].
    + right. exists a, w1, (Called c :: Settled o :: t1), t2.
      split; [econstructor; eassumption|]. auto.
Qed.

Lemma exec_try_catch_inv {A} (m : async A) (h : string -> async A) :
  forall w tr w' st,
    exec (try_catch m h) w tr w' st ->
    (exists a, exec m w tr w' (Returned a) /\ st = Returned a)
    \/ (exists e w1 tr1 tr2,
          exec m w tr1 w1 (Thrown e) /\ exec (h e) w1 tr2 w' st
          /\ tr = tr1 ++ tr2).
Proof.
  induction m as [a|e|k IH|w0 m IH|c m IH|c k IH]; intros w tr w' st H;
    cbn [try_catch] in H.
  - apply exec_Ret_inv in H as (-> & -> & ->).
    left. exists a. split; [constructor | reflexivity].
  - right. exists e, w, [], tr. split; [constructor|]. auto.
  - apply exec_Get_inv, IH in H
      as [(a & Ha & ->)|(e & w1 & t1 & t2 & H1 & H2 & ->)].
    + left. exists a. split; [econstructor; eassumption | reflexivity].
    + right. exists e, w1, t1, t2. split; [econstructor; eassumption|]. auto.
  - apply exec_Put_inv, IH in H
      as [(a & Ha & ->)|(e & w1 & t1 & t2 & H1 & H2 & ->)].
    + left. exists a. split; [econstructor; eassumption | reflexivity].
    + right. exists e, w1, t1, t2. split; [econstructor; eassumption|]. auto.
  - apply exec_Call_inv in H as (tr' & -> & H). apply IH in H
      as [(a & Ha & ->)|(e & w1 & t1 & t2 & H1 & H2 & ->)].
    + left. exists a. split; [econstructor; eassumption | reflexivity].
    + right. exists e, w1, (Called c :: t1), t2. split; [econstructor; eassumption|]. auto.
  - apply exec_Await_inv in H as (o & w2 & tr' & -> & H). apply IH in H
      as [(a & Ha & ->)|(e & w1 & t1 & t2 & H1 & H2 & ->)].
    + left. exists a. split; [econstructor; eassumption | reflexivity].
    + right. exists e, w1, (Called c :: Settled o :: t1), t2.
      split; [econstructor; eassumption|]. auto.
Qed.

(** Every run of a try statement with a finally block is a run of the
    protected part followed by a run of the block. *)
Lemma exec_try_finally_inv {A} (m : async A) (fin : async unit) :
  forall w tr w' st,
    exec (try_finally m fin) w tr w' st ->
    exists w1 tr1 st1 tr2 st2,
      exec m w tr1 w1 st1 /\ exec fin w1 tr2 w' st2 /\ tr = tr1 ++ tr2
      /\ st = match st2 with
              | Thrown e => Thrown e
              | _ => st1
              end.
Proof.
  induction m as [a|e|k IH|w0 m IH|c m IH|c k IH]; intros w tr w' st H;
    cbn [try_finally] in H.
  - apply exec_bind_inv in H
      as [(e & He & ->)|([] & w1 & t1 & t2 & H1 & H2 & ->)].
    + exists w, [], (Returned a), tr, (Thrown e).
      repeat split; [constructor | exact He].
    + apply exec_Ret_inv in H2 as (-> & -> & ->).
      exists w, [], (Returned a), t1, (Returned tt).
      rewrite app_nil_r. repeat split; [constructor | exact H1].
  - apply exec_bind_inv in H
      as [(e' & He & ->)|([] & w1 & t1 & t2 & H1 & H2 & ->)].
    + exists w, [], (Thrown e), tr, (Thrown e').
      repeat split; [constructor | exact He].
    + apply exec_Throw_inv in H2 as (-> & -> & ->).
      exists w, [], (Thrown e), t1, (Returned tt).
      rewrite app_nil_r. repeat split; [constructor | exact H1].
  - apply exec_Get_inv, IH in H
      as (w1 & t1 & s1 & t2 & s2 & H1 & H2 & -> & ->).
    exists w1, t1, s1, t2, s2. repeat split; [econstructor; eassumption | exact H2].
  - apply exec_Put_inv, IH in H
      as (w1 & t1 & s1 & t2 & s2 & H1 & H2 & -> & ->).
    exists w1, t1, s1, t2, s2. repeat split; [econstructor; eassumption | exact H2].
  - apply exec_Call_inv in H as (tr' & -> & H). apply IH in H
      as (w1 & t1 & s1 & t2 & s2 & H1 & H2 & -> & ->).
    exists w1, (Called c :: t1), s1, t2, s2.
    repeat split; [econstructor; eassumption | exact H2].
  - apply exec_Await_inv in H as (o & w2 & tr' & -> & H). apply IH in H
      as (w1 & t1 & s1 & t2 & s2 & H1 & H2 & -> & ->).
    exists w1, (Called c :: Settled o :: t1), s1, t2, s2.
    repeat split; [econstructor; eassumption | exact H2].
Qed.

Lemma rethrows_bind {A B} (m : async A) (f : A -> async B) :
  rethrows m -> (forall a, rethrows (f a)) -> rethrows (bind m f).
Proof.
  intros Hm Hf. induction Hm as [a|e|k Hk IH|w m Hm IH|c m Hm IH|c k He Hk IH];
    cbn [bind]; try (constructor; auto; fail).
  - apply Hf.
  - constructor; [|exact IH]. intros e. now rewrite He.
Qed.

Lemma rethrows_await c : rethrows (await c).
Proof. constructor; [reflexivity|]. intros v. constructor. Qed.

Lemma rethrows_modify f : rethrows (modify f).
Proof. repeat constructor. Qed.

Lemma rethrows_call c : rethrows (call c).
Proof. repeat constructor. Qed.

(** In a run of such a function a rejection is the last event, and the
    function ends by throwing it. *)
Lemma exec_rethrows {A} (m : async A) w tr w' st :
  exec m w tr w' st -> rethrows m ->
  forall pre e post,
    tr = pre ++ Settled (Rejected e) :: post ->
    post = [] /\ st = Thrown e.
Proof.
  induction 1 as [a w|e0 w|k w tr w' st H IH|w0 m w tr w' st H IH
                 |c m w tr w' st H IH|c k o w w2 tr w' st H IH];
    intros Hr pre e post Htr.
  - now destruct pre.
  - now destruct pre.
  - inversion Hr; subst. eauto.
  - inversion Hr; subst. eauto.
  - inversion Hr; subst. destruct pre as [|x pre]; [discriminate|].
    inversion Htr; subst. eauto.
  - inversion Hr as [| | | | |? ? He Hk]; subst.
    destruct pre as [|x pre]; [discriminate|].
    inversion Htr as [[Hx Htr']]; subst x.
    destruct pre as [|y pre].
    + inversion Htr'; subst. rewrite He in H.
      apply exec_Throw_inv in H as (-> & -> & ->). auto.
    + inversion Htr' as [[Hy Htr'']]; subst y.
      destruct o as [v|e1].
      * eapply IH; [apply Hk | exact Htr''].
      * rewrite He in H. apply exec_Throw_inv in H as (-> & -> & ->).
        now destruct pre.
Qed.

End Runs.

(** ** The generation flow *)

Section Flow.

Ltac rethrows_step :=
  intros;
  lazymatch goal with
  | |- rethrows (bind _ _) => apply rethrows_bind
  | |- rethrows (await _) => apply rethrows_await
  | |- rethrows (modify _) => apply rethrows_modify
  | |- rethrows (call _) => apply rethrows_call
  | |- rethrows (match ?x with _ => _ end) => destruct x
  | |- rethrows _ => constructor
  end.

Lemma rethrows_upsert id content strategy actions :
  rethrows (gr_upsert id content strategy actions).
Proof. unfold gr_upsert, get. repeat rethrows_step. Qed.

Lemma rethrows_afterSendRequest id rest :
  rethrows (gr_afterSendRequest id rest).
Proof.
  unfold gr_afterSendRequest, get.
  repeat first [apply rethrows_upsert | rethrows_step].
Qed.

Lemma rethrows_afterBuildPrompt id promptResult :
  rethrows (gr_afterBuildPrompt id promptResult).
Proof.
  unfold gr_afterBuildPrompt, get.
  repeat first [apply rethrows_afterSendRequest | rethrows_step].
Qed.

Lemma rethrows_try id : rethrows (gr_try id).
Proof.
  unfold gr_try, get.
  repeat first [apply rethrows_afterBuildPrompt | rethrows_step].
Qed.

(** Past its three early returns, the function is its try statement. *)
Lemma exec_generateRoadway_guarded id w tr wf st :
  profileId (settings w) <> [] ->
  promptPreset (settings w) <> [] ->
  is_Some (chatAt (chat w) id) ->
  exec (generateRoadway id) w tr wf st ->
  exec (gr_guarded id (gr_try id)) w tr wf st.
Proof.
  intros Hp Hs [m Hm] H. unfold generateRoadway in H. cbn [bind get] in H.
  apply exec_Get_inv in H.
  destruct (profileId (settings w)); [contradiction|].
  destruct (promptPreset (settings w)); [contradiction|].
  now rewrite Hm in H.
Qed.

Lemma exec_finally id w tr wf st :
  exec (gr_finally id) w tr wf st ->
  tr = [] /\ wf = cleanup id w /\ st = Returned tt.
Proof. intros H. apply exec_run in H. exact H. Qed.

Lemma exec_catch e w tr wf st :
  exec (gr_catch e) w tr wf st ->
  exists o,
    tr = [Called (console_error e);
          Called (st_echo echo_error (String.append "Error: " e));
          Settled o]
    /\ st = match o with
            | Fulfilled _ => Returned tt
            | Rejected e' => Thrown e'
            end.
Proof.
  intros H. apply exec_run in H. cbn in H.
  destruct H as (o & w2 & tr' & -> & H). exists o.
  apply exec_run in H. destruct o; cbn in H; destruct H as (-> & _ & ->); auto.
Qed.

(** Every run of the try statement: the block runs to its end and the
    cleanup follows; or the block throws, the error is logged and shown,
    and the cleanup follows. *)
Lemma exec_guarded id body w tr wf st :
  exec (gr_guarded id body) w tr wf st ->
  exists w1,
    wf = cleanup id w1
    /\ (exec body w tr w1 (Returned tt) /\ st = Returned tt
        \/ exists trb w0 e o,
             exec body w trb w0 (Thrown e)
             /\ tr = trb ++ [Called (console_error e);
                             Called (st_echo echo_error (String.append "Error: " e));
                             Settled o]
             /\ st = match o with
                     | Fulfilled _ => Returned tt
                     | Rejected e' => Thrown e'
                     end).
Proof.
  intros H. unfold gr_guarded in H.
  apply exec_try_finally_inv in H
    as (w1 & t1 & s1 & t2 & s2 & H1 & H2 & -> & ->).
  apply exec_finally in H2 as (-> & -> & ->). rewrite app_nil_r.
  exists w1. split; [reflexivity|].
  apply exec_try_catch_inv in H1
    as [([] & Ha & ->)|(e & w0 & tb & tc & Hb & Hc & ->)].
  - left. auto.
  - right. apply exec_catch in Hc as (o & -> & ->). exists tb, w0, e, o. auto.
Qed.

Lemma cleanup_released id w :
  (id ∉ pendingRequests (cleanup id w)) /\ spinning (cleanup id w) = false.
Proof.
  split; [|reflexivity]. cbn. rewrite elem_of_difference.
  intros [_ H]. apply H. now apply elem_of_singleton.
Qed.

(** C8. Every run of a generation flow that got past the duplicate check
    ends with the cleanup: the target id is out of the in-flight set and the
    busy indicator is off.  Either the try block ran to its end without a
    rejection, or an error was thrown in it (each rejection of an awaited
    host call is such an error and ends the block), the error was written
    to the console and shown as an error notice, and the flow returns
    normally once that notice is shown. *)
Theorem C8_cleanup_on_every_termination id w tr wf st :
  profileId (settings w) <> [] ->
  promptPreset (settings w) <> [] ->
  is_Some (chatAt (chat w) id) ->
  id ∉ pendingRequests w ->
  exec (generateRoadway id) w tr wf st ->
  (exists tr', tr = Called (buildPrompt id (maxContextOf (settings w))) :: tr')
  /\ ((id ∉ pendingRequests wf) /\ spinning wf = false)
  /\ (st = Returned tt /\ (forall e, ~ (Settled (Rejected e) ∈ tr))
      \/ exists trb e o,
           tr = trb ++ [Called (console_error e);
                        Called (st_echo echo_error (String.append "Error: " e));
                        Settled o]
           /\ (forall e', Settled (Rejected e') ∈ trb ->
                 e' = e /\ exists pre, trb = pre ++ [Settled (Rejected e')])
           /\ st = match o with
                   | Fulfilled _ => Returned tt
                   | Rejected e' => Thrown e'
                   end).
Proof.
  intros Hp Hs Hm Hnew H.
  apply exec_generateRoadway_guarded in H; [|assumption..].
  split; [|split].
  - apply exec_run in H. unfold gr_guarded, gr_try in H.
    cbn [bind get run try_catch try_finally] in H.
    rewrite bool_decide_eq_false_2 in H by exact Hnew.
    cbn in H. destruct H as (o & w2 & tr' & -> & _). eauto.
  - apply exec_guarded in H as (w1 & -> & _). apply cleanup_released.
  - apply exec_guarded in H
      as (w1 & _ & [(Hb & ->)|(trb & w0 & e & o & Hb & -> & ->)]).
    + left. split; [reflexivity|]. intros e He.
      apply list_elem_of_split in He as (pre & post & ->).
      destruct (exec_rethrows _ _ _ _ _ Hb (rethrows_try id) _ _ _ eq_refl)
        as [_ Hst]. discriminate Hst.
    + right. exists trb, e, o. repeat split.
      * apply list_elem_of_split in H as (pre & post & ->).
        destruct (exec_rethrows _ _ _ _ _ Hb (rethrows_try id) _ _ _ eq_refl)
          as [_ Hst]. now inversion Hst.
      * apply list_elem_of_split in H as (pre & post & ->).
        destruct (exec_rethrows _ _ _ _ _ Hb (rethrows_try id) _ _ _ eq_refl)
          as [-> _]. eauto.
Qed.

(** A request for a message that is already in flight: it makes no call but
    notices and console output, and however it ends, its own cleanup has
    taken the id out of the in-flight set and cleared the busy indicator. *)
Lemma duplicate_request_runs_cleanup id w tr wf st :
  profileId (settings w) <> [] ->
  promptPreset (settings w) <> [] ->
  is_Some (chatAt (chat w) id) ->
  id ∈ pendingRequests w ->
  exec (generateRoadway id) w tr wf st ->
  (exists tr', tr = Called (st_echo echo_warning msgInProgress) :: tr')
  /\ (forall c, Called c ∈ tr -> isNotice c = true \/ exists e, c = console_error e)
  /\ (id ∉ pendingRequests wf) /\ spinning wf = false.
Proof.
  intros Hp Hs Hm Hin H.
  apply exec_generateRoadway_guarded in H; [|assumption..].
  apply exec_guarded in H as (w1 & -> & H).
  assert (Hbody : forall trb w0 stb,
            exec (gr_try id) w trb w0 stb ->
            exists o, trb = [Called (st_echo echo_warning msgInProgress); Settled o]).
  { intros trb w0 stb Hb. apply exec_run in Hb. unfold gr_try in Hb.
    cbn [bind get run] in Hb. rewrite bool_decide_eq_true_2 in Hb by exact Hin.
    cbn in Hb. destruct Hb as (o & w2 & tr' & -> & Hb). exists o.
    apply exec_run in Hb. destruct o; cbn in Hb; now destruct Hb as (-> & _). }
  split; [|split; [|apply cleanup_released]].
  - destruct H as [(Hb & _)|(trb & w0 & e & o & Hb & -> & _)];
      destruct (Hbody _ _ _ Hb) as (o' & ->); eauto.
  - intros c Hc.
    destruct H as [(Hb & _)|(trb & w0 & e & o & Hb & -> & _)];
      destruct (Hbody _ _ _ Hb) as (o' & ->); cbn [app] in Hc;
      repeat (apply elem_of_cons in Hc as [Hc|Hc];
              [inversion Hc; subst; eauto|]);
      now apply elem_of_nil in Hc.
Qed.

End Flow.

(** ** Every generation flow ends *)

Section Ends.

Lemma within_mono {A} n n' (m : async A) :
  within n m -> (n <= n')%nat -> within n' m.
Proof.
  intros H. revert n'. induction H as [n a|n e|n k Hk IH|n w m Hm IH
                                      |n c m Hm IH|n c k Hk IH];
    intros n' Hle; try (constructor; auto; fail).
  destruct n' as [|n']; [lia|]. constructor. intros o. apply IH. lia.
Qed.

Lemma within_bind {A B} a b (m : async A) (f : A -> async B) :
  within a m -> (forall x, within b (f x)) -> within (a + b) (bind m f).
Proof.
  intros Hm Hf. induction Hm as [n x|n e|n k Hk IH|n w m Hm IH
                                |n c m Hm IH|n c k Hk IH];
    cbn [bind]; try (constructor; auto; fail).
  apply (within_mono b); [apply Hf | lia].
Qed.

Lemma within_try_catch {A} a b (m : async A) (h : string -> async A) :
  within a m -> (forall e, within b (h e)) -> within (a + b) (try_catch m h).
Proof.
  intros Hm Hh. induction Hm as [n x|n e|n k Hk IH|n w m Hm IH
                                |n c m Hm IH|n c k Hk IH];
    cbn [try_catch]; try (constructor; auto; fail).
  apply (within_mono b); [apply Hh | lia].
Qed.

Lemma within_try_finally {A} a (m : async A) (fin : async unit) :
  within a m -> within 0 fin -> within a (try_finally m fin).
Proof.
  intros Hm Hf. induction Hm as [n x|n e|n k Hk IH|n w m Hm IH
                                |n c m Hm IH|n c k Hk IH];
    cbn [try_finally]; try (constructor; auto; fail).
  - apply (within_mono (0 + 0)); [|lia].
    apply within_bind; [exact Hf | constructor].
  - apply (within_mono (0 + 0)); [|lia].
    apply within_bind; [exact Hf | constructor].
Qed.

Lemma within_await c : within 1 (await c).
Proof. constructor. intros []; constructor. Qed.

(** A function that passes at most [n] awaits is not suspended any more
    once the host has answered [n] times. *)
Lemma complete_within {A} n (m : async A) :
  within n m ->
  forall reply w, suspension (complete n reply m w).2 = None.
Proof.
  intros H reply. induction H as [n x|n e|n k Hk IH|n w0 m Hm IH
                                 |n c m Hm IH|n c k Hk IH]; intros w.
  - destruct n; reflexivity.
  - destruct n; reflexivity.
  - specialize (IH w w). destruct n; exact IH.
  - specialize (IH w0). destruct n; exact IH.
  - specialize (IH w). revert IH. destruct n; cbn [complete run];
      destruct (run m w) as [[w1 cs] [x|e|c' k]]; cbn; auto.
    intros IH. destruct (complete n reply (k (reply c')) w1) as [[w2 cs2] st2].
    exact IH.
  - cbn [complete run]. specialize (IH (reply c) w).
    destruct (complete n reply (k (reply c)) w) as [[w2 cs2] st2]. exact IH.
Qed.

Lemma within_upsert id content strategy actions :
  within 1 (gr_upsert id content strategy actions).
Proof.
  unfold gr_upsert, get, modify, call.
  apply (within_bind 0); [repeat constructor|]. intros w.
  apply (within_bind 0).
  { destruct (findIndex _ _); apply (within_bind 0); repeat constructor. }
  intros _. apply (within_bind 0).
  { destruct (autoOpen _); repeat constructor. }
  intros _. apply (within_bind 0); [repeat constructor|]. intros _.
  apply (within_bind 1 0); [apply within_await | constructor].
Qed.

Lemma within_afterSendRequest id rest :
  within 2 (gr_afterSendRequest id rest).
Proof.
  unfold gr_afterSendRequest, get.
  apply (within_bind 0); [repeat constructor|]. intros w.
  apply (within_bind 0); [destruct rest; constructor|]. intros content.
  apply (within_bind 1 1); [|intros; apply within_upsert].
  destruct (extractionStrategy <$> _) as [[]|]; try constructor.
  destruct (extractBulletPoints content); [|constructor].
  apply (within_bind 1 0); [apply within_await | constructor].
Qed.

Lemma within_afterBuildPrompt id promptResult :
  within 3 (gr_afterBuildPrompt id promptResult).
Proof.
  unfold gr_afterBuildPrompt, get.
  apply (within_bind 0); [repeat constructor|]. intros w.
  apply (within_bind 0); [destruct promptResult; constructor|]. intros messages.
  apply (within_bind 0);
    [destruct (_ !! _); [|destruct (bool_decide _)]; constructor|].
  intros template.
  apply (within_bind 1 2); [apply within_await|].
  intros; apply within_afterSendRequest.
Qed.

Lemma within_try id : within 4 (gr_try id).
Proof.
  unfold gr_try, get, modify.
  apply (within_bind 0); [repeat constructor|]. intros w.
  destruct (bool_decide _).
  - apply (within_mono (1 + 0)); [|lia].
    apply within_bind; [apply within_await | constructor].
  - apply (within_bind 0); [repeat constructor|]. intros _.
    apply (within_bind 0); [repeat constructor|]. intros _.
    apply (within_bind 1 3); [apply within_await|].
    intros; apply within_afterBuildPrompt.
Qed.

Lemma within_generateRoadway id : within 5 (generateRoadway id).
Proof.
  unfold generateRoadway, get.
  apply (within_bind 0); [repeat constructor|]. intros w.
  destruct (profileId (settings w)).
  { apply (within_mono (1 + 0)); [|lia].
    apply within_bind; [apply within_await | constructor]. }
  destruct (promptPreset (settings w)).
  { apply (within_mono (1 + 0)); [|lia].
    apply within_bind; [apply within_await | constructor]. }
  destruct (chatAt (chat w) id); [|constructor].
  unfold gr_guarded. apply within_try_finally.
  - apply (within_try_catch 4 1); [apply within_try|].
    intros e. unfold gr_catch, call.
    apply (within_bind 0); [repeat constructor|]. intros _.
    apply (within_bind 1 0); [apply within_await | constructor].
  - unfold gr_finally, modify. apply (within_bind 0); repeat constructor.
Qed.

(** Whatever the host answers, a generation flow has ended once five of its
    awaits are settled. *)
Lemma generateRoadway_ends id reply w :
  suspension (complete 5 reply (generateRoadway id) w).2 = None.
Proof. apply complete_within, within_generateRoadway. Qed.

End Ends.

(** ** A generation served by the host *)

Section Served.

Lemma complete_S {A} n reply (m : async A) w :
  complete (S n) reply m w
  = match run m w with
    | (w', cs, Suspended c k) =>
        let '(w'', cs', st) := complete n reply (k (reply c)) w' in
        (w'', cs ++ cs', st)
    | r => r
    end.
Proof. reflexivity. Qed.

(** A run depends on the function through its synchronous steps only. *)
Lemma complete_run {A} n reply (m m' : async A) w :
  run m w = run m' w -> complete n reply m w = complete n reply m' w.
Proof. intros H. destruct n; cbn [complete]; now rewrite H. Qed.

(** The upsert and the save, then the cleanup. *)
Lemma complete_upsert n reply id content strategy actions w v :
  reply saveChat = Fulfilled v ->
  complete (S n) reply (gr_guarded id (gr_upsert id content strategy actions)) w
  = (cleanup id (set_chat (upsertedChat w id content strategy actions) w),
     upsertCalls w id content strategy actions,
     Returned tt).
Proof.
  intros Hsave. rewrite complete_S.
  unfold gr_guarded, gr_upsert, upsertedChat, upsertCalls.
  fold (innerTextOf content actions). fold (shownOptions strategy actions).
  cbn [bind get run try_catch try_finally].
  destruct (findIndex (isRoadwayFor id) (chat w)) as [i|];
    destruct (autoOpen (settings w)) eqn:Eo;
    cbn [bind get run try_catch try_finally modify call await settings
         set_chat app];
    rewrite ?Eo;
    cbn [bind get run try_catch try_finally modify call await settings
         set_chat app];
    rewrite Hsave; destruct n; reflexivity.
Qed.

(** From the reply of the model on. *)
Lemma complete_afterSendRequest n reply id content w v v' :
  reply (st_echo echo_warning msgNoBullets) = Fulfilled v ->
  reply saveChat = Fulfilled v' ->
  let strategy := selectedStrategy w in
  let actions := actionsOf strategy content in
  complete (S (S n)) reply
           (gr_guarded id (gr_afterSendRequest id (VData content))) w
  = (cleanup id (set_chat (upsertedChat w id content strategy actions) w),
     warningCalls strategy actions
       ++ upsertCalls w id content strategy actions,
     Returned tt).
Proof.
  intros Hecho Hsave strategy actions. subst strategy actions.
  unfold selectedStrategy.
  destruct (promptPresets (settings w) !! promptPreset (settings w))
    as [p|] eqn:Ep; cbn [fmap option_fmap option_map].
  2:{ cbn [actionsOf warningCalls app].
      rewrite <- (complete_upsert (S n) reply id content None [] w v' Hsave).
      apply complete_run. unfold gr_guarded, gr_afterSendRequest.
      cbn [bind get run try_catch try_finally]. rewrite Ep. reflexivity. }
  destruct (extractionStrategy p) eqn:Es.
  2:{ cbn [actionsOf warningCalls app].
      rewrite <- (complete_upsert (S n) reply id content (Some none) [] w v' Hsave).
      apply complete_run. unfold gr_guarded, gr_afterSendRequest.
      cbn [bind get run try_catch try_finally]. rewrite Ep.
      cbn [fmap option_fmap option_map]. rewrite Es. reflexivity. }
  cbn [actionsOf].
  destruct (extractBulletPoints content) as [|a actions] eqn:Ex;
    cbn [warningCalls app].
  - rewrite complete_S. unfold gr_guarded, gr_afterSendRequest.
    cbn [bind get run try_catch try_finally]. rewrite Ep.
    cbn [fmap option_fmap option_map]. rewrite Es, Ex.
    cbn [bind get run try_catch try_finally await]. rewrite Hecho.
    cbn [bind].
    change (try_finally (try_catch (gr_upsert id content (Some bullet) []) gr_catch)
              (gr_finally id))
      with (gr_guarded id (gr_upsert id content (Some bullet) [])).
    rewrite (complete_upsert n reply id content (Some bullet) [] w v' Hsave).
    reflexivity.
  - rewrite <- (complete_upsert (S n) reply id content (Some bullet)
                                (a :: actions) w v' Hsave).
    apply complete_run. unfold gr_guarded, gr_afterSendRequest.
    cbn [bind get run try_catch try_finally]. rewrite Ep.
    cbn [fmap option_fmap option_map]. rewrite Es, Ex. reflexivity.
Qed.

Lemma upsertedChat_started id w i content strategy actions :
  upsertedChat (started id w) i content strategy actions
  = upsertedChat w i content strategy actions.
Proof. reflexivity. Qed.

Lemma upsertCalls_started id w i content strategy actions :
  upsertCalls (started id w) i content strategy actions
  = upsertCalls w i content strategy actions.
Proof. reflexivity. Qed.

Lemma selectedStrategy_started id w :
  selectedStrategy (started id w) = selectedStrategy w.
Proof. reflexivity. Qed.

(** A whole generation for a message with nothing in flight: the prompt is
    built, the request is sent, and the reply is dealt with. *)
Lemma complete_generateRoadway reply id text w :
  profileId (settings w) <> [] ->
  promptPreset (settings w) <> [] ->
  is_Some (chatAt (chat w) id) ->
  id ∉ pendingRequests w ->
  is_Some (promptPresets (settings w) !! promptPreset (settings w)) ->
  serves reply text ->
  let strategy := selectedStrategy w in
  let actions := actionsOf strategy text in
  exists result p,
    promptPresets (settings w) !! promptPreset (settings w) = Some p
    /\ complete 4 reply (generateRoadway id) w
       = (cleanup id
            (set_chat (upsertedChat w id text strategy actions) (started id w)),
          [buildPrompt id (maxContextOf (settings w));
           sendRequest (profileId (settings w))
             (result ++ [{| pm_content := substituteParams (host w) (Some (content p));
                            pm_role := messageRole (settings w) |}])
             (maxResponseToken (settings w))]
            ++ warningCalls strategy actions
            ++ upsertCalls w id text strategy actions,
          Returned tt).
Proof.
  intros Hp Hs [m Hm] Hnew [p Hpre] (Hb & Hsend & Hecho & [vs Hsave]).
  intros strategy actions.
  destruct (Hb id (maxContextOf (settings w))) as [result Hres].
  destruct (Hecho echo_warning msgNoBullets) as [ve Hwarn].
  exists result, p. split; [exact Hpre|].
  rewrite complete_S. unfold generateRoadway. cbn [bind get run].
  destruct (profileId (settings w)) eqn:Epid; [contradiction|].
  destruct (promptPreset (settings w)) eqn:Epre; [contradiction|].
  rewrite Hm. unfold gr_guarded at 1, gr_try.
  cbn [bind get run try_catch try_finally].
  rewrite bool_decide_eq_false_2 by exact Hnew.
  cbn [bind get run try_catch try_finally modify await].
  rewrite Hres. fold (started id w).
  rewrite complete_S. unfold gr_afterBuildPrompt.
  cbn [bind get run try_catch try_finally await].
  change (settings (started id w)) with (settings w).
  change (host (started id w)) with (host w).
  rewrite Epre, Hpre. cbn [bind get run try_catch try_finally await].
  rewrite Hsend. cbn [bind].
  change (try_finally
            (try_catch (gr_afterSendRequest id (VData text)) gr_catch)
            (gr_finally id))
    with (gr_guarded id (gr_afterSendRequest id (VData text))).
  rewrite (complete_afterSendRequest 0 reply id text (started id w) ve vs
             Hwarn Hsave).
  rewrite selectedStrategy_started, upsertedChat_started, upsertCalls_started.
  rewrite Epid. reflexivity.
Qed.

End Served.

(** ** The annotation after a generation *)

Section Annotation.

Lemma findIndex_Some {A} (p : A -> bool) (l : list A) i :
  findIndex p l = Some i -> exists x, l !! i = Some x /\ p x = true.
Proof.
  revert i. induction l as [|a l IH]; intros i; cbn [findIndex]; [discriminate|].
  destruct (p a) eqn:E.
  - intros [= <-]. exists a. auto.
  - destruct (findIndex p l) as [i'|]; [|discriminate].
    intros [= <-]. destruct (IH _ eq_refl) as (x & Hx & Hp). exists x. auto.
Qed.

Lemma findIndex_alter {A} (p : A -> bool) (f : A -> A) (l : list A) i :
  (forall x, p (f x) = p x) ->
  findIndex p (alter f i l) = findIndex p l.
Proof.
  intros Hf. revert i. induction l as [|a l IH]; intros i; [reflexivity|].
  destruct i as [|i]; cbn [alter list_alter findIndex].
  - now rewrite Hf.
  - destruct (p a); [reflexivity|]. now rewrite (IH i).
Qed.

Lemma findIndex_snoc {A} (p : A -> bool) (l : list A) x :
  findIndex p l = None -> p x = true ->
  findIndex p (l ++ [x]) = Some (length l).
Proof.
  intros Hl Hx. induction l as [|a l IH]; cbn [findIndex app length].
  - now rewrite Hx.
  - cbn [findIndex] in Hl. destruct (p a); [discriminate|].
    destruct (findIndex p l); [discriminate|]. now rewrite IH.
Qed.

Lemma isRoadwayFor_updateMessage id html raw actions m :
  isRoadwayFor id (updateMessage html raw actions m) = isRoadwayFor id m.
Proof. unfold isRoadwayFor. cbn. now destruct (extra m). Qed.

Lemma isRoadwayFor_freshMessage w id html inner actions :
  isRoadwayFor id (freshMessage w id html inner actions) = true.
Proof. unfold isRoadwayFor. cbn. apply Z.eqb_refl. Qed.

(** After the upsert the annotation of the message is found again, and it
    carries the markup, the options and the target of this generation. *)
Lemma upsertedChat_annotation w id raw strategy actions :
  exists i m,
    findIndex (isRoadwayFor id) (upsertedChat w id raw strategy actions) = Some i
    /\ upsertedChat w id raw strategy actions !! i = Some m
    /\ mes m = Markup (formatResponse (settings w) (innerTextOf raw actions)
                                      (shownOptions strategy actions) "")
    /\ extra m ≫= roadway_options = Some (map Some actions)
    /\ extra m ≫= roadway_target_chat = Some id.
Proof.
  unfold upsertedChat.
  destruct (findIndex (isRoadwayFor id) (chat w)) as [i|] eqn:E.
  - destruct (findIndex_Some _ _ _ E) as (m & Hm & Hp).
    exists i, (updateMessage
                 (formatResponse (settings w) (innerTextOf raw actions)
                                 (shownOptions strategy actions) "")
                 raw actions m).
    rewrite findIndex_alter by (intros; apply isRoadwayFor_updateMessage).
    rewrite list_lookup_alter_eq, Hm. repeat split; [exact E|..].
    + unfold isRoadwayFor in Hp. cbn.
      destruct (extra m) as [e|]; [reflexivity | discriminate Hp].
    + unfold isRoadwayFor in Hp. cbn.
      destruct (extra m) as [e|]; [|discriminate Hp]. cbn in Hp |- *.
      destruct (roadway_target_chat e) as [t|]; [|discriminate Hp].
      apply Z.eqb_eq in Hp. now subst.
  - eexists (length (chat w)), _.
    rewrite findIndex_snoc by (trivial; apply isRoadwayFor_freshMessage).
    rewrite list_lookup_middle by reflexivity. repeat split.
Qed.

End Annotation.

(** ** What a generation leaves in the chat and in the guard *)

Section Generation.

Ltac absurd_elem H :=
  lazymatch type of H with
  | _ ∈ _ ++ _ => apply elem_of_app in H as [H|H]; absurd_elem H
  | _ ∈ _ :: _ =>
      apply elem_of_cons in H as [H|H]; [discriminate H | absurd_elem H]
  | _ ∈ [] => now apply elem_of_nil in H
  | _ ∈ (if ?b then _ else _) => destruct b; absurd_elem H
  | _ ∈ match ?x with _ => _ end => destruct x; absurd_elem H
  end.

Lemma serves_sampleReply text : serves (sampleReply text) text.
Proof. repeat split; intros; eexists; reflexivity. Qed.

(** C4. A generation for a message that already has an annotation changes
    that annotation in place: the chat keeps its length, no message is
    added, every other message is as before, and the annotation then stores
    the action list of this generation (and the reply it was extracted
    from). *)
Theorem C4_annotation_updated_in_place reply id text w i :
  profileId (settings w) <> [] ->
  promptPreset (settings w) <> [] ->
  is_Some (chatAt (chat w) id) ->
  id ∉ pendingRequests w ->
  is_Some (promptPresets (settings w) !! promptPreset (settings w)) ->
  serves reply text ->
  findIndex (isRoadwayFor id) (chat w) = Some i ->
  exists w' cs,
    complete 4 reply (generateRoadway id) w = (w', cs, Returned tt)
    /\ length (chat w') = length (chat w)
    /\ (forall m a, ~ (addOneMessage m a ∈ cs))
    /\ (forall j, j <> i -> chat w' !! j = chat w !! j)
    /\ findIndex (isRoadwayFor id) (chat w') = Some i
    /\ optionsAt i w' = Some (map Some (actionsOf (selectedStrategy w) text))
    /\ rawContentAt i w' = Some text.
Proof.
  intros Hp Hs Hm Hnew Hpre Hserve Hfind.
  destruct (complete_generateRoadway reply id text w Hp Hs Hm Hnew Hpre Hserve)
    as (result & p & Hp' & Hrun).
  eexists _, _. split; [exact Hrun|]. clear Hrun.
  generalize (actionsOf (selectedStrategy w) text) as actions.
  generalize (selectedStrategy w) as strategy. intros strategy actions.
  cbn [chat cleanup set_spinning set_pendingRequests set_chat].
  assert (Hchat : upsertedChat w id text strategy actions
                  = alter (updateMessage
                             (formatResponse (settings w) (innerTextOf text actions)
                                             (shownOptions strategy actions) "")
                             text actions) i (chat w))
    by (unfold upsertedChat; now rewrite Hfind).
  repeat split.
  - rewrite Hchat. apply length_alter.
  - intros m a Hin. unfold upsertCalls, warningCalls in Hin.
    rewrite Hfind in Hin. absurd_elem Hin.
  - intros j Hj. rewrite Hchat. now apply list_lookup_alter_ne.
  - rewrite Hchat, findIndex_alter by (intros; apply isRoadwayFor_updateMessage).
    exact Hfind.
  - unfold optionsAt. cbn [chat cleanup set_spinning set_pendingRequests set_chat].
    rewrite Hchat, list_lookup_alter_eq.
    destruct (findIndex_Some _ _ _ Hfind) as (m & -> & Hrm).
    cbn. unfold isRoadwayFor in Hrm.
    destruct (extra m); [reflexivity | discriminate Hrm].
  - unfold rawContentAt. cbn [chat cleanup set_spinning set_pendingRequests set_chat].
    rewrite Hchat, list_lookup_alter_eq.
    destruct (findIndex_Some _ _ _ Hfind) as (m & -> & Hrm).
    cbn. unfold isRoadwayFor in Hrm.
    destruct (extra m); [reflexivity | discriminate Hrm].
Qed.

Lemma C4_annotation_updated_in_place_witness :
  findIndex (isRoadwayFor 0) (chat annotatedWorld) = Some 1%nat
  /\ exists w' cs,
       complete 4 (sampleReply (js "- Wait")) (generateRoadway 0) annotatedWorld
       = (w', cs, Returned tt)
       /\ length (chat w') = length (chat annotatedWorld)
       /\ (forall m a, ~ (addOneMessage m a ∈ cs))
       /\ (forall j, j <> 1%nat -> chat w' !! j = chat annotatedWorld !! j)
       /\ findIndex (isRoadwayFor 0) (chat w') = Some 1%nat
       /\ optionsAt 1 w'
          = Some (map Some (actionsOf (selectedStrategy annotatedWorld)
                                      (js "- Wait")))
       /\ rawContentAt 1 w' = Some (js "- Wait").
Proof.
  split; [vm_compute; reflexivity|].
  apply (C4_annotation_updated_in_place
           (sampleReply (js "- Wait")) 0 (js "- Wait") annotatedWorld 1).
  - vm_compute. discriminate.
  - vm_compute. discriminate.
  - vm_compute. eexists. reflexivity.
  - vm_compute. set_solver.
  - vm_compute. eexists. reflexivity.
  - apply serves_sampleReply.
  - vm_compute. reflexivity.
Defined.

(** C5. A fresh annotation stores the numbered display text in its
    raw-content field, not the reply of the model; generating again for the
    same message stores the reply itself, as the update path does. *)
Theorem C5_fresh_annotation_stores_display_text :
  let first := complete 4 (sampleReply sampleText) (generateRoadway 0) sampleWorld in
  let second := complete 4 (sampleReply sampleText) (generateRoadway 0) first.1.1 in
  first.2 = Returned tt
  /\ findIndex (isRoadwayFor 0) (chat sampleWorld) = None
  /\ rawContentAt 1 first.1.1 = Some (js "1. Do X")
  /\ rawContentAt 1 first.1.1 <> Some sampleText
  /\ second.2 = Returned tt
  /\ rawContentAt 1 second.1.1 = Some sampleText.
Proof. repeat split; try (vm_compute; reflexivity). vm_compute. discriminate. Qed.

(** When the extractor yields nothing under the bullet strategy, one notice
    is shown and it is the warning, nothing is written to the console, the
    flow returns normally, and the annotation of the message shows the raw
    reply in a preformatted block. *)
Lemma empty_extraction_shows_raw_text reply id text w :
  profileId (settings w) <> [] ->
  promptPreset (settings w) <> [] ->
  is_Some (chatAt (chat w) id) ->
  id ∉ pendingRequests w ->
  selectedStrategy w = Some bullet ->
  serves reply text ->
  extractBulletPoints text = [] ->
  exists w' cs,
    complete 4 reply (generateRoadway id) w = (w', cs, Returned tt)
    /\ List.filter isNotice cs = [st_echo echo_warning msgNoBullets]
    /\ (forall e, ~ (console_error e ∈ cs))
    /\ exists i,
         findIndex (isRoadwayFor id) (chat w') = Some i
         /\ shownAt i w' = Some (PreBlock text).
Proof.
  intros Hp Hs Hm Hnew Hstrat Hserve Hnil.
  assert (Hpre : is_Some (promptPresets (settings w) !! promptPreset (settings w))).
  { unfold selectedStrategy in Hstrat.
    destruct (promptPresets (settings w) !! promptPreset (settings w));
      [eauto | discriminate Hstrat]. }
  destruct (complete_generateRoadway reply id text w Hp Hs Hm Hnew Hpre Hserve)
    as (result & p & Hp' & Hrun).
  rewrite Hstrat in Hrun. cbn [actionsOf] in Hrun. rewrite Hnil in Hrun.
  eexists _, _. split; [exact Hrun|].
  unfold shownAt. cbn [chat cleanup set_spinning set_pendingRequests set_chat].
  repeat split.
  - unfold upsertCalls.
    destruct (findIndex (isRoadwayFor id) (chat w));
      destruct (autoOpen (settings w)); reflexivity.
  - intros e Hin. unfold upsertCalls in Hin. cbn [warningCalls] in Hin.
    absurd_elem Hin.
  - destruct (upsertedChat_annotation w id text (Some bullet) [])
      as (i & m & Hi & Hm' & Hmes & _).
    exists i. split; [exact Hi|]. now rewrite Hm', Hmes.
Qed.

(** C7. On a reply without any marker the extractor yields nothing and the
    flow falls back: one warning, the raw reply in a preformatted block.  On
    a reply whose first line is a hyphen alone, no line begins with a marker
    either, but the white space after the hyphen runs over the line break:
    the extractor returns the next line, and the flow shows it as an action,
    without a warning and without the raw reply. *)
Theorem C7_bare_marker_skips_the_fallback :
  let plain := js "No list here." in
  let first := complete 4 (sampleReply plain) (generateRoadway 0) sampleWorld in
  let second :=
    complete 4 (sampleReply bareMarkerText) (generateRoadway 0) sampleWorld in
  (Forall (fun l => afterMarker l = None) (linesOf (withoutReasoning plain))
   /\ extractBulletPoints plain = []
   /\ first.2 = Returned tt
   /\ List.filter isNotice first.1.2 = [st_echo echo_warning msgNoBullets]
   /\ shownAt 1 first.1.1 = Some (PreBlock plain))
  /\ (linesOf (withoutReasoning bareMarkerText) = [js "-"; js "Plain line"]
      /\ Forall (fun l => afterMarker l = None)
                (linesOf (withoutReasoning bareMarkerText))
      /\ extractBulletPoints bareMarkerText = [js "Plain line"]
      /\ second.2 = Returned tt
      /\ List.filter isNotice second.1.2 = []
      /\ shownAt 1 second.1.1
         = Some (OptionsDiv [{| use_display := true;
                                option_content := js "Plain line" |}])).
Proof.
  repeat split; try (vm_compute; reflexivity); vm_compute; repeat constructor.
Qed.

(** C2. A second request for a message whose first request is unresolved
    only warns, and dispatches nothing; but when its warning has been shown
    its own finally block takes the id out of the in-flight set and clears
    the busy indicator, although the first request is still unresolved.  A
    third request then passes the check and a second host request goes out
    while the first is unresolved. *)
Theorem C2_duplicate_request_releases_the_guard :
  let p2 := settled 0 (Fulfilled (VPrompt [])) (click 0 samplePage) in
  let p3 := click 0 p2 in
  let p4 := settled 1 (Fulfilled VUndefined) p3 in
  let p6 := settled 2 (Fulfilled (VPrompt [])) (click 0 p4) in
  (elements (pendingRequests (world p2)) = [0%Z]
   /\ length (List.filter isSendRequest (calls p2)) = 1%nat
   /\ unresolved 0 p2 = true)
  /\ (calls p3 = calls p2 ++ [st_echo echo_warning msgInProgress]
      /\ elements (pendingRequests (world p3)) = [0%Z])
  /\ (unresolved 0 p4 = true
      /\ elements (pendingRequests (world p4)) = []
      /\ spinning (world p4) = false)
  /\ (unresolved 0 p6 = true
      /\ length (List.filter isSendRequest (calls p6)) = 2%nat).
Proof. repeat split; vm_compute; reflexivity. Qed.

End Generation.

(** ** A generation whose prompt is rejected *)

Section RejectedPrompt.

Ltac exec_step :=
  cbn [bind get modify call await try_catch try_finally];
  first [ apply exec_Ret | apply exec_Get | apply exec_Put | apply exec_Call ].

(** A run in which the host rejects the prompt: the error is logged and
    shown, and the flow returns with the cleanup done. *)
Lemma exec_buildPrompt_rejected id w e v :
  profileId (settings w) <> [] ->
  promptPreset (settings w) <> [] ->
  is_Some (chatAt (chat w) id) ->
  id ∉ pendingRequests w ->
  exec (generateRoadway id) w
       [Called (buildPrompt id (maxContextOf (settings w)));
        Settled (Rejected e);
        Called (console_error e);
        Called (st_echo echo_error (String.append "Error: " e));
        Settled (Fulfilled v)]
       (cleanup id (started id w)) (Returned tt).
Proof.
  intros Hp Hs [m Hm] Hnew. unfold generateRoadway. exec_step.
  destruct (profileId (settings w)); [contradiction|].
  destruct (promptPreset (settings w)); [contradiction|].
  rewrite Hm. unfold gr_guarded, gr_try. exec_step.
  rewrite bool_decide_eq_false_2 by exact Hnew.
  do 4 exec_step.
  apply (exec_Await _ _ (Rejected e) _ (started id w)).
  unfold gr_catch. exec_step.
  apply (exec_Await _ _ (Fulfilled v) _ (started id w)).
  unfold gr_finally. do 5 exec_step.
Qed.

Lemma C8_cleanup_on_every_termination_witness :
  let tr := [Called (buildPrompt 0 max_preset);
             Settled (Rejected "network down");
             Called (console_error "network down");
             Called (st_echo echo_error "Error: network down");
             Settled (Fulfilled VUndefined)] in
  let wf := cleanup 0 (started 0 sampleWorld) in
  exec (generateRoadway 0) sampleWorld tr wf (Returned tt)
  /\ (exists tr',
        tr = Called (buildPrompt 0 (maxContextOf (settings sampleWorld))) :: tr')
  /\ ((0%Z ∉ pendingRequests wf) /\ spinning wf = false)
  /\ (Returned tt = Returned tt /\ (forall e, ~ (Settled (Rejected e) ∈ tr))
      \/ exists trb e o,
           tr = trb ++ [Called (console_error e);
                        Called (st_echo echo_error (String.append "Error: " e));
                        Settled o]
           /\ (forall e', Settled (Rejected e') ∈ trb ->
                 e' = e /\ exists pre, trb = pre ++ [Settled (Rejected e')])
           /\ Returned tt = match o with
                            | Fulfilled _ => Returned tt
                            | Rejected e' => Thrown e'
                            end).
Proof.
  intros tr wf.
  assert (Hp : profileId (settings sampleWorld) <> [])
    by (vm_compute; discriminate).
  assert (Hs : promptPreset (settings sampleWorld) <> [])
    by (vm_compute; discriminate).
  assert (Hm : is_Some (chatAt (chat sampleWorld) 0))
    by (vm_compute; eexists; reflexivity).
  assert (Hnew : 0%Z ∉ pendingRequests sampleWorld)
    by (vm_compute; set_solver).
  assert (H : exec (generateRoadway 0) sampleWorld tr wf (Returned tt))
    by exact (exec_buildPrompt_rejected 0 sampleWorld "network down"
                                        VUndefined Hp Hs Hm Hnew).
  split; [exact H|].
  exact (C8_cleanup_on_every_termination 0 sampleWorld tr wf (Returned tt)
           Hp Hs Hm Hnew H).
Defined.

End RejectedPrompt.

(** ** The preset callbacks *)

Section Presets.







End Presets.

(** ** The edit handler *)

Section Edit.

Lemma arraySet_inside {A} (l : list (option A)) index v :
  (0 <= index < Z.of_nat (length l))%Z ->
  arraySet l index v = <[ Z.to_nat index := Some v ]> l.
Proof.
  intros H. unfold arraySet.
  replace (index <? 0)%Z with false by (symmetry; apply Z.ltb_ge; lia).
  replace (Z.to_nat index <? length l)%nat with true
    by (symmetry; apply Nat.ltb_lt; lia).
  reflexivity.
Qed.

Lemma chatAt_Some c i m :
  chatAt c i = Some m -> c !! Z.to_nat i = Some m.
Proof. unfold chatAt. now destruct (i <? 0)%Z. Qed.

(** C9. Committing an edit by blur changes the entry of the edited row in
    the stored list and no other entry, leaves every other message as it is
    and saves the chat once.  Enter without Shift does the same and keeps
    the browser from handling the key.  On Shift+Enter the handler commits
    nothing, saves nothing and does not keep the browser from handling the
    key: the textarea is what the default action of the browser for the
    key, a line break in a textarea, makes of it. *)
Theorem C9_edit_commit_changes_one_entry w roadwayMessageId index newText m options :
  chatAt (chat w) roadwayMessageId = Some m ->
  extra m ≫= roadway_options = Some options ->
  (0 <= index < Z.of_nat (length options))%Z ->
  exists w' stored,
    run (onBlur roadwayMessageId index newText) w
    = (w', [contentDivText roadwayMessageId index newText; saveChat], Returned tt)
    /\ optionsAt (Z.to_nat roadwayMessageId) w' = Some stored
    /\ length stored = length options
    /\ stored !! Z.to_nat index = Some (Some newText)
    /\ (forall j, j <> Z.to_nat index -> stored !! j = options !! j)
    /\ (forall j, j <> Z.to_nat roadwayMessageId -> chat w' !! j = chat w !! j)
    /\ run (onKeydown (onBlur roadwayMessageId index newText)
                      {| key := "Enter"; shiftKey := false |}) w
       = (w', [contentDivText roadwayMessageId index newText; saveChat],
          Returned true)
    /\ run (onKeydown (onBlur roadwayMessageId index newText)
                      {| key := "Enter"; shiftKey := true |}) w
       = (w, [], Returned false)
    /\ forall defaultAction t,
         val t = newText ->
         run (keydown defaultAction roadwayMessageId index
                      {| key := "Enter"; shiftKey := false |} t) w
         = (w', [contentDivText roadwayMessageId index newText; saveChat],
            Returned t)
         /\ run (keydown defaultAction roadwayMessageId index
                         {| key := "Enter"; shiftKey := true |} t) w
            = (w, [],
               Returned (defaultAction {| key := "Enter"; shiftKey := true |} t)).
Proof.
  intros Hm Hopt Hidx.
  pose proof (chatAt_Some _ _ _ Hm) as Hlook.
  assert (Hrun : forall text,
    run (onBlur roadwayMessageId index text) w
    = (set_chat (<[ Z.to_nat roadwayMessageId :=
                      set_options (arraySet options index text) m ]> (chat w)) w,
       [contentDivText roadwayMessageId index text; saveChat], Returned tt)).
  { intros text. unfold onBlur. cbn [bind call run get]. rewrite Hm, Hopt.
    reflexivity. }
  eexists _, (<[ Z.to_nat index := Some newText ]> options).
  split; [apply Hrun|]. repeat split.
  - unfold optionsAt. cbn [chat set_chat].
    rewrite list_lookup_insert_eq by (eapply lookup_lt_Some; eauto).
    rewrite arraySet_inside by exact Hidx.
    cbn. destruct (extra m); [reflexivity | discriminate Hopt].
  - apply length_insert.
  - apply list_lookup_insert_eq. lia.
  - intros j Hj. apply list_lookup_insert_ne. congruence.
  - intros j Hj. cbn [chat set_chat]. apply list_lookup_insert_ne. congruence.
  - unfold onKeydown. cbn [key shiftKey String.eqb Ascii.eqb Bool.eqb andb
      negb]. unfold onBlur. cbn [bind call run get]. rewrite Hm, Hopt.
    reflexivity.
  - subst newText. unfold keydown, onKeydown. cbn [key shiftKey String.eqb
      Ascii.eqb Bool.eqb andb negb].
    unfold onBlur. cbn [bind call run get]. rewrite Hm, Hopt. reflexivity.
Qed.

Lemma C9_edit_commit_changes_one_entry_witness :
  let lineBreak := fun (_ : KeyboardEvent) (t : Textarea) =>
    {| beforeCaret := beforeCaret t ++ nl; afterCaret := afterCaret t |} in
  let t := {| beforeCaret := js "Wa"; afterCaret := js "lk" |} in
  optionsAt 1 threeOptionsWorld
  = Some [Some (js "Look"); Some (js "Wait"); Some (js "Leave")]
  /\ exists w' stored,
       run (onBlur 1 1 (js "Walk")) threeOptionsWorld
       = (w', [contentDivText 1 1 (js "Walk"); saveChat], Returned tt)
       /\ optionsAt 1 w' = Some stored
       /\ stored = [Some (js "Look"); Some (js "Walk"); Some (js "Leave")]
       /\ chat w' !! 0%nat = chat threeOptionsWorld !! 0%nat
       /\ run (onKeydown (onBlur 1 1 (js "Walk"))
                         {| key := "Enter"; shiftKey := false |})
              threeOptionsWorld
          = (w', [contentDivText 1 1 (js "Walk"); saveChat], Returned true)
       /\ run (onKeydown (onBlur 1 1 (js "Walk"))
                         {| key := "Enter"; shiftKey := true |})
              threeOptionsWorld
          = (threeOptionsWorld, [], Returned false)
       /\ run (keydown lineBreak 1 1 {| key := "Enter"; shiftKey := false |} t)
              threeOptionsWorld
          = (w', [contentDivText 1 1 (js "Walk"); saveChat], Returned t)
       /\ run (keydown lineBreak 1 1 {| key := "Enter"; shiftKey := true |} t)
              threeOptionsWorld
          = (threeOptionsWorld, [],
             Returned {| beforeCaret := js "Wa" ++ nl; afterCaret := js "lk" |}).
Proof.
  intros lineBreak t.
  split; [vm_compute; reflexivity|].
  assert (Hm : exists m,
             chatAt (chat threeOptionsWorld) 1 = Some m
             /\ extra m ≫= roadway_options
                = Some [Some (js "Look"); Some (js "Wait"); Some (js "Leave")])
    by (vm_compute; eauto).
  destruct Hm as (m & Hm & Hopt).
  assert (Hidx : (0 <= 1 < Z.of_nat (length [Some (js "Look");
                                             Some (js "Wait");
                                             Some (js "Leave")]))%Z)
    by (cbn; lia).
  destruct (C9_edit_commit_changes_one_entry
              threeOptionsWorld 1 1 (js "Walk") m _ Hm Hopt Hidx)
    as (w' & stored & Hrun & Hat & Hlen & Hnew & Hrest & Hchat & Henter
        & Hshift & Hkeys).
  destruct (Hkeys lineBreak t eq_refl) as [Hk1 Hk2].
  exists w', stored. split; [exact Hrun|]. split; [exact Hat|].
  split.
  - pose proof (Hrest 0%nat ltac:(discriminate)) as H0.
    pose proof (Hrest 2%nat ltac:(discriminate)) as H2.
    destruct stored as [|a [|b [|c [|d stored]]]]; try discriminate Hlen.
    vm_compute in H0, H2, Hnew.
    injection H0 as ->. injection H2 as ->. injection Hnew as ->.
    reflexivity.
  - split; [apply Hchat; discriminate|].
    split; [exact Henter|]. split; [exact Hshift|].
    split; [exact Hk1 | exact Hk2].
Defined.

End Edit.

(** * Further properties *)

(** ** The shape of an extracted action *)

Section Actions.

Lemma dropWhile_split p s :
  exists m, s = m ++ dropWhile p s /\ forallb p m = true.
Proof.
  exists (takeWhile p s). split; [symmetry; apply take_drop_while|].
  apply takeWhile_all.
Qed.

Lemma dropWhile_idem p s : dropWhile p (dropWhile p s) = dropWhile p s.
Proof.
  destruct (dropWhile p s) as [|c t] eqn:E; [reflexivity|].
  apply dropWhile_false. eapply dropWhile_head; eauto.
Qed.

(** White space stops at the head of what a marker leaves. *)
Lemma afterMarker_head s h r :
  afterMarker s = Some (h :: r) -> isSpace h = false.
Proof.
  destruct s as [|c s1]; [discriminate|]. cbn [afterMarker].
  destruct (isDigit c).
  - destruct (dropWhile isDigit s1) as [|d s2]; [discriminate|].
    destruct (d =? 46)%N; [|discriminate].
    destruct s2 as [|x s3]; [discriminate|]. intros H.
    apply (dropWhile_head isSpace (x :: s3) h r). congruence.
  - destruct (c =? 45)%N; [|discriminate].
    destruct s1 as [|x s3]; [discriminate|].
    destruct (isSpace x); [|discriminate]. intros H.
    apply (dropWhile_head isSpace (x :: s3) h r). congruence.
Qed.

Lemma dropWhile_body p m b rest :
  forallb p m = true -> dropWhile p (m ++ b ++ rest) = b ++ rest ->
  (b <> [] \/ rest = []) -> dropWhile p (m ++ b) = b.
Proof.
  intros Hm H Hb. rewrite dropWhile_app_all in H by exact Hm.
  rewrite dropWhile_app_all by exact Hm.
  destruct b as [|h b'].
  - reflexivity.
  - apply dropWhile_false. cbn [app] in H. eapply dropWhile_fixed_head; eauto.
Qed.

(** The marker is read the same when the text is cut after a part of what
    follows it. *)
Lemma afterMarker_cut s r b rest :
  afterMarker s = Some r -> r = b ++ rest -> (b <> [] \/ rest = []) ->
  exists m, s = m ++ r /\ afterMarker (m ++ b) = Some b.
Proof.
  destruct s as [|c s1]; [discriminate|]. cbn [afterMarker].
  destruct (isDigit c) eqn:Ec.
  - destruct (dropWhile_split isDigit s1) as (m1 & H1 & Hm1).
    destruct (dropWhile isDigit s1) as [|d s2] eqn:Ed; [discriminate|].
    pose proof (dropWhile_head _ _ _ _ Ed) as Hd.
    destruct (d =? 46)%N eqn:E46; [|discriminate].
    destruct s2 as [|x s3]; [discriminate|]. intros Hr1 Hr Hb.
    assert (Hr0 : dropWhile isSpace (x :: s3) = r) by congruence. clear Hr1.
    destruct (dropWhile_split isSpace (x :: s3)) as (m2 & H2 & Hm2).
    rewrite Hr0 in H2.
    exists (c :: m1 ++ d :: m2). split.
    + rewrite H1, H2. cbn [app]. now rewrite <- app_assoc.
    + cbn [app afterMarker]. rewrite Ec, <- app_assoc. cbn [app].
      rewrite (dropWhile_app_stop isDigit m1 d (m2 ++ b) Hm1 Hd), E46.
      assert (Hbody : dropWhile isSpace (m2 ++ b) = b).
      { apply (dropWhile_body _ _ _ rest Hm2); [|exact Hb].
        rewrite <- Hr, <- H2. exact Hr0. }
      destruct (m2 ++ b) as [|y t] eqn:E.
      * apply app_eq_nil in E as [-> ->].
        destruct Hb as [Hb| ->]; [contradiction|]. subst r. discriminate H2.
      * now rewrite Hbody.
  - destruct (c =? 45)%N eqn:E45; [|discriminate].
    destruct s1 as [|x s3]; [discriminate|].
    destruct (isSpace x) eqn:Ex; [|discriminate]. intros Hr1 Hr Hb.
    assert (Hr0 : dropWhile isSpace (x :: s3) = r) by congruence. clear Hr1.
    destruct (dropWhile_split isSpace (x :: s3)) as (m2 & H2 & Hm2).
    rewrite Hr0 in H2.
    exists (c :: m2). split.
    + rewrite H2. reflexivity.
    + cbn [app afterMarker]. rewrite Ec, E45.
      assert (Hbody : dropWhile isSpace (m2 ++ b) = b).
      { apply (dropWhile_body _ _ _ rest Hm2); [|exact Hb].
        rewrite <- Hr, <- H2. exact Hr0. }
      destruct m2 as [|y m2'].
      * cbn [app] in H2. subst r. rewrite <- H2 in Hr0.
        apply dropWhile_fixed_head in Hr0. congruence.
      * cbn [app] in H2 |- *. injection H2 as <- _. rewrite Ex.
        change (x :: m2' ++ b) with ((x :: m2') ++ b). now rewrite Hbody.
Qed.

(** What the extractor makes of one match: the rest of the line after the
    marker, trimmed. *)
Lemma strip_hit prev s rest :
  matchAt fl_bullet re_bullet prev s = Some rest ->
  exists r,
    afterMarker s = Some r
    /\ stripMarker (firstn (length s - length rest) s)
       = trim (takeWhile notLineTerminator r).
Proof.
  rewrite matchAt_bullet. destruct (atLineStart fl_bullet prev); [|discriminate].
  destruct (afterMarker s) as [r|] eqn:Er; [|discriminate].
  cbn [fmap option_fmap option_map]. intros [= <-].
  exists r. split; [reflexivity|].
  set (b := takeWhile notLineTerminator r).
  assert (Hr : r = b ++ dropWhile notLineTerminator r)
    by (symmetry; apply take_drop_while).
  assert (Hb : b <> [] \/ dropWhile notLineTerminator r = []).
  { destruct r as [|h r'] eqn:E; [now right|]. left.
    pose proof (afterMarker_head _ _ _ Er) as Hh. subst b.
    cbn [takeWhile]. unfold notLineTerminator at 1.
    unfold isSpace in Hh. apply orb_false_elim in Hh as [_ ->]. discriminate. }
  destruct (afterMarker_cut _ _ _ _ Er Hr Hb) as (m & Hs & Hcut).
  assert (Hfirst : firstn (length s - length (dropWhile notLineTerminator r)) s
                   = m ++ b).
  { rewrite Hs at 2. rewrite Hr at 2. rewrite app_assoc.
    replace (length s - length (dropWhile notLineTerminator r))%nat
      with (length (m ++ b) + 0)%nat.
    - rewrite firstn_app_2. cbn [firstn]. apply app_nil_r.
    - rewrite Hs at 1. rewrite Hr at 1. rewrite !length_app. lia. }
  rewrite Hfirst. unfold stripMarker, String_replace.
  rewrite (replaceFrom_hit _ _ _ _ _ b); [reflexivity|].
  rewrite matchAt_prefix. exact Hcut.
Qed.

(** A property of every match is a property of every hit of the scan. *)
Lemma scan_hits_Forall fl r (P : jsstring -> Prop) :
  (forall prev s rest,
     matchAt fl r prev s = Some rest -> P (firstn (length s - length rest) s)) ->
  forall s skip prev, Forall P (hits (scan fl r skip prev s)).
Proof.
  intros HP. induction s as [|c s IH]; intros skip prev.
  - destruct skip; cbn [scan]; [|constructor].
    destruct (matchAt fl r prev []) eqn:E; [|constructor].
    cbn [hits flat_map app]. constructor; [|constructor]. exact (HP prev _ _ E).
  - destruct skip as [|n]; cbn [scan]; [|apply IH].
    destruct (matchAt fl r prev (c :: s)) as [rest|] eqn:E.
    + cbn [hits flat_map app]. constructor; [exact (HP prev _ _ E)|].
      destruct (length (c :: s) - length rest)%nat; cbn [flat_map app]; apply IH.
    + cbn [hits flat_map app]. apply IH.
Qed.

Lemma forallb_dropWhile (p q : char -> bool) s :
  forallb q s = true -> forallb q (dropWhile p s) = true.
Proof.
  induction s as [|c s IH]; [reflexivity|]. cbn [dropWhile].
  destruct (p c); [|trivial]. cbn [forallb]. intros H.
  apply andb_prop in H as [_ H]. now apply IH.
Qed.

Lemma forallb_rev_true (q : char -> bool) (s : jsstring) :
  forallb q s = true -> forallb q (rev s) = true.
Proof.
  induction s as [|c s IH]; [reflexivity|]. cbn [forallb rev]. intros H.
  apply andb_prop in H as [Hc H]. rewrite forallb_app, IH by exact H.
  cbn. now rewrite Hc.
Qed.

Lemma forallb_trim (q : char -> bool) s :
  forallb q s = true -> forallb q (trim s) = true.
Proof.
  intros H. unfold trim. apply forallb_rev_true, forallb_dropWhile,
    forallb_rev_true, forallb_dropWhile, H.
Qed.

(** Trimming a trimmed text changes nothing. *)
Lemma trim_idem s : trim (trim s) = trim s.
Proof.
  apply trim_fixed; unfold trim.
  - set (y := dropWhile isSpace s).
    destruct (dropWhile_suffix isSpace (rev y)) as [m Hm].
    set (z := dropWhile isSpace (rev y)) in *.
    destruct (rev z) as [|h t] eqn:Ez; [reflexivity|].
    apply dropWhile_false.
    assert (Hy : y = h :: t ++ rev m).
    { rewrite <- (rev_involutive y), Hm, rev_app_distr, Ez. reflexivity. }
    subst y. eapply dropWhile_head; eauto.
  - rewrite rev_involutive. apply dropWhile_idem.
Qed.

(** X1. Every extracted action is trimmed and lies on one line. *)
Theorem extracted_actions_trimmed text :
  Forall (fun a => trim a = a /\ forallb notLineTerminator a = true)
         (extractBulletPoints text).
Proof.
  unfold extractBulletPoints. rewrite hits_of_match.
  apply Forall_map.
  apply (scan_hits_Forall fl_bullet re_bullet
           (fun line => trim (trim (String_replace fl_prefix re_prefix [] line))
                        = trim (String_replace fl_prefix re_prefix [] line)
                        /\ forallb notLineTerminator
                             (trim (String_replace fl_prefix re_prefix [] line))
                           = true)).
  intros prev s rest H. destruct (strip_hit _ _ _ H) as (r & _ & Hstrip).
  unfold stripMarker in Hstrip. rewrite Hstrip. split; [apply trim_idem|].
  apply forallb_trim, takeWhile_all.
Qed.

End Actions.

(** ** Reasoning blocks that are not closed, and the reading by line *)

Section Unclosed.

Lemma afterClosing_none s :
  hasDelimiter closingDelimiter s = false -> afterClosing s = None.
Proof.
  induction s as [|c s IH]; cbn [hasDelimiter afterClosing].
  - now destruct (afterDelimiter closingDelimiter []).
  - destruct (afterDelimiter closingDelimiter (c :: s)); [discriminate|].
    exact IH.
Qed.

Lemma hasDelimiter_suffix d m s :
  hasDelimiter d (m ++ s) = false -> hasDelimiter d s = false.
Proof.
  induction m as [|c m IH]; [trivial|]. cbn [app]. intros H.
  apply hasDelimiter_cons in H as [_ H]. now apply IH.
Qed.

Lemma afterBlock_unclosed s :
  hasDelimiter closingDelimiter s = false -> afterBlock s = None.
Proof.
  intros H. unfold afterBlock.
  destruct (afterDelimiter openingDelimiter s) as [rest|] eqn:E; [|reflexivity].
  cbn [mbind option_bind]. apply afterClosing_none.
  destruct (afterDelimiter_split _ _ _ E) as (m & -> & _).
  now apply hasDelimiter_suffix in H.
Qed.

Lemma removeReasoning_unclosed fuel :
  forall s, hasDelimiter closingDelimiter s = false -> removeReasoning fuel s = s.
Proof.
  induction fuel as [|fuel IH]; intros s H; [reflexivity|].
  destruct s as [|c s]; [reflexivity|]. cbn [removeReasoning].
  rewrite (afterBlock_unclosed _ H).
  apply hasDelimiter_cons in H as [_ H]. now rewrite IH.
Qed.

(** X2. A text without an opening delimiter, or without a closing one, is left
    as it is by the removal: a reasoning block that is not closed stays in
    the text, and marked lines inside it are extracted. *)
Theorem incomplete_block_stays text :
  hasDelimiter openingDelimiter text = false
  \/ hasDelimiter closingDelimiter text = false ->
  String_replace_g fl_think re_think [] text = text
  /\ extractBulletPoints text = markedLines text.
Proof.
  intros H.
  assert (Hsame : String_replace_g fl_think re_think [] text = text).
  { rewrite replace_think. unfold withoutReasoning.
    destruct H as [H|H];
      [now apply removeReasoning_plain | now apply removeReasoning_unclosed]. }
  split; [exact Hsame|]. unfold extractBulletPoints, markedLines.
  now rewrite Hsame.
Qed.

Lemma incomplete_block_stays_witness :
  let text := js "<think>" ++ nl ++ js "1. Plan" in
  (hasDelimiter openingDelimiter text = false
   \/ hasDelimiter closingDelimiter text = false)
  /\ (String_replace_g fl_think re_think [] text = text
      /\ extractBulletPoints text = markedLines text)
  /\ extractBulletPoints text = [js "Plan"].
Proof.
  intros text.
  assert (H : hasDelimiter openingDelimiter text = false
              \/ hasDelimiter closingDelimiter text = false)
    by (right; vm_compute; reflexivity).
  split; [exact H|]. split; [exact (incomplete_block_stays text H)|].
  vm_compute. reflexivity.
Defined.

(** X3. On a text whose cleaned text, the text without its reasoning
    blocks, has no line but the last that is a marker with an empty body,
    extraction is the line-by-line reading: of the lines of the cleaned
    text, those that begin with a marker, each without the marker and
    trimmed, in order. *)
Theorem extraction_line_by_line text :
  bodiesOnTheirLines (withoutReasoning text) ->
  extractBulletPoints text
  = omap (fun line => trim <$> afterMarker line) (linesOf (withoutReasoning text)).
Proof. intros H. now rewrite extract_by_line. Qed.

Lemma extraction_line_by_line_witness :
  bodiesOnTheirLines (withoutReasoning specExample)
  /\ extractBulletPoints specExample
     = omap (fun line => trim <$> afterMarker line)
            (linesOf (withoutReasoning specExample)).
Proof.
  assert (H : bodiesOnTheirLines (withoutReasoning specExample))
    by (vm_compute; repeat constructor).
  split; [exact H | exact (extraction_line_by_line specExample H)].
Defined.

End Unclosed.

(** ** When the prompt is asked for *)

Section Preconditions.

Lemma complete_prefix {A} n reply (m : async A) w :
  exists cs, (complete n reply m w).1.2 = (run m w).1.2 ++ cs.
Proof.
  destruct n as [|n]; cbn [complete];
    destruct (run m w) as [[w' cs] [a|e|c k]]; cbn [fst snd];
    try (exists []; now rewrite app_nil_r).
  destruct (complete n reply (k (reply c)) w') as [[w2 cs2] st2].
  cbn [fst snd]. eauto.
Qed.

(** A flow that returns or throws before its first await. *)
Lemma complete_done {A} n reply (m : async A) w w' cs st :
  run m w = (w', cs, st) -> suspension st = None ->
  complete n reply m w = (w', cs, st).
Proof.
  intros H Hs. destruct n; cbn [complete]; rewrite H;
    destruct st; try reflexivity; discriminate Hs.
Qed.

Ltac no_call H :=
  repeat (apply elem_of_cons in H as [H|H]; [discriminate H|]);
  now apply elem_of_nil in H.

(** X4. The prompt service is contacted exactly when a connection profile and
    a preset are selected, the target message exists and no request for it
    is in flight; the prompt is then asked for up to the target message. *)
Theorem prompt_requested_iff n reply id w :
  (exists e mc, buildPrompt e mc ∈ (complete n reply (generateRoadway id) w).1.2)
  <-> profileId (settings w) <> []
      /\ promptPreset (settings w) <> []
      /\ is_Some (chatAt (chat w) id)
      /\ id ∉ pendingRequests w.
Proof.
  split.
  - intros (e & mc & Hin). unfold generateRoadway in Hin.
    destruct (profileId (settings w)) as [|pc ps] eqn:Ep.
    { exfalso. destruct n as [|n]; cbn in Hin; rewrite Ep in Hin; cbn in Hin;
        [no_call Hin|].
      destruct (reply (st_echo echo_error msgNoProfile));
        (erewrite complete_done in Hin; [|reflexivity|reflexivity]);
        cbn in Hin; no_call Hin. }
    destruct (promptPreset (settings w)) as [|qc qs] eqn:Eq.
    { exfalso. destruct n as [|n]; cbn in Hin; rewrite Ep, Eq in Hin; cbn in Hin;
        [no_call Hin|].
      destruct (reply (st_echo echo_error msgNoPreset));
        (erewrite complete_done in Hin; [|reflexivity|reflexivity]);
        cbn in Hin; no_call Hin. }
    destruct (chatAt (chat w) id) as [tm|] eqn:Em.
    2:{ exfalso.
        rewrite (complete_done n reply _ w w [] (Returned tt)) in Hin;
          [cbn in Hin; no_call Hin | | reflexivity].
        cbn. now rewrite Ep, Eq, Em. }
    repeat split; [discriminate | discriminate | eauto |].
    intros Hpend. revert Hin.
    destruct n as [|n].
    { cbn [complete]. unfold generateRoadway, gr_guarded, gr_try.
      cbn [bind get run try_catch try_finally]. rewrite Ep, Eq, Em.
      cbn [bind get run try_catch try_finally].
      rewrite bool_decide_eq_true_2 by exact Hpend.
      cbn. intros Hin. no_call Hin. }
    rewrite complete_S. unfold generateRoadway, gr_guarded, gr_try.
    cbn [bind get run try_catch try_finally]. rewrite Ep, Eq, Em.
    cbn [bind get run try_catch try_finally].
    rewrite bool_decide_eq_true_2 by exact Hpend.
    cbn [bind get run try_catch try_finally await].
    destruct (reply (st_echo echo_warning msgInProgress)) as [v|err].
    + erewrite complete_done; [|reflexivity|reflexivity].
      cbn. intros Hin. no_call Hin.
    + destruct n as [|n].
      { cbn. intros Hin. no_call Hin. }
      rewrite complete_S. cbn [bind get run try_catch try_finally gr_catch call await].
      destruct (reply (st_echo echo_error (String.append "Error: " err))) as [v|err'].
      * erewrite complete_done; [|reflexivity|reflexivity].
        cbn. intros Hin. no_call Hin.
      * erewrite complete_done; [|reflexivity|reflexivity].
        cbn. intros Hin. no_call Hin.
  - intros (Hp & Hs & [tm Hm] & Hnew).
    exists id, (maxContextOf (settings w)).
    destruct (complete_prefix n reply (generateRoadway id) w) as [cs ->].
    unfold generateRoadway, gr_guarded, gr_try.
    cbn [bind get run try_catch try_finally].
    destruct (profileId (settings w)); [contradiction|].
    destruct (promptPreset (settings w)); [contradiction|].
    rewrite Hm. cbn [bind get run try_catch try_finally].
    rewrite bool_decide_eq_false_2 by exact Hnew. cbn. left.
Qed.

End Preconditions.

(** ** A generation that fails *)

Section Failures.

Lemma cleanup_started_pending id w :
  id ∉ pendingRequests w ->
  pendingRequests (cleanup id (started id w)) = pendingRequests w.
Proof.
  intros Hnew. cbn. apply set_eq. intros x.
  rewrite elem_of_difference, elem_of_union, !elem_of_singleton. split.
  - intros [[->|Hx] Hne]; [contradiction | exact Hx].
  - intros Hx. split; [now right|]. intros ->. contradiction.
Qed.

(** X5. A request that the host rejects: the error is written to the console
    and shown, nothing is saved, and the chat, the settings and the
    in-flight set are as before. *)
Theorem rejected_request_changes_nothing reply id w result e :
  profileId (settings w) <> [] ->
  promptPreset (settings w) <> [] ->
  is_Some (chatAt (chat w) id) ->
  id ∉ pendingRequests w ->
  is_Some (promptPresets (settings w) !! promptPreset (settings w)) ->
  reply (buildPrompt id (maxContextOf (settings w))) = Fulfilled (VPrompt result) ->
  (forall p ms t, reply (sendRequest p ms t) = Rejected e) ->
  (forall l m, exists v, reply (st_echo l m) = Fulfilled v) ->
  exists w' ms,
    complete 4 reply (generateRoadway id) w
    = (w',
       [buildPrompt id (maxContextOf (settings w));
        sendRequest (profileId (settings w)) ms (maxResponseToken (settings w));
        console_error e;
        st_echo echo_error (String.append "Error: " e)],
       Returned tt)
    /\ chat w' = chat w
    /\ settings w' = settings w
    /\ pendingRequests w' = pendingRequests w
    /\ spinning w' = false.
Proof.
  intros Hp Hs [m Hm] Hnew [p Hpre] Hb Hsend Hecho.
  destruct (Hecho echo_error (String.append "Error: " e)) as [v Hv].
  exists (cleanup id (started id w)). eexists. split.
  - rewrite complete_S. unfold generateRoadway. cbn [bind get run].
    destruct (profileId (settings w)) eqn:Epid; [contradiction|].
    destruct (promptPreset (settings w)) eqn:Epre; [contradiction|].
    rewrite Hm. unfold gr_guarded at 1, gr_try.
    cbn [bind get run try_catch try_finally].
    rewrite bool_decide_eq_false_2 by exact Hnew.
    cbn [bind get run try_catch try_finally modify await].
    rewrite Hb. fold (started id w).
    rewrite complete_S. unfold gr_afterBuildPrompt.
    cbn [bind get run try_catch try_finally await].
    change (settings (started id w)) with (settings w).
    rewrite Epre, Hpre. cbn [bind get run try_catch try_finally await].
    rewrite Hsend. cbn [bind try_catch try_finally].
    rewrite complete_S. unfold gr_catch.
    cbn [bind get run try_catch try_finally await call].
    rewrite Hv. cbn [bind try_finally].
    erewrite complete_done; [|reflexivity|reflexivity].
    rewrite Epid. reflexivity.
  - repeat split. now apply cleanup_started_pending.
Qed.

Lemma rejected_request_changes_nothing_witness :
  (forall p ms t, rejectingReply "timeout" (sendRequest p ms t) = Rejected "timeout")
  /\ exists w' ms,
       complete 4 (rejectingReply "timeout") (generateRoadway 0) sampleWorld
       = (w',
          [buildPrompt 0 (maxContextOf (settings sampleWorld));
           sendRequest (profileId (settings sampleWorld)) ms
                       (maxResponseToken (settings sampleWorld));
           console_error "timeout";
           st_echo echo_error (String.append "Error: " "timeout")],
          Returned tt)
       /\ chat w' = chat sampleWorld
       /\ settings w' = settings sampleWorld
       /\ pendingRequests w' = pendingRequests sampleWorld
       /\ spinning w' = false.
Proof.
  split; [reflexivity|].
  apply (rejected_request_changes_nothing
           (rejectingReply "timeout") 0 sampleWorld [] "timeout").
  - vm_compute. discriminate.
  - vm_compute. discriminate.
  - vm_compute. eexists. reflexivity.
  - vm_compute. set_solver.
  - vm_compute. eexists. reflexivity.
  - reflexivity.
  - reflexivity.
  - intros l m. eexists. reflexivity.
Defined.

(** X6. A selected preset name that is neither a key of the mapping nor a
    member name of [Object.prototype]: the prompt is built, reading the
    preset then throws, the error is written to the console and shown, and
    no request is sent. *)
Theorem missing_preset_sends_nothing reply id w result :
  profileId (settings w) <> [] ->
  promptPreset (settings w) <> [] ->
  is_Some (chatAt (chat w) id) ->
  id ∉ pendingRequests w ->
  promptPresets (settings w) !! promptPreset (settings w) = None ->
  promptPreset (settings w) ∉ objectPrototypeNames ->
  reply (buildPrompt id (maxContextOf (settings w))) = Fulfilled (VPrompt result) ->
  (forall l m, exists v, reply (st_echo l m) = Fulfilled v) ->
  exists w' e,
    complete 4 reply (generateRoadway id) w
    = (w',
       [buildPrompt id (maxContextOf (settings w));
        console_error e;
        st_echo echo_error (String.append "Error: " e)],
       Returned tt)
    /\ chat w' = chat w
    /\ pendingRequests w' = pendingRequests w
    /\ spinning w' = false.
Proof.
  intros Hp Hs [m Hm] Hnew Hpre Hinh Hb Hecho.
  destruct (Hecho echo_error (String.append "Error: " TypeError)) as [v Hv].
  exists (cleanup id (started id w)), TypeError. split.
  - rewrite complete_S. unfold generateRoadway. cbn [bind get run].
    destruct (profileId (settings w)) eqn:Epid; [contradiction|].
    destruct (promptPreset (settings w)) eqn:Epre; [contradiction|].
    rewrite Hm. unfold gr_guarded at 1, gr_try.
    cbn [bind get run try_catch try_finally].
    rewrite bool_decide_eq_false_2 by exact Hnew.
    cbn [bind get run try_catch try_finally modify await].
    rewrite Hb. fold (started id w).
    rewrite complete_S. unfold gr_afterBuildPrompt.
    cbn [bind get run try_catch try_finally await].
    change (settings (started id w)) with (settings w).
    rewrite Epre, Hpre. rewrite bool_decide_eq_false_2 by exact Hinh.
    cbn [bind get run try_catch try_finally await].
    unfold gr_catch. cbn [bind get run try_catch try_finally await call].
    rewrite Hv. cbn [bind try_finally].
    erewrite complete_done; [|reflexivity|reflexivity].
    reflexivity.
  - repeat split. now apply cleanup_started_pending.
Qed.

Lemma missing_preset_sends_nothing_witness :
  promptPresets (settings danglingWorld) !! promptPreset (settings danglingWorld)
  = None
  /\ (promptPreset (settings danglingWorld) ∉ objectPrototypeNames)
  /\ exists w' e,
       complete 4 (sampleReply sampleText) (generateRoadway 0) danglingWorld
       = (w',
          [buildPrompt 0 (maxContextOf (settings danglingWorld));
           console_error e;
           st_echo echo_error (String.append "Error: " e)],
          Returned tt)
       /\ chat w' = chat danglingWorld
       /\ pendingRequests w' = pendingRequests danglingWorld
       /\ spinning w' = false.
Proof.
  assert (H : promptPresets (settings danglingWorld)
              !! promptPreset (settings danglingWorld) = None)
    by (vm_compute; reflexivity).
  assert (Hinh : promptPreset (settings danglingWorld) ∉ objectPrototypeNames).
  { apply (bool_decide_eq_false_1 _). vm_compute. reflexivity. }
  split; [exact H|]. split; [exact Hinh|].
  apply (missing_preset_sends_nothing (sampleReply sampleText) 0 danglingWorld []).
  - vm_compute. discriminate.
  - vm_compute. discriminate.
  - vm_compute. eexists. reflexivity.
  - vm_compute. set_solver.
  - exact H.
  - exact Hinh.
  - reflexivity.
  - intros l m. eexists. reflexivity.
Defined.

End Failures.

(** ** What the upsert stores and shows *)

Section Upsert.

Ltac absurd_elem H :=
  lazymatch type of H with
  | _ ∈ _ ++ _ => apply elem_of_app in H as [H|H]; absurd_elem H
  | _ ∈ _ :: _ =>
      apply elem_of_cons in H as [H|H]; [discriminate H | absurd_elem H]
  | _ ∈ [] => now apply elem_of_nil in H
  | _ ∈ (if ?b then _ else _) => destruct b; absurd_elem H
  | _ ∈ match ?x with _ => _ end => destruct x; absurd_elem H
  end.

Lemma findIndex_None {A} (p : A -> bool) (l : list A) x :
  findIndex p l = None -> x ∈ l -> p x = false.
Proof.
  induction l as [|a l IH]; intros H Hin; [now apply elem_of_nil in Hin|].
  cbn [findIndex] in H. destruct (p a) eqn:E; [discriminate|].
  destruct (findIndex p l); [discriminate|].
  apply elem_of_cons in Hin as [->|Hin]; [exact E | now apply IH].
Qed.

Lemma findIndex_app_Some {A} (p : A -> bool) (l l' : list A) i :
  findIndex p l = Some i -> findIndex p (l ++ l') = Some i.
Proof.
  revert i. induction l as [|a l IH]; intros i; cbn [findIndex app];
    [discriminate|].
  destruct (p a); [trivial|].
  destruct (findIndex p l) as [j|]; [|discriminate].
  intros [= <-]. now rewrite (IH j).
Qed.

(** X7. The none strategy: the reply is shown as it is, in the preformatted
    block, without any notice; no option is stored and the stored raw
    content is the reply. *)
Theorem none_strategy_shows_reply reply id text w :
  profileId (settings w) <> [] ->
  promptPreset (settings w) <> [] ->
  is_Some (chatAt (chat w) id) ->
  id ∉ pendingRequests w ->
  selectedStrategy w = Some none ->
  serves reply text ->
  exists w' cs i,
    complete 4 reply (generateRoadway id) w = (w', cs, Returned tt)
    /\ List.filter isNotice cs = []
    /\ findIndex (isRoadwayFor id) (chat w') = Some i
    /\ shownAt i w' = Some (PreBlock text)
    /\ optionsAt i w' = Some []
    /\ rawContentAt i w' = Some text.
Proof.
  intros Hp Hs Hm Hnew Hstrat Hserve.
  assert (Hpre : is_Some (promptPresets (settings w) !! promptPreset (settings w))).
  { unfold selectedStrategy in Hstrat.
    destruct (promptPresets (settings w) !! promptPreset (settings w));
      [eauto | discriminate Hstrat]. }
  destruct (complete_generateRoadway reply id text w Hp Hs Hm Hnew Hpre Hserve)
    as (result & p & Hp' & Hrun).
  rewrite Hstrat in Hrun. cbn [actionsOf warningCalls app] in Hrun.
  unfold upsertedChat, upsertCalls in Hrun.
  cbn [innerTextOf shownOptions] in Hrun.
  destruct (findIndex (isRoadwayFor id) (chat w)) as [i|] eqn:Ei.
  - destruct (findIndex_Some _ _ _ Ei) as (m & Hlook & Hm').
    eexists _, _, i. split; [exact Hrun|].
    unfold shownAt, optionsAt, rawContentAt.
    cbn [chat cleanup set_spinning set_pendingRequests set_chat].
    rewrite findIndex_alter by (intros; apply isRoadwayFor_updateMessage).
    rewrite list_lookup_alter_eq, Hlook.
    unfold isRoadwayFor in Hm'.
    destruct (extra m) as [ex|] eqn:Ex; [|discriminate Hm'].
    cbn. rewrite Ex. repeat split; try reflexivity.
    + now destruct (autoOpen (settings w)).
    + exact Ei.
  - eexists _, _, (length (chat w)). split; [exact Hrun|].
    unfold shownAt, optionsAt, rawContentAt.
    cbn [chat cleanup set_spinning set_pendingRequests set_chat].
    rewrite findIndex_snoc by (trivial; apply isRoadwayFor_freshMessage).
    rewrite list_lookup_middle by reflexivity.
    repeat split. now destruct (autoOpen (settings w)).
Qed.

Lemma none_strategy_shows_reply_witness :
  selectedStrategy noneWorld = Some none
  /\ exists w' cs i,
       complete 4 (sampleReply sampleText) (generateRoadway 0) noneWorld
       = (w', cs, Returned tt)
       /\ List.filter isNotice cs = []
       /\ findIndex (isRoadwayFor 0) (chat w') = Some i
       /\ shownAt i w' = Some (PreBlock sampleText)
       /\ optionsAt i w' = Some []
       /\ rawContentAt i w' = Some sampleText.
Proof.
  assert (H : selectedStrategy noneWorld = Some none) by (vm_compute; reflexivity).
  split; [exact H|].
  apply (none_strategy_shows_reply (sampleReply sampleText) 0 sampleText noneWorld).
  - vm_compute. discriminate.
  - vm_compute. discriminate.
  - vm_compute. eexists. reflexivity.
  - vm_compute. set_solver.
  - exact H.
  - apply serves_sampleReply.
Defined.

(** X10. A first generation for a message: the annotation is appended at the end
    of the chat, whatever the position of the target, and the messages
    before it stay; the option handlers are attached for the message after
    the target, which is the annotation exactly when the target was the
    last message. *)
Theorem fresh_annotation_goes_last reply id text w :
  profileId (settings w) <> [] ->
  promptPreset (settings w) <> [] ->
  is_Some (chatAt (chat w) id) ->
  id ∉ pendingRequests w ->
  is_Some (promptPresets (settings w) !! promptPreset (settings w)) ->
  serves reply text ->
  findIndex (isRoadwayFor id) (chat w) = None ->
  exists w' cs m,
    complete 4 reply (generateRoadway id) w = (w', cs, Returned tt)
    /\ chat w' = chat w ++ [m]
    /\ extra m ≫= roadway_target_chat = Some id
    /\ addOneMessage m id ∈ cs
    /\ attachRoadwayOptionHandlers (id + 1) ∈ cs
    /\ (chatAt (chat w') (id + 1) = Some m
        <-> (id + 1)%Z = Z.of_nat (length (chat w))).
Proof.
  intros Hp Hs Hm Hnew Hpre Hserve Hnone.
  destruct (complete_generateRoadway reply id text w Hp Hs Hm Hnew Hpre Hserve)
    as (result & p & Hp' & Hrun).
  unfold upsertedChat, upsertCalls in Hrun. rewrite Hnone in Hrun.
  eexists _, _, _. split; [exact Hrun|].
  cbn [chat cleanup set_spinning set_pendingRequests set_chat].
  split; [reflexivity|]. split; [reflexivity|]. split; [|split].
  - rewrite !elem_of_app. right. right. left. apply elem_of_cons; now left.
  - rewrite !elem_of_app. right. right. right. right.
    apply elem_of_cons; now left.
  - set (m := freshMessage _ _ _ _ _). unfold chatAt. split.
    + destruct (id + 1 <? 0)%Z eqn:Eneg; [discriminate|].
      apply Z.ltb_ge in Eneg. intros Hlook.
      destruct (decide (Z.to_nat (id + 1) < length (chat w))%nat) as [Hlt|Hge].
      * rewrite lookup_app_l in Hlook by exact Hlt.
        apply list_elem_of_lookup_2 in Hlook.
        apply (findIndex_None _ _ _ Hnone) in Hlook.
        subst m. now rewrite isRoadwayFor_freshMessage in Hlook.
      * apply lookup_lt_Some in Hlook. rewrite length_app in Hlook.
        cbn [length] in Hlook. lia.
    + intros Heq. replace (id + 1 <? 0)%Z with false
        by (symmetry; apply Z.ltb_ge; lia).
      rewrite Heq, Nat2Z.id. now apply list_lookup_middle.
Qed.

Lemma fresh_annotation_goes_last_witness :
  findIndex (isRoadwayFor 0) (chat sampleWorld) = None
  /\ exists w' cs m,
       complete 4 (sampleReply sampleText) (generateRoadway 0) sampleWorld
       = (w', cs, Returned tt)
       /\ chat w' = chat sampleWorld ++ [m]
       /\ extra m ≫= roadway_target_chat = Some 0%Z
       /\ addOneMessage m 0 ∈ cs
       /\ attachRoadwayOptionHandlers (0 + 1) ∈ cs
       /\ (chatAt (chat w') (0 + 1) = Some m
           <-> (0 + 1)%Z = Z.of_nat (length (chat sampleWorld))).
Proof.
  assert (H : findIndex (isRoadwayFor 0) (chat sampleWorld) = None)
    by (vm_compute; reflexivity).
  split; [exact H|].
  apply (fresh_annotation_goes_last (sampleReply sampleText) 0 sampleText sampleWorld).
  - vm_compute. discriminate.
  - vm_compute. discriminate.
  - vm_compute. eexists. reflexivity.
  - vm_compute. set_solver.
  - vm_compute. eexists. reflexivity.
  - apply serves_sampleReply.
  - exact H.
Defined.

(** X11. Generating for one message leaves the annotation of another message
    where it is and as it is. *)
Theorem other_annotation_untouched reply a b text w i :
  profileId (settings w) <> [] ->
  promptPreset (settings w) <> [] ->
  is_Some (chatAt (chat w) b) ->
  b ∉ pendingRequests w ->
  is_Some (promptPresets (settings w) !! promptPreset (settings w)) ->
  serves reply text ->
  a <> b ->
  findIndex (isRoadwayFor a) (chat w) = Some i ->
  exists w' cs,
    complete 4 reply (generateRoadway b) w = (w', cs, Returned tt)
    /\ findIndex (isRoadwayFor a) (chat w') = Some i
    /\ chat w' !! i = chat w !! i.
Proof.
  intros Hp Hs Hm Hnew Hpre Hserve Hab Hi.
  destruct (complete_generateRoadway reply b text w Hp Hs Hm Hnew Hpre Hserve)
    as (result & p & Hp' & Hrun).
  eexists _, _. split; [exact Hrun|].
  cbn [chat cleanup set_spinning set_pendingRequests set_chat].
  unfold upsertedChat.
  destruct (findIndex_Some _ _ _ Hi) as (ma & Hla & Hma).
  destruct (findIndex (isRoadwayFor b) (chat w)) as [j|] eqn:Ej.
  - destruct (findIndex_Some _ _ _ Ej) as (mb & Hlb & Hmb).
    assert (Hij : j <> i).
    { intros ->. rewrite Hla in Hlb. injection Hlb as <-.
      unfold isRoadwayFor in Hma, Hmb.
      destruct (extra ma ≫= roadway_target_chat) as [t|]; [|discriminate].
      apply Z.eqb_eq in Hma, Hmb. congruence. }
    split.
    + rewrite findIndex_alter by (intros; apply isRoadwayFor_updateMessage).
      exact Hi.
    + now apply list_lookup_alter_ne.
  - split.
    + now apply findIndex_app_Some.
    + apply lookup_app_l. eapply lookup_lt_Some; eauto.
Qed.

Lemma other_annotation_untouched_witness :
  findIndex (isRoadwayFor 0) (chat annotatedWorld) = Some 1%nat
  /\ exists w' cs,
       complete 4 (sampleReply (js "- Wait")) (generateRoadway 1) annotatedWorld
       = (w', cs, Returned tt)
       /\ findIndex (isRoadwayFor 0) (chat w') = Some 1%nat
       /\ chat w' !! 1%nat = chat annotatedWorld !! 1%nat.
Proof.
  assert (H : findIndex (isRoadwayFor 0) (chat annotatedWorld) = Some 1%nat)
    by (vm_compute; reflexivity).
  split; [exact H|].
  apply (other_annotation_untouched
           (sampleReply (js "- Wait")) 0 1 (js "- Wait") annotatedWorld 1).
  - vm_compute. discriminate.
  - vm_compute. discriminate.
  - vm_compute. eexists. reflexivity.
  - vm_compute. set_solver.
  - vm_compute. eexists. reflexivity.
  - apply serves_sampleReply.
  - discriminate.
  - exact H.
Defined.

(** X12. The busy indicator is shared: when a generation ends it is cleared
    although the request of another message is still in flight, and that
    message stays in the in-flight set. *)
Theorem indicator_cleared_with_others_in_flight reply a b text w :
  profileId (settings w) <> [] ->
  promptPreset (settings w) <> [] ->
  is_Some (chatAt (chat w) b) ->
  b ∉ pendingRequests w ->
  is_Some (promptPresets (settings w) !! promptPreset (settings w)) ->
  serves reply text ->
  a ∈ pendingRequests w ->
  exists w' cs,
    complete 4 reply (generateRoadway b) w = (w', cs, Returned tt)
    /\ a ∈ pendingRequests w'
    /\ spinning w' = false
    /\ settings w' = settings w.
Proof.
  intros Hp Hs Hm Hnew Hpre Hserve Ha.
  destruct (complete_generateRoadway reply b text w Hp Hs Hm Hnew Hpre Hserve)
    as (result & p & Hp' & Hrun).
  eexists _, _. split; [exact Hrun|]. repeat split.
  cbn. apply elem_of_difference. split.
  - apply elem_of_union. now right.
  - intros Hab. apply elem_of_singleton in Hab. subst a. contradiction.
Qed.

Lemma indicator_cleared_with_others_in_flight_witness :
  (1%Z ∈ pendingRequests (started 1 sampleWorld))
  /\ exists w' cs,
       complete 4 (sampleReply sampleText) (generateRoadway 0)
                (started 1 sampleWorld)
       = (w', cs, Returned tt)
       /\ (1%Z ∈ pendingRequests w')
       /\ spinning w' = false
       /\ settings w' = settings (started 1 sampleWorld).
Proof.
  assert (H : 1%Z ∈ pendingRequests (started 1 sampleWorld))
    by (vm_compute; set_solver).
  split; [exact H|].
  apply (indicator_cleared_with_others_in_flight
           (sampleReply sampleText) 1 0 sampleText (started 1 sampleWorld)).
  - vm_compute. discriminate.
  - vm_compute. discriminate.
  - vm_compute. eexists. reflexivity.
  - vm_compute. set_solver.
  - vm_compute. eexists. reflexivity.
  - apply serves_sampleReply.
  - exact H.
Defined.

(** X9. The rows of the annotation and its stored options correspond position
    by position: the rows show the extracted actions in order, and these
    are the stored options; without an action there is no row and the
    reply is shown instead. *)
Theorem rows_are_the_stored_options reply id text w :
  profileId (settings w) <> [] ->
  promptPreset (settings w) <> [] ->
  is_Some (chatAt (chat w) id) ->
  id ∉ pendingRequests w ->
  is_Some (promptPresets (settings w) !! promptPreset (settings w)) ->
  serves reply text ->
  let actions := actionsOf (selectedStrategy w) text in
  exists w' cs i,
    complete 4 reply (generateRoadway id) w = (w', cs, Returned tt)
    /\ findIndex (isRoadwayFor id) (chat w') = Some i
    /\ optionsAt i w' = Some (map Some actions)
    /\ shownAt i w'
       = Some (match actions with
               | [] => PreBlock text
               | _ => OptionsDiv
                        (map (fun a => {| use_display := showUseActionIcon (settings w);
                                          option_content := a |}) actions)
               end).
Proof.
  intros Hp Hs Hm Hnew Hpre Hserve actions.
  destruct (complete_generateRoadway reply id text w Hp Hs Hm Hnew Hpre Hserve)
    as (result & p & Hp' & Hrun).
  fold actions in Hrun.
  destruct (upsertedChat_annotation w id text (selectedStrategy w) actions)
    as (i & m & Hi & Hlook & Hmes & Hopt & _).
  eexists _, _, i. split; [exact Hrun|].
  unfold optionsAt, shownAt.
  cbn [chat cleanup set_spinning set_pendingRequests set_chat].
  rewrite Hlook, Hmes. split; [exact Hi|]. split; [exact Hopt|].
  f_equal. unfold formatResponse. cbn [body].
  subst actions. unfold actionsOf, shownOptions, innerTextOf.
  destruct (selectedStrategy w) as [[|]|]; [|reflexivity..].
  now destruct (extractBulletPoints text).
Qed.

Lemma rows_are_the_stored_options_witness :
  actionsOf (selectedStrategy sampleWorld) sampleText = [js "Do X"]
  /\ exists w' cs i,
       complete 4 (sampleReply sampleText) (generateRoadway 0) sampleWorld
       = (w', cs, Returned tt)
       /\ findIndex (isRoadwayFor 0) (chat w') = Some i
       /\ optionsAt i w'
          = Some (map Some (actionsOf (selectedStrategy sampleWorld) sampleText))
       /\ shownAt i w'
          = Some (match actionsOf (selectedStrategy sampleWorld) sampleText with
                  | [] => PreBlock sampleText
                  | _ => OptionsDiv
                           (map (fun a =>
                                   {| use_display :=
                                        showUseActionIcon (settings sampleWorld);
                                      option_content := a |})
                                (actionsOf (selectedStrategy sampleWorld)
                                           sampleText))
                  end).
Proof.
  split; [vm_compute; reflexivity|].
  apply (rows_are_the_stored_options (sampleReply sampleText) 0 sampleText sampleWorld).
  - vm_compute. discriminate.
  - vm_compute. discriminate.
  - vm_compute. eexists. reflexivity.
  - vm_compute. set_solver.
  - vm_compute. eexists. reflexivity.
  - apply serves_sampleReply.
Defined.

End Upsert.

(** ** The input-area button *)

Section InputArea.

Ltac absurd_elem H :=
  lazymatch type of H with
  | _ ∈ _ ++ _ => apply elem_of_app in H as [H|H]; absurd_elem H
  | _ ∈ _ :: _ =>
      apply elem_of_cons in H as [H|H]; [discriminate H | absurd_elem H]
  | _ ∈ [] => now apply elem_of_nil in H
  | _ ∈ (if ?b then _ else _) => destruct b; absurd_elem H
  | _ ∈ match ?x with _ => _ end => destruct x; absurd_elem H
  end.

Lemma chatAt_last (c : list ChatMessage) x :
  chatAt (c ++ [x]) (Z.of_nat (length (c ++ [x])) - 1) = Some x.
Proof.
  unfold chatAt. rewrite length_app. cbn [length].
  replace (Z.of_nat (length c + 1) - 1 <? 0)%Z with false
    by (symmetry; apply Z.ltb_ge; lia).
  replace (Z.to_nat (Z.of_nat (length c + 1) - 1)) with (length c) by lia.
  now apply list_lookup_middle.
Qed.

Lemma inputAreaTarget_snoc c x t :
  extra x ≫= roadway_target_chat = Some t ->
  inputAreaTarget (c ++ [x]) = Some t.
Proof.
  intros H. unfold inputAreaTarget.
  destruct (c ++ [x]) eqn:E; [now destruct c|]. rewrite <- E.
  now rewrite chatAt_last, H.
Qed.

Lemma inputAreaTarget_alter f i c :
  (forall m, extra (f m) ≫= roadway_target_chat = extra m ≫= roadway_target_chat) ->
  inputAreaTarget (alter f i c) = inputAreaTarget c.
Proof.
  intros Hf. unfold inputAreaTarget, chatAt.
  destruct c as [|a c]; [reflexivity|].
  assert (Hne : alter f i (a :: c) <> []) by now destruct i.
  destruct (alter f i (a :: c)) as [|a' c'] eqn:E; [contradiction|].
  rewrite <- E. rewrite length_alter.
  destruct (Z.of_nat (length (a :: c)) - 1 <? 0)%Z; [reflexivity|].
  set (n := Z.to_nat (Z.of_nat (length (a :: c)) - 1)).
  destruct (decide (i = n)) as [->|Hi].
  - rewrite list_lookup_alter_eq.
    destruct ((a :: c) !! n) as [m|]; [|reflexivity].
    cbn [fmap option_fmap option_map]. now rewrite Hf.
  - now rewrite list_lookup_alter_ne.
Qed.

Lemma updateMessage_target html raw actions m :
  extra (updateMessage html raw actions m) ≫= roadway_target_chat
  = extra m ≫= roadway_target_chat.
Proof. cbn. now destruct (extra m). Qed.

(** After the upsert for its target the button still has that target. *)
Lemma inputAreaTarget_upserted w t raw strategy actions :
  inputAreaTarget (chat w) = Some t ->
  inputAreaTarget (upsertedChat w t raw strategy actions) = Some t.
Proof.
  intros H. unfold upsertedChat.
  destruct (findIndex (isRoadwayFor t) (chat w)).
  - rewrite inputAreaTarget_alter; [exact H|].
    intros m. apply updateMessage_target.
  - now apply inputAreaTarget_snoc.
Qed.

Lemma chatAt_upserted w t raw strategy actions id :
  is_Some (chatAt (chat w) id) ->
  is_Some (chatAt (upsertedChat w t raw strategy actions) id).
Proof.
  unfold chatAt, upsertedChat. destruct (id <? 0)%Z; [trivial|].
  intros [m Hm]. destruct (findIndex (isRoadwayFor t) (chat w)) as [i|].
  - apply lookup_lt_is_Some. rewrite length_alter.
    eapply lookup_lt_Some; eauto.
  - exists m. apply lookup_app_l_Some. exact Hm.
Qed.

Lemma complete_inputAreaClick n reply w t :
  inputAreaTarget (chat w) = Some t ->
  complete n reply inputAreaClick w = complete n reply (generateRoadway t) w.
Proof.
  intros H. apply complete_run. unfold inputAreaClick.
  cbn [bind get run]. now rewrite H.
Qed.

(** X16. Clicking the input-area button again generates for the same message:
    after the first generation the button still has its target, and the
    second generation updates the annotation in place, so the chat does not
    grow any more. *)
Theorem input_button_keeps_its_target reply text w t :
  profileId (settings w) <> [] ->
  promptPreset (settings w) <> [] ->
  is_Some (promptPresets (settings w) !! promptPreset (settings w)) ->
  serves reply text ->
  inputAreaTarget (chat w) = Some t ->
  is_Some (chatAt (chat w) t) ->
  t ∉ pendingRequests w ->
  exists w1 cs1 w2 cs2,
    complete 4 reply inputAreaClick w = (w1, cs1, Returned tt)
    /\ inputAreaTarget (chat w1) = Some t
    /\ complete 4 reply inputAreaClick w1 = (w2, cs2, Returned tt)
    /\ inputAreaTarget (chat w2) = Some t
    /\ length (chat w2) = length (chat w1)
    /\ (forall m a, ~ (addOneMessage m a ∈ cs2)).
Proof.
  intros Hp Hs Hpre Hserve Ht Hm Hnew.
  destruct (complete_generateRoadway reply t text w Hp Hs Hm Hnew Hpre Hserve)
    as (result & p & Hp' & Hrun).
  set (w1 := cleanup t
               (set_chat (upsertedChat w t text (selectedStrategy w)
                            (actionsOf (selectedStrategy w) text))
                         (started t w))) in *.
  assert (Ht1 : inputAreaTarget (chat w1) = Some t)
    by (apply inputAreaTarget_upserted; exact Ht).
  assert (Hm1 : is_Some (chatAt (chat w1) t))
    by (apply chatAt_upserted; exact Hm).
  assert (Hnew1 : t ∉ pendingRequests w1) by apply cleanup_released.
  destruct (complete_generateRoadway reply t text w1 Hp Hs Hm1 Hnew1 Hpre Hserve)
    as (result2 & p2 & Hp2 & Hrun2).
  destruct (upsertedChat_annotation w t text (selectedStrategy w)
              (actionsOf (selectedStrategy w) text))
    as (i & m & Hi & _).
  change (upsertedChat w t text (selectedStrategy w)
            (actionsOf (selectedStrategy w) text)) with (chat w1) in Hi.
  eexists w1, _, _, _.
  split; [rewrite (complete_inputAreaClick _ _ _ _ Ht); exact Hrun|].
  split; [exact Ht1|].
  split; [rewrite (complete_inputAreaClick _ _ _ _ Ht1); exact Hrun2|].
  cbn [chat cleanup set_spinning set_pendingRequests set_chat].
  split; [apply inputAreaTarget_upserted; exact Ht1|].
  split.
  - unfold upsertedChat at 1. rewrite Hi. apply length_alter.
  - intros m' a Hin. unfold upsertCalls, warningCalls in Hin.
    rewrite Hi in Hin. absurd_elem Hin.
Qed.

Lemma input_button_keeps_its_target_witness :
  inputAreaTarget (chat sampleWorld) = Some 0%Z
  /\ exists w1 cs1 w2 cs2,
       complete 4 (sampleReply sampleText) inputAreaClick sampleWorld
       = (w1, cs1, Returned tt)
       /\ inputAreaTarget (chat w1) = Some 0%Z
       /\ complete 4 (sampleReply sampleText) inputAreaClick w1
          = (w2, cs2, Returned tt)
       /\ inputAreaTarget (chat w2) = Some 0%Z
       /\ length (chat w2) = length (chat w1)
       /\ (forall m a, ~ (addOneMessage m a ∈ cs2)).
Proof.
  assert (H : inputAreaTarget (chat sampleWorld) = Some 0%Z)
    by (vm_compute; reflexivity).
  split; [exact H|].
  apply (input_button_keeps_its_target (sampleReply sampleText) sampleText
                                       sampleWorld 0).
  - vm_compute. discriminate.
  - vm_compute. discriminate.
  - vm_compute. eexists. reflexivity.
  - apply serves_sampleReply.
  - exact H.
  - vm_compute. eexists. reflexivity.
  - vm_compute. set_solver.
Defined.

End InputArea.

(** ** The reload of a chat *)

Section Reload.

(** X17. After a first generation for a message, a reload of the chat attaches
    the option handlers to the annotation itself, the last message of the
    chat. *)
Theorem reload_attaches_to_annotation reply id text w :
  profileId (settings w) <> [] ->
  promptPreset (settings w) <> [] ->
  is_Some (chatAt (chat w) id) ->
  id ∉ pendingRequests w ->
  is_Some (promptPresets (settings w) !! promptPreset (settings w)) ->
  serves reply text ->
  findIndex (isRoadwayFor id) (chat w) = None ->
  exists w' cs m,
    complete 4 reply (generateRoadway id) w = (w', cs, Returned tt)
    /\ chat w' = chat w ++ [m]
    /\ extra m ≫= roadway_target_chat = Some id
    /\ onChatChanged (settings w') (chat w')
       = Some {| use_actions_shown := showUseActionIcon (settings w);
                 handlers_attached_for := Some (Z.of_nat (length (chat w))) |}.
Proof.
  intros Hp Hs Hm Hnew Hpre Hserve Hnone.
  destruct (complete_generateRoadway reply id text w Hp Hs Hm Hnew Hpre Hserve)
    as (result & p & Hp' & Hrun).
  unfold upsertedChat, upsertCalls in Hrun. rewrite Hnone in Hrun.
  eexists _, _, _. split; [exact Hrun|].
  cbn [chat settings cleanup set_spinning set_pendingRequests set_chat started].
  split; [reflexivity|]. split; [reflexivity|].
  set (m := freshMessage _ _ _ _ _). unfold onChatChanged.
  destruct (chat w ++ [m]) eqn:E; [now destruct (chat w)|]. rewrite <- E.
  unfold chatAt. rewrite length_app. cbn [length].
  replace (Z.of_nat (length (chat w) + 1) - 1 <? 0)%Z with false
    by (symmetry; apply Z.ltb_ge; lia).
  replace (Z.to_nat (Z.of_nat (length (chat w) + 1) - 1)) with (length (chat w))
    by lia.
  rewrite list_lookup_middle by reflexivity. cbn.
  do 3 f_equal. lia.
Qed.

Lemma reload_attaches_to_annotation_witness :
  findIndex (isRoadwayFor 0) (chat sampleWorld) = None
  /\ exists w' cs m,
       complete 4 (sampleReply sampleText) (generateRoadway 0) sampleWorld
       = (w', cs, Returned tt)
       /\ chat w' = chat sampleWorld ++ [m]
       /\ extra m ≫= roadway_target_chat = Some 0%Z
       /\ onChatChanged (settings w') (chat w')
          = Some {| use_actions_shown := showUseActionIcon (settings sampleWorld);
                    handlers_attached_for :=
                      Some (Z.of_nat (length (chat sampleWorld))) |}.
Proof.
  assert (H : findIndex (isRoadwayFor 0) (chat sampleWorld) = None)
    by (vm_compute; reflexivity).
  split; [exact H|].
  apply (reload_attaches_to_annotation (sampleReply sampleText) 0 sampleText
                                       sampleWorld).
  - vm_compute. discriminate.
  - vm_compute. discriminate.
  - vm_compute. eexists. reflexivity.
  - vm_compute. set_solver.
  - vm_compute. eexists. reflexivity.
  - apply serves_sampleReply.
  - exact H.
Defined.

End Reload.

(** ** Automatic generation *)

Section AutoTrigger.

Lemma autoTriggered_rendered events :
  forall last t,
    t ∈ autoTriggered last events ->
    (t = last /\ last <> (-1)%Z) \/ existsb (renders t) events = true.
Proof.
  induction events as [|[env e] events IH]; intros last t Hin.
  - now apply elem_of_nil in Hin.
  - cbn [autoTriggered] in Hin. cbn [existsb].
    destruct e as [messageId type|type]; cbn [onHostEvent] in Hin.
    + assert (Hcase : t = messageId \/ t ∈ autoTriggered messageId events).
      { destruct (_ || _ || _) in Hin; cbn [app] in Hin; [now right|].
        apply elem_of_cons in Hin as [->|Hin]; [now left | now right]. }
      right. unfold renders at 1. cbn [snd].
      destruct Hcase as [->|Hrest]; [now rewrite Z.eqb_refl|].
      destruct (IH _ _ Hrest) as [[-> _]|H]; [now rewrite Z.eqb_refl|].
      rewrite H. apply orb_true_r.
    + unfold renders at 1. cbn [snd orb].
      destruct (negb (autoTrigger (current_settings env))
                || (last =? -1)%Z
                || negb (includes allowed_group_types type)) eqn:Eg;
        cbn [app] in Hin.
      * now apply IH.
      * apply elem_of_cons in Hin as [->|Hin]; [|now apply IH].
        left. split; [reflexivity|].
        apply orb_false_elim in Eg as [Eg _].
        apply orb_false_elim in Eg as [_ Eg]. now apply Z.eqb_neq in Eg.
Qed.

Lemma autoTriggered_off events :
  Forall (fun ev => autoTrigger (current_settings ev.1) = false) events ->
  forall last, autoTriggered last events = [].
Proof.
  induction 1 as [|[env e] events Hoff _ IH]; intros last; [reflexivity|].
  cbn [fst] in Hoff. cbn [autoTriggered].
  destruct e; cbn [onHostEvent]; rewrite Hoff; cbn [negb orb app]; apply IH.
Qed.

(** X18. From the start of the page on, every button that is clicked
    automatically belongs to a message that was rendered before; and
    while automatic generation is switched off, nothing is clicked. *)
Theorem auto_trigger_targets_rendered events :
  Forall (fun t => existsb (renders t) events = true)
         (autoTriggered (-1) events)
  /\ (Forall (fun ev => autoTrigger (current_settings ev.1) = false) events ->
      autoTriggered (-1) events = []).
Proof.
  split.
  - apply Forall_forall. intros t Hin.
    destruct (autoTriggered_rendered _ _ _ Hin) as [[_ H]|H];
      [contradiction | exact H].
  - intros H. now apply autoTriggered_off.
Qed.

Lemma auto_trigger_targets_rendered_witness :
  let events := [(switchedOff, CHARACTER_MESSAGE_RENDERED 3 None);
                 (switchedOff, GROUP_WRAPPER_FINISHED (Some "normal"))] in
  Forall (fun ev => autoTrigger (current_settings ev.1) = false) events
  /\ autoTriggered (-1) events = []
  /\ autoTriggered (-1) [(alone, CHARACTER_MESSAGE_RENDERED 3 None);
                          (alone, GROUP_WRAPPER_FINISHED (Some "swipe"))]
     = [3%Z; 3%Z].
Proof.
  intros events.
  assert (H : Forall (fun ev => autoTrigger (current_settings ev.1) = false)
                     events)
    by (repeat constructor).
  split; [exact H|]. split.
  - exact (proj2 (auto_trigger_targets_rendered events) H).
  - reflexivity.
Defined.

End AutoTrigger.

(** ** The preset store *)

Section PresetStore.

Lemma set_promptPresets_same s : set_promptPresets (promptPresets s) s = s.
Proof. now destruct s. Qed.

Lemma set_promptPresets_twice m m' s :
  set_promptPresets m (set_promptPresets m' s) = set_promptPresets m s.
Proof. reflexivity. Qed.

(** X19. Renaming a preset to an unused name and back gives the settings
    back. *)
Theorem rename_there_and_back s a b p :
  promptPresets s !! a = Some p ->
  promptPresets s !! b = None ->
  onAfterRename b a (onAfterRename a b s) = s.
Proof.
  intros Ha Hb.
  assert (Hab : a <> b) by congruence.
  unfold onAfterRename at 2. rewrite Ha.
  unfold onAfterRename. cbn [promptPresets set_promptPresets].
  rewrite lookup_delete_ne by congruence. rewrite lookup_insert_eq.
  rewrite set_promptPresets_twice.
  transitivity (set_promptPresets (promptPresets s) s);
    [|apply set_promptPresets_same].
  f_equal. apply map_eq. intros k.
  destruct (decide (k = b)) as [->|Hkb].
  - now rewrite lookup_delete_eq, Hb.
  - rewrite lookup_delete_ne by congruence.
    destruct (decide (k = a)) as [->|Hka].
    + now rewrite lookup_insert_eq, Ha.
    + rewrite lookup_insert_ne by congruence.
      rewrite lookup_delete_ne by congruence.
      now rewrite lookup_insert_ne by congruence.
Qed.

Lemma rename_there_and_back_witness :
  promptPresets twoPresets !! js "yours" = None
  /\ onAfterRename (js "yours") (js "mine")
       (onAfterRename (js "mine") (js "yours") twoPresets)
     = twoPresets.
Proof.
  assert (Hb : promptPresets twoPresets !! js "yours" = None)
    by (vm_compute; reflexivity).
  assert (Ha : exists p, promptPresets twoPresets !! js "mine" = Some p)
    by (vm_compute; eauto).
  destruct Ha as [p Ha].
  split; [exact Hb|].
  exact (rename_there_and_back twoPresets (js "mine") (js "yours") p Ha Hb).
Defined.

(** X20. The rename callback does not look at the names it is given: a rename
    of a preset to its own name removes the preset, and a rename onto the
    name of another preset replaces that preset, so that one preset less is
    left. *)
Theorem rename_onto_a_used_name s a p :
  promptPresets s !! a = Some p ->
  promptPresets (onAfterRename a a s) = delete a (promptPresets s)
  /\ forall b q,
       a <> b -> promptPresets s !! b = Some q ->
       promptPresets (onAfterRename a b s) !! b = Some p
       /\ promptPresets (onAfterRename a b s) !! a = None
       /\ size (promptPresets (onAfterRename a b s))
          = (size (promptPresets s) - 1)%nat.
Proof.
  intros Ha. unfold onAfterRename. rewrite Ha.
  cbn [promptPresets set_promptPresets]. split.
  - apply map_eq. intros k. destruct (decide (k = a)) as [->|Hk].
    + now rewrite !lookup_delete_eq.
    + rewrite !lookup_delete_ne by congruence.
      now rewrite lookup_insert_ne by congruence.
  - intros b q Hab Hb. split; [|split].
    + rewrite lookup_delete_ne by congruence. apply lookup_insert_eq.
    + apply lookup_delete_eq.
    + rewrite map_size_delete_Some
        by (rewrite lookup_insert_ne by congruence; eauto).
      rewrite map_size_insert_Some by eauto. lia.
Qed.

Lemma rename_onto_a_used_name_witness :
  size (promptPresets twoPresets) = 2%nat
  /\ promptPresets (onAfterRename (js "mine") (js "mine") twoPresets)
     = delete (js "mine") (promptPresets twoPresets)
  /\ size (promptPresets (onAfterRename (js "mine") (js "default") twoPresets))
     = (size (promptPresets twoPresets) - 1)%nat.
Proof.
  assert (Ha : exists p, promptPresets twoPresets !! js "mine" = Some p)
    by (vm_compute; eauto).
  assert (Hb : exists q, promptPresets twoPresets !! js "default" = Some q)
    by (vm_compute; eauto).
  destruct Ha as [p Ha]. destruct Hb as [q Hb].
  destruct (rename_onto_a_used_name twoPresets (js "mine") p Ha) as [H1 H2].
  split; [vm_compute; reflexivity|]. split; [exact H1|].
  apply (H2 (js "default") q); [discriminate | exact Hb].
Defined.

(** X21. A created preset is a copy: editing the prompt of the new preset, once
    it is selected, leaves the preset it was copied from as it was. *)
Theorem created_preset_is_a_copy s value template p :
  promptPresets s !! promptPreset s = Some p ->
  value <> promptPreset s ->
  exists s',
    onPromptChange template
      (onSelectChange (Some (promptPreset s)) (Some value)
         (onAfterCreate value s)) = Some s'
    /\ promptPreset s' = value
    /\ promptPresets s' !! promptPreset s = Some p
    /\ promptPresets s' !! value
       = Some {| content := template;
                 extractionStrategy := extractionStrategy p;
                 impersonate :=
                   Some (default DEFAULT_IMPERSONATE (impersonate p)) |}.
Proof.
  intros Hp Hv. unfold onPromptChange, onSelectChange, onAfterCreate.
  cbn [promptPresets promptPreset set_promptPresets set_promptPreset default].
  rewrite Hp, lookup_insert_eq. eexists. split; [reflexivity|].
  cbn [promptPresets promptPreset set_promptPresets set_promptPreset].
  split; [reflexivity|]. split.
  - unfold id. rewrite !lookup_insert_ne by congruence. exact Hp.
  - unfold id. rewrite lookup_insert_eq. reflexivity.
Qed.

Lemma created_preset_is_a_copy_witness :
  exists p s',
    promptPresets sampleSettings !! promptPreset sampleSettings = Some p
    /\ onPromptChange (js "List three actions.")
         (onSelectChange (Some (promptPreset sampleSettings)) (Some (js "mine"))
            (onAfterCreate (js "mine") sampleSettings)) = Some s'
    /\ promptPreset s' = js "mine"
    /\ promptPresets s' !! promptPreset sampleSettings = Some p.
Proof.
  assert (Hp : exists p,
             promptPresets sampleSettings !! promptPreset sampleSettings = Some p)
    by (vm_compute; eauto).
  destruct Hp as [p Hp].
  assert (Hv : js "mine" <> promptPreset sampleSettings) by discriminate.
  destruct (created_preset_is_a_copy sampleSettings (js "mine")
              (js "List three actions.") p Hp Hv)
    as (s' & H1 & H2 & H3 & _).
  exists p, s'. auto.
Defined.

(** X22. An edit of a field of the selected preset throws exactly when the
    selected name is neither a key of the mapping nor a member name of
    [Object.prototype].  Where the name is a key, the edit keeps the selected
    name, which is still a key, and every other preset; where it is the name
    of an inherited member, the settings stay as they are. *)
Theorem field_edits_need_the_selected_preset s template strategy text h :
  h ∈ [onPromptChange template; onExtractionStrategyChange strategy;
       onImpersonateChange text] ->
  (h s = None <-> ~ resolves s /\ promptPreset s ∉ objectPrototypeNames)
  /\ (~ resolves s -> promptPreset s ∈ objectPrototypeNames -> h s = Some s)
  /\ forall s',
       h s = Some s' ->
       promptPreset s' = promptPreset s
       /\ (resolves s -> resolves s')
       /\ forall k, k <> promptPreset s ->
            promptPresets s' !! k = promptPresets s !! k.
Proof.
  intros Hh.
  assert (Hcase : h = onPromptChange template
                  \/ h = onExtractionStrategyChange strategy
                  \/ h = onImpersonateChange text).
  { repeat (apply elem_of_cons in Hh as [Hh|Hh]; [auto|]).
    now apply elem_of_nil in Hh. }
  unfold resolves.
  destruct Hcase as [->|[->| ->]];
    unfold onPromptChange, onExtractionStrategyChange, onImpersonateChange;
    (destruct (promptPresets s !! promptPreset s) as [p|] eqn:E;
     [ split;
       [ split; [discriminate | intros [H _]; exfalso; apply H; eauto]
       | split;
         [ intros H; exfalso; apply H; eauto
         | intros s' [= <-];
           cbn [promptPresets promptPreset set_promptPresets];
           rewrite lookup_insert_eq; repeat split; eauto;
           intros k Hk; now apply lookup_insert_ne ] ]
     | destruct (bool_decide (promptPreset s ∈ objectPrototypeNames)) eqn:B;
       [ apply bool_decide_eq_true in B; split;
         [ split; [discriminate | intros [_ H]; contradiction]
         | split;
           [ reflexivity
           | intros s' [= <-]; repeat split; intros [q Hq]; discriminate Hq ] ]
       | apply bool_decide_eq_false in B; split;
         [ split;
           [ intros _; split; [intros [q Hq]; discriminate Hq | exact B]
           | reflexivity ]
         | split; [intros _ H; contradiction | discriminate] ] ] ]).
Qed.

Lemma field_edits_need_the_selected_preset_witness :
  let h := onPromptChange (js "List three actions.") in
  let dangling := onAfterRename (js "mine") (js "yours") twoPresets in
  let inherited := set_promptPreset (js "toString") twoPresets in
  h ∈ [onPromptChange (js "List three actions.");
       onExtractionStrategyChange none; onImpersonateChange (js "Be brief.")]
  /\ h dangling = None
  /\ h inherited = Some inherited
  /\ exists s', h sampleSettings = Some s' /\ resolves s'.
Proof.
  intros h dangling inherited.
  assert (Hh : h ∈ [onPromptChange (js "List three actions.");
                    onExtractionStrategyChange none;
                    onImpersonateChange (js "Be brief.")])
    by (apply elem_of_cons; now left).
  split; [exact Hh|]. split; [|split].
  - apply (field_edits_need_the_selected_preset
             dangling (js "List three actions.") none (js "Be brief.") h Hh).
    split.
    + intros [p Hp]. vm_compute in Hp. discriminate Hp.
    + apply (bool_decide_eq_false_1 _). vm_compute. reflexivity.
  - apply (field_edits_need_the_selected_preset
             inherited (js "List three actions.") none (js "Be brief.") h Hh).
    + intros [p Hp]. vm_compute in Hp. discriminate Hp.
    + apply (bool_decide_eq_true_1 _). vm_compute. reflexivity.
  - destruct (h sampleSettings) as [s'|] eqn:E.
    + exists s'. split; [reflexivity|].
      apply (field_edits_need_the_selected_preset
               sampleSettings (js "List three actions.") none (js "Be brief.")
               h Hh); [exact E|]. vm_compute. eauto.
    + exfalso.
      apply (field_edits_need_the_selected_preset
               sampleSettings (js "List three actions.") none (js "Be brief.")
               h Hh) in E.
      apply (proj1 E). vm_compute. eauto.
Defined.

End PresetStore.

(** ** Editing, then impersonating *)

Section Impersonate.

Lemma arrayGet_arraySet {A} (l : list (option A)) index v :
  (0 <= index)%Z -> arrayGet (arraySet l index v) index = Some v.
Proof.
  intros H. unfold arrayGet, arraySet.
  replace (index <? 0)%Z with false by (symmetry; apply Z.ltb_ge; lia).
  destruct (Z.to_nat index <? length l)%nat eqn:E.
  - apply Nat.ltb_lt in E. now rewrite list_lookup_insert_eq.
  - apply Nat.ltb_ge in E.
    rewrite lookup_app_r by exact E.
    rewrite lookup_app_r by (rewrite length_replicate; lia).
    rewrite length_replicate.
    now replace (Z.to_nat index - length l - (Z.to_nat index - length l))%nat
      with 0%nat by lia.
Qed.

(** X23. An edited option is the one that is impersonated: after the commit of
    an edit in a row, the impersonate button of that row hands the text
    typed in to the host, through the template of the selected preset. *)
Theorem edited_option_is_impersonated
    substitute selectedApi w roadwayMessageId index newText m options p template :
  chatAt (chat w) roadwayMessageId = Some m ->
  extra m ≫= roadway_options = Some options ->
  (0 <= index)%Z ->
  promptPresets (settings w) !! promptPreset (settings w) = Some p ->
  impersonate p = Some template ->
  template <> [] ->
  impersonateApi (settings w) = api_main ->
  impersonateClick substitute selectedApi roadwayMessageId index
    (run (onBlur roadwayMessageId index newText) w).1.1
  = imp_command (substitute template (Some newText)).
Proof.
  intros Hm Hopt Hidx Hp Himp Hne Hapi.
  pose proof (chatAt_Some _ _ _ Hm) as Hlook.
  unfold onBlur. cbn [bind call run get]. rewrite Hm, Hopt.
  cbn [bind call run get modify fst snd].
  unfold impersonateClick. cbn [chat settings set_chat].
  unfold chatAt in Hm |- *. destruct (roadwayMessageId <? 0)%Z; [discriminate|].
  rewrite list_lookup_insert_eq by (eapply lookup_lt_Some; eauto).
  rewrite Hp. cbn [mbind option_bind]. rewrite Himp.
  destruct template as [|c template]; [contradiction|].
  rewrite Hapi.
  assert (Hex : extra (set_options (arraySet options index newText) m)
                ≫= roadway_options = Some (arraySet options index newText)).
  { cbn. destruct (extra m); [reflexivity | discriminate Hopt]. }
  rewrite Hex. now rewrite arrayGet_arraySet.
Qed.

Lemma edited_option_is_impersonated_witness :
  impersonateClick sampleSubstitute (fun _ => None) 1 0
    (run (onBlur 1 0 (js "Do Y")) annotatedWorld).1.1
  = imp_command (sampleSubstitute DEFAULT_IMPERSONATE (Some (js "Do Y"))).
Proof.
  assert (Hm : exists m, chatAt (chat annotatedWorld) 1 = Some m
                         /\ extra m ≫= roadway_options = Some [Some (js "Do X")])
    by (vm_compute; eauto).
  destruct Hm as (m & Hm & Hopt).
  assert (Hp : exists p,
             promptPresets (settings annotatedWorld)
               !! promptPreset (settings annotatedWorld) = Some p
             /\ impersonate p = Some DEFAULT_IMPERSONATE)
    by (vm_compute; eauto).
  destruct Hp as (p & Hp & Himp).
  apply (edited_option_is_impersonated sampleSubstitute (fun _ => None)
           annotatedWorld 1 0 (js "Do Y") m [Some (js "Do X")] p
           DEFAULT_IMPERSONATE Hm Hopt).
  - lia.
  - exact Hp.
  - exact Himp.
  - discriminate.
  - reflexivity.
Defined.

End Impersonate.

(** ** How often a generation calls the host *)

Section Sparing.

Lemma exec_sparing {A} p (m : async A) w tr wf st :
  exec m w tr wf st ->
  forall n, sparing p n m -> (length (callsWith p tr) <= n)%nat.
Proof.
  induction 1 as [a w|e w|k w tr w' st _ IH|w0 m w tr w' st _ IH
                 |c m w tr w' st _ IH|c k o w w2 tr w' st _ IH];
    intros n Hs.
  - cbn. lia.
  - cbn. lia.
  - inversion Hs; subst. now apply IH.
  - inversion Hs; subst. now apply IH.
  - unfold callsWith in *. cbn [List.filter]. inversion Hs; subst.
    + match goal with H : p c = false |- _ => rewrite H end. now apply IH.
    + destruct (p c); cbn [length].
      * match goal with H : sparing p _ m |- _ => apply IH in H end. lia.
      * match goal with H : sparing p _ m |- _ => apply IH in H end. lia.
  - unfold callsWith in *. cbn [List.filter]. inversion Hs; subst.
    + match goal with H : p c = false |- _ => rewrite H end.
      apply IH. auto.
    + match goal with H : forall o, sparing p _ (k o) |- _ =>
        specialize (H o); apply IH in H end.
      destruct (p c); cbn [length]; lia.
Qed.

Ltac sparing_step :=
  cbn [bind get modify call await try_catch try_finally settle];
  lazymatch goal with
  | |- sparing _ _ (Ret _) => apply sparing_Ret
  | |- sparing _ _ (Throw _) => apply sparing_Throw
  | |- sparing _ _ (Get _) => apply sparing_Get; intros ?
  | |- sparing _ _ (Put _ _) => apply sparing_Put
  | |- sparing _ _ (Call _ _) =>
      first [ apply sparing_Call; [reflexivity|]
            | apply sparing_Call_counted ]
  | |- sparing _ _ (Await _ _) =>
      first [ apply sparing_Await; [reflexivity | intros [?|?]]
            | apply sparing_Await_counted; intros [?|?] ]
  | |- context [match ?x with _ => _ end] => destruct x
  end.

Ltac sparing_flow :=
  unfold generateRoadway, gr_guarded, gr_try, gr_catch, gr_finally,
    gr_afterBuildPrompt, gr_afterSendRequest, gr_upsert;
  repeat sparing_step.

Lemma sparing_buildPrompt id : sparing isBuildPrompt 1 (generateRoadway id).
Proof. sparing_flow. Qed.

Lemma sparing_sendRequest id : sparing isSendRequest 1 (generateRoadway id).
Proof. sparing_flow. Qed.

Lemma sparing_saveChat id : sparing isSaveChat 1 (generateRoadway id).
Proof. sparing_flow. Qed.

Lemma sparing_addOneMessage id : sparing isAddOneMessage 1 (generateRoadway id).
Proof. sparing_flow. Qed.

(** X13. In no run does a generation ask for more than one prompt, send more
    than one request, add more than one message or save the chat more than
    once, whatever the host answers and whatever happens to the shared
    state in between. *)
Theorem generation_calls_at_most_once id w tr wf st :
  exec (generateRoadway id) w tr wf st ->
  (length (callsWith isBuildPrompt tr) <= 1)%nat
  /\ (length (callsWith isSendRequest tr) <= 1)%nat
  /\ (length (callsWith isAddOneMessage tr) <= 1)%nat
  /\ (length (callsWith isSaveChat tr) <= 1)%nat.
Proof.
  intros H. repeat split.
  - exact (exec_sparing _ _ _ _ _ _ H _ (sparing_buildPrompt id)).
  - exact (exec_sparing _ _ _ _ _ _ H _ (sparing_sendRequest id)).
  - exact (exec_sparing _ _ _ _ _ _ H _ (sparing_addOneMessage id)).
  - exact (exec_sparing _ _ _ _ _ _ H _ (sparing_saveChat id)).
Qed.

Lemma generation_calls_at_most_once_witness :
  let tr := [Called (buildPrompt 0 (maxContextOf (settings sampleWorld)));
             Settled (Rejected "network down");
             Called (console_error "network down");
             Called (st_echo echo_error (String.append "Error: " "network down"));
             Settled (Fulfilled VUndefined)] in
  exec (generateRoadway 0) sampleWorld tr
       (cleanup 0 (started 0 sampleWorld)) (Returned tt)
  /\ (length (callsWith isBuildPrompt tr) <= 1)%nat
  /\ (length (callsWith isSendRequest tr) <= 1)%nat
  /\ (length (callsWith isAddOneMessage tr) <= 1)%nat
  /\ (length (callsWith isSaveChat tr) <= 1)%nat.
Proof.
  intros tr.
  assert (H : exec (generateRoadway 0) sampleWorld tr
                   (cleanup 0 (started 0 sampleWorld)) (Returned tt)).
  { apply (exec_buildPrompt_rejected 0 sampleWorld "network down" VUndefined).
    - vm_compute. discriminate.
    - vm_compute. discriminate.
    - vm_compute. eexists. reflexivity.
    - vm_compute. set_solver. }
  split; [exact H|].
  exact (generation_calls_at_most_once 0 sampleWorld tr _ _ H).
Defined.

End Sparing.

(** ** When the warning is shown *)

Section Warning.

(** X8. The warning about missing bullet points is shown exactly when the
    strategy of the selected preset is the bullet strategy and nothing was
    extracted from the reply. *)
Theorem warning_iff_nothing_extracted reply id text w :
  profileId (settings w) <> [] ->
  promptPreset (settings w) <> [] ->
  is_Some (chatAt (chat w) id) ->
  id ∉ pendingRequests w ->
  is_Some (promptPresets (settings w) !! promptPreset (settings w)) ->
  serves reply text ->
  exists w' cs,
    complete 4 reply (generateRoadway id) w = (w', cs, Returned tt)
    /\ (st_echo echo_warning msgNoBullets ∈ cs
        <-> selectedStrategy w = Some bullet /\ extractBulletPoints text = []).
Proof.
  intros Hp Hs Hm Hnew Hpre Hserve.
  destruct (complete_generateRoadway reply id text w Hp Hs Hm Hnew Hpre Hserve)
    as (result & p & Hp' & Hrun).
  eexists _, _. split; [exact Hrun|]. split.
  - intros Hin.
    apply elem_of_app in Hin as [Hin|Hin].
    { exfalso.
      repeat (apply elem_of_cons in Hin as [Hin|Hin]; [discriminate Hin|]).
      now apply elem_of_nil in Hin. }
    apply elem_of_app in Hin as [Hin|Hin].
    + unfold warningCalls, actionsOf in Hin.
      destruct (selectedStrategy w) as [[|]|];
        try (now apply elem_of_nil in Hin).
      destruct (extractBulletPoints text); [auto|].
      now apply elem_of_nil in Hin.
    + exfalso. unfold upsertCalls in Hin.
      destruct (findIndex (isRoadwayFor id) (chat w));
        destruct (autoOpen (settings w)); cbn [app] in Hin;
        repeat (apply elem_of_cons in Hin as [Hin|Hin]; [discriminate Hin|]);
        now apply elem_of_nil in Hin.
  - intros [Hb Hnil]. rewrite Hb. cbn [actionsOf]. rewrite Hnil.
    cbn [warningCalls app]. rewrite !elem_of_cons. auto.
Qed.

Lemma warning_iff_nothing_extracted_witness :
  extractBulletPoints sampleText <> []
  /\ exists w' cs,
       complete 4 (sampleReply sampleText) (generateRoadway 0) sampleWorld
       = (w', cs, Returned tt)
       /\ (st_echo echo_warning msgNoBullets ∈ cs
           <-> selectedStrategy sampleWorld = Some bullet
               /\ extractBulletPoints sampleText = []).
Proof.
  split; [vm_compute; discriminate|].
  apply (warning_iff_nothing_extracted (sampleReply sampleText) 0 sampleText
                                       sampleWorld).
  - vm_compute. discriminate.
  - vm_compute. discriminate.
  - vm_compute. eexists. reflexivity.
  - vm_compute. set_solver.
  - vm_compute. eexists. reflexivity.
  - apply serves_sampleReply.
Defined.

End Warning.

(** ** Two messages at once *)

Section Concurrent.

(** The first synchronous stretch of a generation that passes its checks:
    the message enters the in-flight set, the indicator is set and the
    prompt is asked for. *)
Lemma run_generateRoadway id w :
  profileId (settings w) <> [] ->
  promptPreset (settings w) <> [] ->
  is_Some (chatAt (chat w) id) ->
  id ∉ pendingRequests w ->
  exists k,
    run (generateRoadway id) w
    = (started id w, [buildPrompt id (maxContextOf (settings w))],
       Suspended (buildPrompt id (maxContextOf (settings w))) k).
Proof.
  intros Hp Hs [m Hm] Hnew. unfold generateRoadway, gr_guarded, gr_try.
  cbn [bind get run try_catch try_finally].
  destruct (profileId (settings w)); [contradiction|].
  destruct (promptPreset (settings w)); [contradiction|].
  rewrite Hm. cbn [bind get run try_catch try_finally].
  rewrite bool_decide_eq_false_2 by exact Hnew.
  cbn [bind get run try_catch try_finally modify await].
  eexists. reflexivity.
Qed.

(** X15. Requests for two different messages run side by side: the second click
    is not turned away, both prompts are asked for, both messages are in
    the in-flight set and both flows wait for the host. *)
Theorem two_messages_in_flight a b p :
  profileId (settings (world p)) <> [] ->
  promptPreset (settings (world p)) <> [] ->
  is_Some (chatAt (chat (world p)) a) ->
  is_Some (chatAt (chat (world p)) b) ->
  a ∉ pendingRequests (world p) ->
  b ∉ pendingRequests (world p) ->
  a <> b ->
  let p' := click b (click a p) in
  calls p' = calls p ++ [buildPrompt a (maxContextOf (settings (world p)));
                         buildPrompt b (maxContextOf (settings (world p)))]
  /\ pendingRequests (world p') = {[b]} ∪ ({[a]} ∪ pendingRequests (world p))
  /\ unresolved (length (flows p)) p' = true
  /\ unresolved (S (length (flows p))) p' = true.
Proof.
  intros Hp Hs Ha Hb Hna Hnb Hab p'. subst p'.
  destruct (run_generateRoadway a (world p) Hp Hs Ha Hna) as [ka Hra].
  assert (Hnb' : b ∉ pendingRequests (started a (world p))).
  { cbn. intros Hin. apply elem_of_union in Hin as [Hin|Hin]; [|contradiction].
    apply elem_of_singleton in Hin. congruence. }
  destruct (run_generateRoadway b (started a (world p)) Hp Hs Hb Hnb')
    as [kb Hrb].
  unfold click, start. rewrite Hra. cbn [world calls flows].
  rewrite Hrb. cbn [world calls flows suspension].
  split; [now rewrite <- app_assoc|]. split; [reflexivity|].
  unfold unresolved. cbn [flows]. split.
  - rewrite <- app_assoc. cbn [app]. now rewrite list_lookup_middle.
  - rewrite lookup_app_r by (rewrite length_app; cbn; lia).
    rewrite length_app. cbn [length].
    now replace (S (length (flows p)) - (length (flows p) + 1))%nat with 0%nat
      by lia.
Qed.

Lemma two_messages_in_flight_witness :
  let p := {| world := annotatedWorld; calls := []; flows := [] |} in
  let p' := click 1 (click 0 p) in
  calls p' = calls p ++ [buildPrompt 0 (maxContextOf (settings (world p)));
                         buildPrompt 1 (maxContextOf (settings (world p)))]
  /\ pendingRequests (world p') = {[1%Z]} ∪ ({[0%Z]} ∪ pendingRequests (world p))
  /\ unresolved (length (flows p)) p' = true
  /\ unresolved (S (length (flows p))) p' = true.
Proof.
  intros p.
  apply (two_messages_in_flight 0 1 p).
  - vm_compute. discriminate.
  - vm_compute. discriminate.
  - vm_compute. eexists. reflexivity.
  - vm_compute. eexists. reflexivity.
  - vm_compute. set_solver.
  - vm_compute. set_solver.
  - discriminate.
Defined.

End Concurrent.

(** ** Both ways of starting a generation end *)

Section Termination.

Lemma within_inputAreaClick : within 5 inputAreaClick.
Proof.
  unfold inputAreaClick, get. apply (within_bind 0 5); [repeat constructor|].
  intros w. destruct (inputAreaTarget (chat w));
    [apply within_generateRoadway | constructor].
Qed.

(** X14. Whatever the host answers, a generation started from a message button
    or from the input-area button is over once five of its awaits are
    settled: it has returned or thrown, and is not waiting any more. *)
Theorem generation_ends_within_five_awaits reply id w :
  suspension (complete 5 reply (generateRoadway id) w).2 = None
  /\ suspension (complete 5 reply inputAreaClick w).2 = None.
Proof.
  split; apply complete_within;
    [apply within_generateRoadway | apply within_inputAreaClick].
Qed.

End Termination.

(** ** The page after an update *)

Section Page.

(** X24. A generation for a message that has an annotation rewrites the
    page at the message after the target: what is put there has the
    summary and the body of the markup stored in the annotation, with the
    class prefix that the stored markup does not have. *)
Theorem update_rewrites_the_page reply id text w i :
  profileId (settings w) <> [] ->
  promptPreset (settings w) <> [] ->
  is_Some (chatAt (chat w) id) ->
  id ∉ pendingRequests w ->
  is_Some (promptPresets (settings w) !! promptPreset (settings w)) ->
  serves reply text ->
  findIndex (isRoadwayFor id) (chat w) = Some i ->
  exists w' cs stored shown,
    complete 4 reply (generateRoadway id) w = (w', cs, Returned tt)
    /\ (mes <$> chat w' !! i) = Some (Markup stored)
    /\ mesTextHtml (id + 1) shown ∈ cs
    /\ classPrefix stored = ""
    /\ classPrefix shown = "custom-"
    /\ summary shown = summary stored
    /\ body shown = body stored.
Proof.
  intros Hp Hs Hm Hnew Hpre Hserve Hi.
  destruct (complete_generateRoadway reply id text w Hp Hs Hm Hnew Hpre Hserve)
    as (result & p & Hp' & Hrun).
  unfold upsertedChat, upsertCalls in Hrun. rewrite Hi in Hrun.
  destruct (findIndex_Some _ _ _ Hi) as (m & Hlook & _).
  eexists _, _, _, _. split; [exact Hrun|].
  cbn [chat cleanup set_spinning set_pendingRequests set_chat].
  split; [rewrite list_lookup_alter_eq, Hlook; reflexivity|].
  split.
  - rewrite !elem_of_app. right. right. left. apply elem_of_cons. now left.
  - repeat split.
Qed.

Lemma update_rewrites_the_page_witness :
  findIndex (isRoadwayFor 0) (chat annotatedWorld) = Some 1%nat
  /\ exists w' cs stored shown,
       complete 4 (sampleReply (js "- Wait")) (generateRoadway 0) annotatedWorld
       = (w', cs, Returned tt)
       /\ (mes <$> chat w' !! 1%nat) = Some (Markup stored)
       /\ mesTextHtml (0 + 1) shown ∈ cs
       /\ classPrefix stored = ""
       /\ classPrefix shown = "custom-"
       /\ summary shown = summary stored
       /\ body shown = body stored.
Proof.
  assert (H : findIndex (isRoadwayFor 0) (chat annotatedWorld) = Some 1%nat)
    by (vm_compute; reflexivity).
  split; [exact H|].
  apply (update_rewrites_the_page (sampleReply (js "- Wait")) 0 (js "- Wait")
                                  annotatedWorld 1).
  - vm_compute. discriminate.
  - vm_compute. discriminate.
  - vm_compute. eexists. reflexivity.
  - vm_compute. set_solver.
  - vm_compute. eexists. reflexivity.
  - apply serves_sampleReply.
  - exact H.
Defined.

End Page.

(** ** Edits outside the stored list *)

Section EditEdges.

Lemma arraySet_past_end {A} (l : list (option A)) index v :
  (Z.of_nat (length l) <= index)%Z ->
  arraySet l index v
  = l ++ replicate (Z.to_nat index - length l) None ++ [Some v].
Proof.
  intros H. unfold arraySet.
  replace (index <? 0)%Z with false by (symmetry; apply Z.ltb_ge; lia).
  replace (Z.to_nat index <? length l)%nat with false
    by (symmetry; apply Nat.ltb_ge; lia).
  reflexivity.
Qed.

(** X25. The commit of an edit outside the stored list.  Where the message
    does not exist or stores no option list, the text is put into the row
    and nothing is stored or saved.  Where the row index lies past the end
    of the stored list, the list grows up to that index: the entries it had
    stay, the new entry is the last one, and the entries in between are
    holes. *)
Theorem edit_commit_outside_the_list w roadwayMessageId index newText :
  ((chatAt (chat w) roadwayMessageId ≫= extra) ≫= roadway_options = None ->
   run (onBlur roadwayMessageId index newText) w
   = (w, [contentDivText roadwayMessageId index newText], Returned tt))
  /\ forall m options,
       chatAt (chat w) roadwayMessageId = Some m ->
       extra m ≫= roadway_options = Some options ->
       (Z.of_nat (length options) <= index)%Z ->
       exists w' stored,
         run (onBlur roadwayMessageId index newText) w
         = (w', [contentDivText roadwayMessageId index newText; saveChat],
            Returned tt)
         /\ optionsAt (Z.to_nat roadwayMessageId) w' = Some stored
         /\ length stored = S (Z.to_nat index)
         /\ take (length options) stored = options
         /\ stored !! Z.to_nat index = Some (Some newText)
         /\ forall j, (length options <= j < Z.to_nat index)%nat ->
              stored !! j = Some None.
Proof.
  split.
  - intros Hnone. unfold onBlur. cbn [bind call run get].
    destruct (chatAt (chat w) roadwayMessageId) as [m|]; [|reflexivity].
    cbn [mbind option_bind] in Hnone.
    destruct (extra m ≫= roadway_options) eqn:E; [|reflexivity].
    destruct (extra m); discriminate.
  - intros m options Hm Hopt Hidx.
    pose proof (chatAt_Some _ _ _ Hm) as Hlook.
    eexists _, (options ++ replicate (Z.to_nat index - length options) None
                        ++ [Some newText]).
    split.
    { unfold onBlur. cbn [bind call run get]. rewrite Hm, Hopt. reflexivity. }
    unfold optionsAt. cbn [chat set_chat].
    rewrite list_lookup_insert_eq by (eapply lookup_lt_Some; eauto).
    rewrite arraySet_past_end by exact Hidx.
    split; [cbn; destruct (extra m); [reflexivity | discriminate Hopt]|].
    split; [rewrite !length_app, length_replicate; cbn [length]; lia|].
    split; [now rewrite take_app_length|].
    split.
    + rewrite lookup_app_r by lia.
      rewrite lookup_app_r by (rewrite length_replicate; lia).
      rewrite length_replicate.
      now replace (Z.to_nat index - length options
                   - (Z.to_nat index - length options))%nat with 0%nat by lia.
    + intros j Hj. rewrite lookup_app_r by lia.
      rewrite lookup_app_l by (rewrite length_replicate; lia).
      apply lookup_replicate_2. lia.
Qed.

Lemma edit_commit_outside_the_list_witness :
  run (onBlur 0 0 (js "Do Y")) annotatedWorld
  = (annotatedWorld, [contentDivText 0 0 (js "Do Y")], Returned tt)
  /\ exists w' stored,
       run (onBlur 1 2 (js "Do Z")) annotatedWorld
       = (w', [contentDivText 1 2 (js "Do Z"); saveChat], Returned tt)
       /\ optionsAt (Z.to_nat 1) w' = Some stored
       /\ length stored = 3%nat
       /\ stored !! 2%nat = Some (Some (js "Do Z")).
Proof.
  split.
  - apply (edit_commit_outside_the_list annotatedWorld 0 0 (js "Do Y")).
    vm_compute. reflexivity.
  - assert (Hm : exists m, chatAt (chat annotatedWorld) 1 = Some m
                           /\ extra m ≫= roadway_options = Some [Some (js "Do X")])
      by (vm_compute; eauto).
    destruct Hm as (m & Hm & Hopt).
    destruct (proj2 (edit_commit_outside_the_list annotatedWorld 1 2 (js "Do Z"))
                m [Some (js "Do X")] Hm Hopt ltac:(cbn; lia))
      as (w' & stored & H1 & H2 & H3 & _ & H4 & _).
    exists w', stored. auto.
Defined.

End EditEdges.
